(** * SpeakBot mobile client: command executor, command store, WebSocket
      service and streaming voice call

    A shallow embedding of the TypeScript sources

    - [src/services/commandExecutor.ts]  (class [CommandExecutor]),
    - [src/store/commandStore.ts]        (the zustand command store),
    - [src/store/robotStore.ts]          (the zustand robot store),
    - [src/services/websocket.ts]        (class [WebSocketService]),
    - [src/hooks/useVoiceCall.ts]        ([sendAudioChunk]),
    - [src/constants/config.ts]          ([APP_CONFIG]),

    followed by the properties proved about them.

    Conventions.  A JavaScript [number] is an exact rational ([Q]); rounding
    of IEEE doubles is not modelled, and [===] on numbers is [Qeq_bool].
    An [async] function is cut at its [await]s on timers: the code between
    two such points runs without interruption (JavaScript is single
    threaded), and what remains to be run after the timer is an explicit
    continuation ([Task]).  Every invocation of a callback is recorded in a
    ghost [trace], which the callbacks themselves cannot touch. *)

From Stdlib Require Import QArith.
From Stdlib.Strings Require Import Ascii String Byte.
From stdpp Require Import base option list gmap strings.

(** ** Shared data: [src/types/commands.ts] *)

(** [interface Command].  [params] is a [Record<string, any>]; the values
    the executor reads from it are numbers. *)
Record Command := mkCommand {
  command : string;
  params : gmap string Q;
  description : string;
  command_id : string;
  timestamp : string;
  order : option Q
}.

(** [type CommandStatus]. *)
Inductive CommandStatus := pending | executing | completed | failed.

(** [interface CommandWithStatus extends Command]. *)
Record CommandWithStatus := mkCommandWithStatus {
  cmd : Command;
  status : CommandStatus;
  error : option string;
  progress : option Q
}.

(** [interface Position]. *)
Record Position := mkPosition { x : Q; y : Q; z : Q }.

(** A thrown JavaScript value: whether it is an [instanceof Error], and its
    [message]. *)
Record Exn := mkExn { is_Error : bool; message : string }.

(** The robot status of [robotStore.ts] and of [onStatusChange]. *)
Inductive RobotStatus := Idle | Busy | Err.

(** ** [CommandExecutor]  ([src/services/commandExecutor.ts]) *)

Module CommandExecutor.

(** [interface ExecutorConfig], with every field present
    ([Required<ExecutorConfig>]).  [animationSteps] is a count. *)
Record ExecutorConfig := mkConfig {
  animationDuration : Q;
  animationSteps : nat
}.

Definition DEFAULT_CONFIG : ExecutorConfig :=
  {| animationDuration := 1000; animationSteps := 20 |}.

(** An [AbortController]: only its [signal.aborted] flag matters.  The
    executor holds the only reference to it. *)
Record AbortController := mkAbortController { aborted : bool }.

(** The private fields of the class. *)
Record Executor := mkExecutor {
  config : ExecutorConfig;
  isExecuting : bool;
  abortController : option AbortController
}.

(** [new CommandExecutor(config)]. *)
Definition new_executor (cfg : ExecutorConfig) : Executor :=
  {| config := cfg; isExecuting := false; abortController := None |}.

(** [setConfig]: both fields given. *)
Definition setConfig (cfg : ExecutorConfig) (e : Executor) : Executor :=
  {| config := cfg; isExecuting := isExecuting e;
     abortController := abortController e |}.

Definition getIsExecuting (e : Executor) : bool := isExecuting e.

(** [abort()]: the controller, when there is one, is aborted and then
    dropped ([this.abortController = null]), so that no reference to the
    aborted controller remains; the busy flag is cleared in every case. *)
Definition abort (e : Executor) : Executor :=
  let e1 :=
    match abortController e with
    | Some ac =>
        let ac' := {| aborted := true |} in
        let e' := {| config := config e; isExecuting := isExecuting e;
                     abortController := Some ac' |} in
        {| config := config e'; isExecuting := isExecuting e';
           abortController := None |}
    | None => e
    end in
  {| config := config e1; isExecuting := false;
     abortController := abortController e1 |}.

(** [command.params.distance || 1]: the default is taken when the
    parameter is absent, and also when it is [0] (falsy). *)
Definition distance_or_default (c : Command) : Q :=
  match params c !! "distance"%string with
  | Some d => if Qeq_bool d 0 then 1%Q else d
  | None => 1%Q
  end.

(** [calculateTargetPosition(command, currentPos)]. *)
Definition calculateTargetPosition (c : Command) (currentPos : Position)
  : Position :=
  let distance := distance_or_default c in
  if String.eqb (command c) "forward" then
    {| x := x currentPos; y := y currentPos; z := (z currentPos - distance)%Q |}
  else if String.eqb (command c) "backward" then
    {| x := x currentPos; y := y currentPos; z := (z currentPos + distance)%Q |}
  else if String.eqb (command c) "left" then
    {| x := (x currentPos - distance)%Q; y := y currentPos; z := z currentPos |}
  else if String.eqb (command c) "right" then
    {| x := (x currentPos + distance)%Q; y := y currentPos; z := z currentPos |}
  else if String.eqb (command c) "up" then
    {| x := x currentPos; y := (y currentPos + distance)%Q; z := z currentPos |}
  else if String.eqb (command c) "down" then
    {| x := x currentPos; y := (y currentPos - distance)%Q; z := z currentPos |}
  else
    (* turn_left, turn_right, stop, and unknown commands *)
    {| x := x currentPos; y := y currentPos; z := z currentPos |}.

(** The three [===] of [executeCommand]. *)
Definition position_eqb (p q : Position) : bool :=
  Qeq_bool (x p) (x q) && Qeq_bool (y p) (y q) && Qeq_bool (z p) (z q).

(** The message of the error thrown on cancellation. *)
Definition abort_message : string := "执行被中止".

Definition abort_error : Exn := {| is_Error := true; message := abort_message |}.

(** [error instanceof Error && error.message === '执行被中止']. *)
Definition is_abort_error (e : Exn) : bool :=
  is_Error e && String.eqb (message e) abort_message.

(** Callback invocations, as recorded in the ghost trace. *)
Inductive Event :=
| EvPositionUpdate (p : Position)
| EvStatusChange (s : RobotStatus)
| EvActionChange (a : option string)
| EvCommandStart (c : Command) (i : nat)
| EvCommandComplete (c : Command) (i : nat)
| EvCommandError (c : Command) (i : nat) (e : Exn).

Section WithHost.

(** The state the callbacks act on (the stores of the application).  A
    callback returns the new host state and the value it threw, if any.
    Callbacks do not re-enter the executor. *)
Context {H : Type}.

Definition Callback : Type := H -> H * option Exn.

(** [interface ExecutorCallbacks]. *)
Record ExecutorCallbacks := mkCallbacks {
  onPositionUpdate : Position -> Callback;
  getPosition : H -> Exn + Position;
  onStatusChange : option (RobotStatus -> Callback);
  onActionChange : option (option string -> Callback)
}.

(** The three optional parameters of [executeQueue]. *)
Record QueueHooks := mkHooks {
  onCommandStart : option (Command -> nat -> Callback);
  onCommandComplete : option (Command -> nat -> Callback);
  onCommandError : option (Command -> nat -> Exn -> Callback)
}.

(** Executor fields, host state and ghost trace. *)
Record St := mkSt {
  exec : Executor;
  host : H;
  trace : list Event
}.

Definition with_exec (e : Executor) (s : St) : St :=
  {| exec := e; host := host s; trace := trace s |}.

(** [f(...)]: the call is recorded, then made. *)
Definition invoke (ev : Event) (f : Callback) (s : St) : St * option Exn :=
  let '(h', thrown) := f (host s) in
  ({| exec := exec s; host := h'; trace := trace s ++ [ev] |}, thrown).

(** [f?.(...)]. *)
Definition invoke_opt (ev : Event) (f : option Callback) (s : St)
  : St * option Exn :=
  match f with
  | Some g => invoke ev g s
  | None => (s, None)
  end.

(** The locals of [executeCommand] that live across the [await]s of the
    animation loop.  [animationDuration] and [animationSteps] are read from
    the configuration once, before the loop.  With a step count of [0] the
    quotients are not used: the loop body is never entered. *)
Record Frame := mkFrame {
  currentPos : Position;
  targetPos : Position;
  steps : nat;
  stepDuration : Q;
  deltaX : Q;
  deltaY : Q;
  deltaZ : Q
}.

Definition new_frame (cfg : ExecutorConfig) (cur tgt : Position) : Frame :=
  let n := inject_Z (Z.of_nat (animationSteps cfg)) in
  {| currentPos := cur; targetPos := tgt;
     steps := animationSteps cfg;
     stepDuration := (animationDuration cfg / n)%Q;
     deltaX := ((x tgt - x cur) / n)%Q;
     deltaY := ((y tgt - y cur) / n)%Q;
     deltaZ := ((z tgt - z cur) / n)%Q |}.

(** The position passed to [onPositionUpdate] in iteration [i]. *)
Definition interpolated (fr : Frame) (i : nat) : Position :=
  let k := inject_Z (Z.of_nat i) in
  {| x := (x (currentPos fr) + deltaX fr * k)%Q;
     y := (y (currentPos fr) + deltaY fr * k)%Q;
     z := (z (currentPos fr) + deltaZ fr * k)%Q |}.

(** Where [executeCommand] is suspended. *)
Inductive Phase :=
| SleepUnchanged                      (* await this.delay(300) *)
| SleepStep (fr : Frame) (i : nat).   (* await this.delay(stepDuration), iteration i *)

Definition sleep_ms (ph : Phase) : Q :=
  match ph with
  | SleepUnchanged => 300
  | SleepStep fr _ => stepDuration fr
  end.

(** How a stretch of [executeCommand] ends. *)
Inductive CmdResult :=
| Returned
| Threw (e : Exn)
| Awaiting (ph : Phase).

(** [this.abortController?.signal.aborted], as a condition. *)
Definition signal_aborted (e : Executor) : bool :=
  match abortController e with
  | Some ac => aborted ac
  | None => false
  end.

(** The animation loop from the test [i <= animationSteps] of iteration
    [i], up to its [await], or past the loop to the final update. *)
Definition loop_head (cbs : ExecutorCallbacks) (fr : Frame) (i : nat) (s : St)
  : St * CmdResult :=
  if (i <=? steps fr)%nat then
    if signal_aborted (exec s) then (s, Threw abort_error)
    else (s, Awaiting (SleepStep fr i))
  else
    let '(s', thrown) :=
      invoke (EvPositionUpdate (targetPos fr))
             (onPositionUpdate cbs (targetPos fr)) s in
    match thrown with
    | Some e => (s', Threw e)
    | None => (s', Returned)
    end.

(** [executeCommand] from its call to its first [await]. *)
Definition executeCommand_start (c : Command) (cbs : ExecutorCallbacks)
  (s : St) : St * CmdResult :=
  match getPosition cbs (host s) with
  | inl e => (s, Threw e)
  | inr cur =>
      let tgt := calculateTargetPosition c cur in
      if position_eqb cur tgt then (s, Awaiting SleepUnchanged)
      else loop_head cbs (new_frame (config (exec s)) cur tgt) 1 s
  end.

(** [executeCommand] from the end of a delay to the next [await]. *)
Definition executeCommand_resume (ph : Phase) (cbs : ExecutorCallbacks)
  (s : St) : St * CmdResult :=
  match ph with
  | SleepUnchanged => (s, Returned)
  | SleepStep fr i =>
      let p := interpolated fr i in
      let '(s', thrown) :=
        invoke (EvPositionUpdate p) (onPositionUpdate cbs p) s in
      match thrown with
      | Some e => (s', Threw e)
      | None => loop_head cbs fr (S i) s'
      end
  end.

(** A suspended call of [executeQueue]: the command being executed, its
    index [i], the commands after it, the callbacks, and where
    [executeCommand] waits. *)
Record Task := mkTask {
  t_current : Command;
  t_index : nat;
  t_later : list Command;
  t_callbacks : ExecutorCallbacks;
  t_hooks : QueueHooks;
  t_phase : Phase
}.

(** The [finally] block. *)
Definition finally_block (s : St) : St :=
  with_exec {| config := config (exec s); isExecuting := false;
               abortController := None |} s.

(** The outer [catch] block, then [finally].  If the callback throws, the
    promise is rejected with that value. *)
Definition outer_catch (cbs : ExecutorCallbacks) (s : St) : St :=
  let '(s', _) :=
    invoke_opt (EvStatusChange Err)
               ((fun f => f Err) <$> onStatusChange cbs) s in
  finally_block s'.

(** After the [for] loop, whether it ran out or was left by [break]. *)
Definition after_loop (cbs : ExecutorCallbacks) (s : St) : St :=
  let '(s1, t1) :=
    invoke_opt (EvStatusChange Idle)
               ((fun f => f Idle) <$> onStatusChange cbs) s in
  match t1 with
  | Some _ => outer_catch cbs s1
  | None =>
      let '(s2, t2) :=
        invoke_opt (EvActionChange None)
                   ((fun f => f None) <$> onActionChange cbs) s1 in
      match t2 with
      | Some _ => outer_catch cbs s2
      | None => finally_block s2
      end
  end.

(** The inner [catch] block for command [c] at index [i]; [k] is the rest
    of the loop (the iterations from [i + 1] on). *)
Definition inner_catch (cbs : ExecutorCallbacks) (hooks : QueueHooks)
  (c : Command) (i : nat) (k : St -> St * option Task) (e : Exn) (s : St)
  : St * option Task :=
  if is_abort_error e then (after_loop cbs s, None)
  else
    let '(s1, t1) :=
      invoke_opt (EvCommandError c i e)
                 ((fun f => f c i e) <$> onCommandError hooks) s in
    match t1 with
    | Some _ => (outer_catch cbs s1, None)
    | None => k s1
    end.

(** What follows the call [this.executeCommand(command, callbacks)] inside
    the inner [try]: the run is suspended while the command awaits a
    delay; once the command has returned, [onCommandComplete] is called
    (still inside the inner [try]); once it has thrown, the inner [catch]
    runs. *)
Definition settle_command (cbs : ExecutorCallbacks) (hooks : QueueHooks)
  (c : Command) (i : nat) (later : list Command)
  (k : St -> St * option Task) (r : CmdResult) (s : St) : St * option Task :=
  match r with
  | Awaiting ph =>
      (s, Some {| t_current := c; t_index := i; t_later := later;
                  t_callbacks := cbs; t_hooks := hooks; t_phase := ph |})
  | Returned =>
      let '(s1, t1) :=
        invoke_opt (EvCommandComplete c i)
                   ((fun f => f c i) <$> onCommandComplete hooks) s in
      match t1 with
      | Some e => inner_catch cbs hooks c i k e s1
      | None => k s1
      end
  | Threw e => inner_catch cbs hooks c i k e s
  end.

(** The [for] loop of [executeQueue] from the head of iteration [i], where
    [rest] holds [commands[i]], [commands[i+1]], ...; it runs until the
    run is suspended ([Some task]) or over ([None]). *)
Fixpoint queue_loop (cbs : ExecutorCallbacks) (hooks : QueueHooks)
  (rest : list Command) (i : nat) (s : St) : St * option Task :=
  match rest with
  | [] => (after_loop cbs s, None)
  | c :: later =>
      match abortController (exec s) with
      | None => (outer_catch cbs s, None)    (* TypeError on [.signal] *)
      | Some ac =>
          if aborted ac then (after_loop cbs s, None)    (* break *)
          else
            let '(s1, t1) :=
              invoke_opt (EvCommandStart c i)
                         ((fun f => f c i) <$> onCommandStart hooks) s in
            match t1 with
            | Some _ => (outer_catch cbs s1, None)
            | None =>
                let '(s2, t2) :=
                  invoke_opt (EvActionChange (Some (description c)))
                             ((fun f => f (Some (description c)))
                                <$> onActionChange cbs) s1 in
                match t2 with
                | Some _ => (outer_catch cbs s2, None)
                | None =>
                    let '(s3, r) := executeCommand_start c cbs s2 in
                    settle_command cbs hooks c i later
                      (queue_loop cbs hooks later (S i)) r s3
                end
            end
      end
  end.

(** [executeQueue(commands, callbacks, onCommandStart, onCommandComplete,
    onCommandError)] up to its first [await].  A throw of the first
    [onStatusChange] happens before the [try]: the promise is rejected and
    [finally] does not run. *)
Definition executeQueue (commands : list Command) (cbs : ExecutorCallbacks)
  (hooks : QueueHooks) (s : St) : St * option Task :=
  if isExecuting (exec s) then (s, None)
  else if (length commands =? 0)%nat then (s, None)
  else
    let s0 :=
      with_exec {| config := config (exec s); isExecuting := true;
                   abortController := Some {| aborted := false |} |} s in
    let '(s1, t1) :=
      invoke_opt (EvStatusChange Busy)
                 ((fun f => f Busy) <$> onStatusChange cbs) s0 in
    match t1 with
    | Some _ => (s1, None)
    | None => queue_loop cbs hooks commands 0 s1
    end.

(** A suspended run continues when the delay it awaits has elapsed. *)
Definition resume (t : Task) (s : St) : St * option Task :=
  let '(s1, r) := executeCommand_resume (t_phase t) (t_callbacks t) s in
  settle_command (t_callbacks t) (t_hooks t) (t_current t) (t_index t)
    (t_later t)
    (queue_loop (t_callbacks t) (t_hooks t) (t_later t) (S (t_index t)))
    r s1.

(** The executor together with the runs of [executeQueue] in flight. *)
Record Machine := mkMachine {
  st : St;
  tasks : list Task
}.

(** What can happen to the executor: its public methods are called, or the
    timer awaited by the [k]-th run in flight fires. *)
Inductive Action :=
| CallExecuteQueue (commands : list Command) (cbs : ExecutorCallbacks)
                   (hooks : QueueHooks)
| CallAbort
| CallSetConfig (cfg : ExecutorConfig)
| TimerFires (k : nat).

Definition step (a : Action) (m : Machine) : Machine :=
  match a with
  | CallExecuteQueue commands cbs hooks =>
      let '(s', t) := executeQueue commands cbs hooks (st m) in
      {| st := s';
         tasks := match t with
                  | Some t' => tasks m ++ [t']
                  | None => tasks m
                  end |}
  | CallAbort =>
      {| st := with_exec (abort (exec (st m))) (st m); tasks := tasks m |}
  | CallSetConfig cfg =>
      {| st := with_exec (setConfig cfg (exec (st m))) (st m);
         tasks := tasks m |}
  | TimerFires k =>
      match tasks m !! k with
      | None => m
      | Some t =>
          let '(s', t') := resume t (st m) in
          {| st := s';
             tasks := match t' with
                      | Some t'' => <[k := t'']> (tasks m)
                      | None => delete k (tasks m)
                      end |}
      end
  end.

Definition run (acts : list Action) (m : Machine) : Machine :=
  foldl (fun m a => step a m) m acts.

(** A fresh executor over host state [h], nothing in flight. *)
Definition initial (cfg : ExecutorConfig) (h : H) : Machine :=
  {| st := {| exec := new_executor cfg; host := h; trace := [] |};
     tasks := [] |}.

(** One whole call of [executeCommand] with nothing else happening in
    between: after its start, [n] delays elapse. *)
Fixpoint elapse (n : nat) (cbs : ExecutorCallbacks) (sr : St * CmdResult)
  : St * CmdResult :=
  match n with
  | O => sr
  | S n' =>
      match sr with
      | (s, Awaiting ph) => elapse n' cbs (executeCommand_resume ph cbs s)
      | _ => sr
      end
  end.

(** The outcome [res] of a stretch of [executeQueue] started in state [s]:
    if the run is still in flight, the executor's fields are as they were
    and the task carries the callbacks of the call. *)
Definition suspended_ok (cbs : ExecutorCallbacks) (hooks : QueueHooks)
  (s : St) (res : St * option Task) : Prop :=
  forall s' t, res = (s', Some t) ->
    exec s' = exec s /\ t_callbacks t = cbs /\ t_hooks t = hooks.

(** Every callback of [cbs] (of [hooks]) satisfies [ok]. *)
Definition callbacks_satisfy (ok : Callback -> Prop) (cbs : ExecutorCallbacks)
  : Prop :=
  (forall p, ok (onPositionUpdate cbs p)) /\
  (forall f r, onStatusChange cbs = Some f -> ok (f r)) /\
  (forall f a, onActionChange cbs = Some f -> ok (f a)).

Definition hooks_satisfy (ok : Callback -> Prop) (hooks : QueueHooks) : Prop :=
  (forall f c i, onCommandStart hooks = Some f -> ok (f c i)) /\
  (forall f c i, onCommandComplete hooks = Some f -> ok (f c i)) /\
  (forall f c i e, onCommandError hooks = Some f -> ok (f c i e)).

Definition task_satisfies (ok : Callback -> Prop) (t : Task) : Prop :=
  callbacks_satisfy ok (t_callbacks t) /\ hooks_satisfy ok (t_hooks t).

Definition action_satisfies (ok : Callback -> Prop) (a : Action) : Prop :=
  match a with
  | CallExecuteQueue _ cbs hooks =>
      callbacks_satisfy ok cbs /\ hooks_satisfy ok hooks
  | _ => True
  end.

(** The action is not a call of [abort()]. *)
Definition not_abort (a : Action) : bool :=
  match a with
  | CallAbort => false
  | _ => true
  end.

(** If the abort signal was not set before, it is not set after. *)
Definition unset (a b : St) : Prop :=
  signal_aborted (exec a) = false -> signal_aborted (exec b) = false.

(** At most one run is in flight, and the busy flag is set while it is. *)
Definition single_run (m : Machine) : Prop :=
  match tasks m with
  | [] => True
  | [_] => isExecuting (exec (st m)) = true
  | _ => False
  end.

End WithHost.

Arguments Callback : clear implicits.
Arguments ExecutorCallbacks : clear implicits.
Arguments QueueHooks : clear implicits.
Arguments St : clear implicits.
Arguments Task : clear implicits.
Arguments Machine : clear implicits.
Arguments Action : clear implicits.
Arguments CallAbort {H}.
Arguments CallSetConfig {H} cfg.
Arguments TimerFires {H} k.

End CommandExecutor.

(** ** The robot store  ([src/store/robotStore.ts]) *)

Module RobotStore.

Record State := mkState {
  isConnected : bool;
  robotStatus : RobotStatus;
  currentAction : option string;
  battery : Q;
  position : Position
}.

Definition initial : State :=
  {| isConnected := false; robotStatus := Idle; currentAction := None;
     battery := 100; position := {| x := 0; y := 0; z := 0 |} |}.

Definition setConnected (b : bool) (s : State) : State :=
  {| isConnected := b; robotStatus := robotStatus s;
     currentAction := currentAction s; battery := battery s;
     position := position s |}.

Definition setRobotStatus (r : RobotStatus) (s : State) : State :=
  {| isConnected := isConnected s; robotStatus := r;
     currentAction := currentAction s; battery := battery s;
     position := position s |}.

Definition setCurrentAction (a : option string) (s : State) : State :=
  {| isConnected := isConnected s; robotStatus := robotStatus s;
     currentAction := a; battery := battery s; position := position s |}.

Definition setBattery (level : Q) (s : State) : State :=
  {| isConnected := isConnected s; robotStatus := robotStatus s;
     currentAction := currentAction s; battery := level;
     position := position s |}.

Definition setPosition (p : Position) (s : State) : State :=
  {| isConnected := isConnected s; robotStatus := robotStatus s;
     currentAction := currentAction s; battery := battery s;
     position := p |}.

End RobotStore.

(** ** [APP_CONFIG]  ([src/constants/config.ts]) *)

Module APP_CONFIG.

Definition HTTP_TIMEOUT : Z := 30000.
Definition WS_RECONNECT_DELAY : list Z := [1000; 2000; 5000]%Z.
Definition AUDIO_MAX_DURATION : Z := 60.
Definition AUDIO_SAMPLE_RATE : Z := 16000.
Definition MAX_HISTORY_SIZE : nat := 100.

End APP_CONFIG.

(** ** The command store  ([src/store/commandStore.ts]) *)

Module CommandStore.

Record State := mkState {
  commands : list CommandWithStatus;
  currentCommandIndex : Z;
  history : list Command;
  isProcessing : bool;
  error : option string
}.

Definition initial : State :=
  {| commands := []; currentCommandIndex := 0; history := [];
     isProcessing := false; error := None |}.

(** [{ ...command, status: 'pending' }]. *)
Definition with_pending (c : Command) : CommandWithStatus :=
  mkCommandWithStatus c pending None None.

(** [array.slice(-n)]: the last [n] elements, the whole array when it has
    fewer. *)
Definition slice_last {A} (n : nat) (l : list A) : list A :=
  drop (length l - n) l.

(** [addCommand(command)]: the update passed to [set].  The literal [100]
    is the one of the source. *)
Definition addCommand (c : Command) (s : State) : State :=
  let commandWithStatus := with_pending c in
  {| commands := commands s ++ [commandWithStatus];
     currentCommandIndex := currentCommandIndex s;
     history := slice_last 100 (history s ++ [c]);
     isProcessing := isProcessing s; error := error s |}.

(** [addCommands(commands)]. *)
Definition addCommands (cs : list Command) (s : State) : State :=
  let commandsWithStatus := map with_pending cs in
  {| commands := commands s ++ commandsWithStatus;
     currentCommandIndex := currentCommandIndex s;
     history := slice_last 100 (history s ++ cs);
     isProcessing := isProcessing s; error := error s |}.

(** [updateCommandStatus(id, status, error?)]: [{ ...cmd, status, error }]
    on every record with that id. *)
Definition updateCommandStatus (id : string) (stat : CommandStatus)
  (err : option string) (s : State) : State :=
  {| commands :=
       map (fun c =>
              if String.eqb (command_id (cmd c)) id then
                mkCommandWithStatus (cmd c) stat err (progress c)
              else c) (commands s);
     currentCommandIndex := currentCommandIndex s;
     history := history s;
     isProcessing := isProcessing s; error := error s |}.

(** The [set] of [clearCommands] (the call of [abort] comes first, see
    [App.step]). *)
Definition resetCommands (s : State) : State :=
  {| commands := []; currentCommandIndex := 0; history := history s;
     isProcessing := isProcessing s; error := None |}.

(** [moveToNext()]. *)
Definition moveToNext (s : State) : State :=
  {| commands := commands s;
     currentCommandIndex :=
       Z.min (currentCommandIndex s + 1) (Z.of_nat (length (commands s)) - 1);
     history := history s;
     isProcessing := isProcessing s; error := error s |}.

Definition setError (e : option string) (s : State) : State :=
  {| commands := commands s; currentCommandIndex := currentCommandIndex s;
     history := history s; isProcessing := isProcessing s; error := e |}.

Definition setProcessing (b : bool) (s : State) : State :=
  {| commands := commands s; currentCommandIndex := currentCommandIndex s;
     history := history s; isProcessing := b; error := error s |}.

Definition setCurrentCommandIndex (i : Z) (s : State) : State :=
  {| commands := commands s; currentCommandIndex := i;
     history := history s; isProcessing := isProcessing s;
     error := error s |}.

Definition is_pending (c : CommandWithStatus) : bool :=
  match status c with
  | pending => true
  | _ => false
  end.

(** [getPendingCommands()]. *)
Definition getPendingCommands (s : State) : list CommandWithStatus :=
  List.filter is_pending (commands s).

(** [array.findIndex(p)]: [-1] when no element satisfies [p]. *)
Fixpoint findIndex_from {A} (p : A -> bool) (l : list A) (i : Z) : Z :=
  match l with
  | [] => (-1)%Z
  | a :: l' => if p a then i else findIndex_from p l' (i + 1)%Z
  end.

Definition findIndex {A} (p : A -> bool) (l : list A) : Z :=
  findIndex_from p l 0%Z.

End CommandStore.

(** ** The application: both stores, the executor singleton, and the
       runs in flight *)

Module App.

Import CommandExecutor.

(** The two zustand stores. *)
Record Stores := mkStores {
  commandStore : CommandStore.State;
  robotStore : RobotStore.State
}.

Definition on_commands (f : CommandStore.State -> CommandStore.State)
  : Callback Stores :=
  fun h => ({| commandStore := f (commandStore h);
               robotStore := robotStore h |}, None).

Definition on_robot (f : RobotStore.State -> RobotStore.State)
  : Callback Stores :=
  fun h => ({| commandStore := commandStore h;
               robotStore := f (robotStore h) |}, None).

(** The second argument of [executeQueue] in [executeCommands].
    [robotStore] is the object returned by [useRobotStore.getState()] when
    [executeCommands] was called: zustand replaces the state object on
    every [set], so [robotStore.position] stays the position of that
    moment. *)
Definition store_callbacks (robot : RobotStore.State)
  : ExecutorCallbacks Stores :=
  {| onPositionUpdate := fun p => on_robot (RobotStore.setPosition p);
     getPosition := fun _ => inr (RobotStore.position robot);
     onStatusChange := Some (fun r => on_robot (RobotStore.setRobotStatus r));
     onActionChange :=
       Some (fun a => on_robot (RobotStore.setCurrentAction a)) |}.

(** The last three arguments of [executeQueue] in [executeCommands].
    [state] is the object returned by [get()] when [executeCommands] was
    called. *)
Definition store_hooks (state : CommandStore.State) : QueueHooks Stores :=
  {| onCommandStart :=
       Some (fun c _ =>
         let cmdIndex :=
           CommandStore.findIndex
             (fun r => String.eqb (command_id (cmd r)) (command_id c))
             (CommandStore.commands state) in
         on_commands (fun s =>
           CommandStore.updateCommandStatus (command_id c) executing None
             (CommandStore.setCurrentCommandIndex cmdIndex s)));
     onCommandComplete :=
       Some (fun c _ =>
         on_commands
           (CommandStore.updateCommandStatus (command_id c) completed None));
     onCommandError :=
       Some (fun c _ e =>
         on_commands (fun s =>
           CommandStore.setError (Some (message e))
             (CommandStore.updateCommandStatus (command_id c) failed
                (Some (message e)) s))) |}.

(** The application state: the executor with its runs, and the number of
    [setTimeout(() => get().executeCommands(), 100)] timers not yet
    fired. *)
Record State := mkState {
  machine : Machine Stores;
  autostart : nat
}.

Definition on_stores (f : Stores -> Stores) (m : Machine Stores)
  : Machine Stores :=
  {| st := {| exec := exec (st m); host := f (host (st m));
              trace := trace (st m) |};
     tasks := tasks m |}.

Definition set_commands (f : CommandStore.State -> CommandStore.State)
  : Machine Stores -> Machine Stores :=
  on_stores (fun h => {| commandStore := f (commandStore h);
                         robotStore := robotStore h |}).

Definition set_robot (f : RobotStore.State -> RobotStore.State)
  : Machine Stores -> Machine Stores :=
  on_stores (fun h => {| commandStore := commandStore h;
                         robotStore := f (robotStore h) |}).

(** [executeCommands()] up to the first [await] of the run it starts. *)
Definition executeCommands (m : Machine Stores) : Machine Stores :=
  let state := commandStore (host (st m)) in
  if getIsExecuting (exec (st m)) then m
  else
    let pendingCommands := CommandStore.getPendingCommands state in
    if (length pendingCommands =? 0)%nat then m
    else
      let robot := robotStore (host (st m)) in
      step (CallExecuteQueue (map cmd pendingCommands)
                             (store_callbacks robot) (store_hooks state)) m.

(** [stopExecution()]. *)
Definition stopExecution (m : Machine Stores) : Machine Stores :=
  set_robot (fun r => RobotStore.setCurrentAction None
                        (RobotStore.setRobotStatus Idle r))
            (step CallAbort m).

(** [clearCommands()]. *)
Definition clearCommands (m : Machine Stores) : Machine Stores :=
  set_commands CommandStore.resetCommands (step CallAbort m).

(** The store's operations, and the two kinds of timers. *)
Inductive Action :=
| AddCommand (c : Command)
| AddCommands (cs : list Command)
| UpdateCommandStatus (id : string) (stat : CommandStatus)
                      (err : option string)
| ClearCommands
| MoveToNext
| SetError (e : option string)
| SetProcessing (b : bool)
| ExecuteCommands
| StopExecution
| AutostartFires
| DelayElapsed (k : nat).

Definition step (a : Action) (s : State) : State :=
  match a with
  | AddCommand c =>
      {| machine := set_commands (CommandStore.addCommand c) (machine s);
         autostart := S (autostart s) |}
  | AddCommands cs =>
      {| machine := set_commands (CommandStore.addCommands cs) (machine s);
         autostart := S (autostart s) |}
  | UpdateCommandStatus id stat err =>
      {| machine :=
           set_commands (CommandStore.updateCommandStatus id stat err)
                        (machine s);
         autostart := autostart s |}
  | ClearCommands =>
      {| machine := clearCommands (machine s); autostart := autostart s |}
  | MoveToNext =>
      {| machine := set_commands CommandStore.moveToNext (machine s);
         autostart := autostart s |}
  | SetError e =>
      {| machine := set_commands (CommandStore.setError e) (machine s);
         autostart := autostart s |}
  | SetProcessing b =>
      {| machine := set_commands (CommandStore.setProcessing b) (machine s);
         autostart := autostart s |}
  | ExecuteCommands =>
      {| machine := executeCommands (machine s); autostart := autostart s |}
  | StopExecution =>
      {| machine := stopExecution (machine s); autostart := autostart s |}
  | AutostartFires =>
      match autostart s with
      | O => s
      | S n => {| machine := executeCommands (machine s); autostart := n |}
      end
  | DelayElapsed k =>
      {| machine := CommandExecutor.step (TimerFires k) (machine s);
         autostart := autostart s |}
  end.

Definition run (acts : list Action) (s : State) : State :=
  foldl (fun s a => step a s) s acts.

(** The application at start-up: the exported singleton
    [new CommandExecutor()] and both stores in their initial state. *)
Definition initial : State :=
  {| machine :=
       CommandExecutor.initial DEFAULT_CONFIG
         {| commandStore := CommandStore.initial;
            robotStore := RobotStore.initial |};
     autostart := 0 |}.

(** The commands a store operation enqueues. *)
Definition enqueued (a : Action) : list Command :=
  match a with
  | AddCommand c => [c]
  | AddCommands cs => cs
  | _ => []
  end.

(** An enqueue operation: [addCommand(c)] or [addCommands(cs)]. *)
Inductive Enqueue :=
| One (c : Command)
| Many (cs : list Command).

Definition enqueue_action (e : Enqueue) : Action :=
  match e with
  | One c => AddCommand c
  | Many cs => AddCommands cs
  end.

Definition commands_of (e : Enqueue) : list Command :=
  match e with
  | One c => [c]
  | Many cs => cs
  end.

(** The command store of an application state. *)
Definition store_of (s : State) : CommandStore.State :=
  commandStore (host (st (machine s))).

(** A callback that leaves the history of the command store alone. *)
Definition keeps_history (f : Callback Stores) : Prop :=
  forall h,
    CommandStore.history (commandStore (fst (f h)))
    = CommandStore.history (commandStore h).

(** Two executor states with the same history in the command store. *)
Definition same_history (a b : St Stores) : Prop :=
  CommandStore.history (commandStore (host b))
  = CommandStore.history (commandStore (host a)).

(** Commands used in examples. *)
Definition forward3 : Command :=
  mkCommand "forward" {[ "distance"%string := 3%Q ]} "forward 3" "cmd-1"
            "2025-01-01T00:00:00.000Z" None.

Definition right2 : Command :=
  mkCommand "right" {[ "distance"%string := 2%Q ]} "right 2" "cmd-2"
            "2025-01-01T00:00:01.000Z" None.

Definition forward0 : Command :=
  mkCommand "forward" {[ "distance"%string := 0%Q ]} "forward 0" "cmd-0"
            "2025-01-01T00:00:00.000Z" None.

Definition up1 : Command :=
  mkCommand "up" ∅ "up" "cmd-3" "2025-01-01T00:00:02.000Z" None.

(** A run of two commands is started; one delay later the user stops it
    ([stopExecution()] calls [abort()]). *)
Definition stopped_mid_run : list Action :=
  [AddCommands [forward3; right2]; AutostartFires; DelayElapsed 0;
   StopExecution].

(** ... and then enqueues a third command, whose timer starts a run. *)
Definition stopped_then_enqueued : list Action :=
  stopped_mid_run ++ [AddCommand up1; AutostartFires].

(** Callbacks like those of the store, except that every position update
    fails with an error that is not the cancellation error. *)
Definition render_error : Exn :=
  {| is_Error := true; message := "position update failed" |}.

Definition failing_callbacks (robot : RobotStore.State)
  : ExecutorCallbacks Stores :=
  {| onPositionUpdate := fun _ h => (h, Some render_error);
     getPosition := getPosition (store_callbacks robot);
     onStatusChange := onStatusChange (store_callbacks robot);
     onActionChange := onActionChange (store_callbacks robot) |}.

(** [forward3] and [right2] are enqueued and run with these callbacks;
    one delay elapses. *)
Definition failing_run : Machine Stores :=
  let m := machine (run [AddCommands [forward3; right2]] initial) in
  CommandExecutor.run
    [CallExecuteQueue [forward3; right2]
       (failing_callbacks (robotStore (host (st m))))
       (store_hooks (commandStore (host (st m))));
     TimerFires 0] m.

Definition is_start (e : Event) : bool :=
  match e with
  | EvCommandStart _ _ => true
  | _ => false
  end.

Definition is_position_update (e : Event) : bool :=
  match e with
  | EvPositionUpdate _ => true
  | _ => false
  end.

End App.

(** ** [WebSocketService]  ([src/services/websocket.ts]) *)

Module WebSocketService.

(** [WebSocket.readyState]. *)
Inductive ReadyState := CONNECTING | OPEN | CLOSING | CLOSED.

(** The state of a promise returned by [connect]. *)
Inductive PromiseState := Pending | Resolved | Rejected.

(** A [WebSocket] object created by [connect]: its ready state, and the
    promise whose [resolve] its [onopen] handler has captured. *)
Record Socket := mkSocket {
  readyState : ReadyState;
  resolves : nat
}.

(** [private maxReconnectAttempts: number = 3], never assigned again. *)
Definition maxReconnectAttempts : nat := 3.

(** The other fields of the class; sockets and promises are referred to by
    their index in [sockets] and [promises].  [timers] holds the delays of
    the [setTimeout] calls of [reconnect] that have not fired yet, and
    [scheduled] (ghost) the delays of all of them, in the order of the
    calls.  The URL and the message listeners play no role here. *)
Record State := mkState {
  ws : option nat;
  reconnectAttempts : nat;
  heartbeatInterval : bool;
  isConnecting : bool;
  manualDisconnect : bool;
  sockets : list Socket;
  promises : list PromiseState;
  timers : list Z;
  scheduled : list Z
}.

(** [new WebSocketService(clientId)]. *)
Definition initial : State :=
  {| ws := None; reconnectAttempts := 0;
     heartbeatInterval := false; isConnecting := false;
     manualDisconnect := false; sockets := []; promises := [];
     timers := []; scheduled := [] |}.

(** Assignments to the fields. *)
Definition set_ws (v : option nat) (s : State) : State :=
  mkState v (reconnectAttempts s) (heartbeatInterval s) (isConnecting s)
          (manualDisconnect s) (sockets s) (promises s) (timers s)
          (scheduled s).

Definition set_reconnectAttempts (v : nat) (s : State) : State :=
  mkState (ws s) v (heartbeatInterval s) (isConnecting s)
          (manualDisconnect s) (sockets s) (promises s) (timers s)
          (scheduled s).

Definition set_heartbeatInterval (v : bool) (s : State) : State :=
  mkState (ws s) (reconnectAttempts s) v (isConnecting s)
          (manualDisconnect s) (sockets s) (promises s) (timers s)
          (scheduled s).

Definition set_isConnecting (v : bool) (s : State) : State :=
  mkState (ws s) (reconnectAttempts s) (heartbeatInterval s) v
          (manualDisconnect s) (sockets s) (promises s) (timers s)
          (scheduled s).

Definition set_manualDisconnect (v : bool) (s : State) : State :=
  mkState (ws s) (reconnectAttempts s) (heartbeatInterval s) (isConnecting s)
          v (sockets s) (promises s) (timers s) (scheduled s).

Definition set_sockets (v : list Socket) (s : State) : State :=
  mkState (ws s) (reconnectAttempts s) (heartbeatInterval s) (isConnecting s)
          (manualDisconnect s) v (promises s) (timers s) (scheduled s).

Definition set_promises (v : list PromiseState) (s : State) : State :=
  mkState (ws s) (reconnectAttempts s) (heartbeatInterval s) (isConnecting s)
          (manualDisconnect s) (sockets s) v (timers s) (scheduled s).

Definition set_timers (v : list Z) (s : State) : State :=
  mkState (ws s) (reconnectAttempts s) (heartbeatInterval s) (isConnecting s)
          (manualDisconnect s) (sockets s) (promises s) v (scheduled s).

(** [setTimeout(() => this.connect(), delay)]. *)
Definition setTimeout_connect (delay : Z) (s : State) : State :=
  mkState (ws s) (reconnectAttempts s) (heartbeatInterval s) (isConnecting s)
          (manualDisconnect s) (sockets s) (promises s)
          (timers s ++ [delay]) (scheduled s ++ [delay]).

Definition socket_open (l : list Socket) (k : nat) : bool :=
  match l !! k with
  | Some {| readyState := OPEN |} => true
  | _ => false
  end.

(** [isReady()], also the first test of [connect]:
    [this.ws && this.ws.readyState === WebSocket.OPEN]. *)
Definition isReady (s : State) : bool :=
  match ws s with
  | Some k => socket_open (sockets s) k
  | None => false
  end.

(** Settling a promise has no effect once it is settled. *)
Definition settle (p : nat) (v : PromiseState) (ps : list PromiseState)
  : list PromiseState :=
  match ps !! p with
  | Some Pending => <[p := v]> ps
  | _ => ps
  end.

(** [resolve()] and [reject(error)] of promise [p]. *)
Definition resolve (p : nat) (s : State) : State :=
  set_promises (settle p Resolved (promises s)) s.

Definition reject (p : nat) (s : State) : State :=
  set_promises (settle p Rejected (promises s)) s.

Definition set_readyState (k : nat) (r : ReadyState) (l : list Socket)
  : list Socket :=
  match l !! k with
  | Some sock => <[k := {| readyState := r; resolves := resolves sock |}]> l
  | None => l
  end.

(** [stopHeartbeat()], and [startHeartbeat()] (which stops the previous
    interval first). *)
Definition stopHeartbeat (s : State) : State :=
  if heartbeatInterval s then set_heartbeatInterval false s else s.

Definition startHeartbeat (s : State) : State :=
  set_heartbeatInterval true (stopHeartbeat s).

(** [APP_CONFIG.WS_RECONNECT_DELAY[n] || 5000]. *)
Definition reconnect_delay (n : nat) : Z :=
  match APP_CONFIG.WS_RECONNECT_DELAY !! n with
  | Some d => if (d =? 0)%Z then 5000%Z else d
  | None => 5000%Z
  end.

(** [reconnect()]. *)
Definition reconnect (s : State) : State :=
  if (maxReconnectAttempts <=? reconnectAttempts s)%nat then s
  else
    let delay := reconnect_delay (reconnectAttempts s) in
    let s := set_reconnectAttempts (S (reconnectAttempts s)) s in
    setTimeout_connect delay s.

(** [connect(url)]: the new state and the promise returned.
    [ctor_throws] tells whether [new WebSocket(wsUrl)] throws.  In the
    branch [if (this.isConnecting) return] the executor of the promise
    returns without calling [resolve] or [reject] and without passing
    them to anything. *)
Definition connect (ctor_throws : bool) (s : State) : State * nat :=
  let p := length (promises s) in
  let s := set_promises (promises s ++ [Pending]) s in
  let s := set_manualDisconnect false s in
  if isReady s then (resolve p s, p)
  else if isConnecting s then (s, p)
  else
    let s := set_isConnecting true s in
    if ctor_throws then (reject p (set_isConnecting false s), p)
    else
      let k := length (sockets s) in
      let sock := {| readyState := CONNECTING; resolves := p |} in
      (set_ws (Some k) (set_sockets (sockets s ++ [sock]) s), p).

(** The [onopen] handler of socket [k]. *)
Definition onopen (k : nat) (s : State) : State :=
  match sockets s !! k with
  | None => s
  | Some sock =>
      let s := set_sockets (set_readyState k OPEN (sockets s)) s in
      let s := set_isConnecting false s in
      let s := set_reconnectAttempts 0 s in
      let s := startHeartbeat s in
      resolve (resolves sock) s
  end.

(** The [onerror] handler of socket [k]. *)
Definition onerror (k : nat) (s : State) : State :=
  match sockets s !! k with
  | None => s
  | Some _ => set_isConnecting false s
  end.

(** The [onclose] handler of socket [k]. *)
Definition onclose (k : nat) (s : State) : State :=
  match sockets s !! k with
  | None => s
  | Some _ =>
      let s := set_sockets (set_readyState k CLOSED (sockets s)) s in
      let s := set_isConnecting false s in
      let s := stopHeartbeat s in
      if negb (manualDisconnect s) then reconnect s else s
  end.

(** [socket.close()]: an open or connecting socket starts closing. *)
Definition close_socket (k : nat) (l : list Socket) : list Socket :=
  match l !! k with
  | Some {| readyState := CONNECTING |} | Some {| readyState := OPEN |} =>
      set_readyState k CLOSING l
  | _ => l
  end.

(** [disconnect()]. *)
Definition disconnect (s : State) : State :=
  let s := set_manualDisconnect true s in
  let s :=
    match ws s with
    | Some k => set_ws None (set_sockets (close_socket k (sockets s)) s)
    | None => s
    end in
  stopHeartbeat s.

(** The callback of the [setTimeout] of [reconnect]: the [j]-th pending
    timer fires and calls [this.connect()]. *)
Definition timer_fires (j : nat) (ctor_throws : bool) (s : State) : State :=
  match timers s !! j with
  | None => s
  | Some _ => fst (connect ctor_throws (set_timers (delete j (timers s)) s))
  end.

(** Calls of the public methods, events of the sockets, and timers. *)
Inductive Event :=
| Connect (ctor_throws : bool)
| Disconnect
| SocketOpens (k : nat)
| SocketErrors (k : nat)
| SocketCloses (k : nat)
| ReconnectTimerFires (j : nat) (ctor_throws : bool).

Definition step (e : Event) (s : State) : State :=
  match e with
  | Connect t => fst (connect t s)
  | Disconnect => disconnect s
  | SocketOpens k => onopen k s
  | SocketErrors k => onerror k s
  | SocketCloses k => onclose k s
  | ReconnectTimerFires j t => timer_fires j t s
  end.

Definition run (evs : list Event) (s : State) : State :=
  foldl (fun s e => step e s) s evs.



(** Every socket resolves a promise that exists. *)
Definition well_formed (s : State) : Prop :=
  Forall (fun sock => (resolves sock < length (promises s))%nat) (sockets s).

(** Promise [p] is pending and no socket holds its [resolve]. *)
Definition orphaned (p : nat) (s : State) : Prop :=
  promises s !! p = Some Pending /\
  Forall (fun sock => resolves sock <> p) (sockets s).

End WebSocketService.

(** ** Streaming audio  ([sendAudioChunk] in [src/hooks/useVoiceCall.ts]) *)

Module VoiceCall.

(** What [FileSystem.readAsStringAsync(uri, { encoding: Base64 })]
    returns for a file holding the given bytes: RFC 4648 base64, with
    padding. *)
Definition alphabet : list ascii :=
  list_ascii_of_string
    "ABCDEFGHIJKLMNOPQRSTUVWXYZabcdefghijklmnopqrstuvwxyz0123456789+/".

Definition sextet (n : N) : ascii := nth (N.to_nat n) alphabet "="%char.

Definition group3 (a b c : byte) : N :=
  N.lor (N.shiftl (Byte.to_N a) 16)
        (N.lor (N.shiftl (Byte.to_N b) 8) (Byte.to_N c)).

Definition sextet_at (n : N) (shift : N) : ascii :=
  sextet (N.land (N.shiftr n shift) 63).

Fixpoint base64_encode (l : list byte) : list ascii :=
  match l with
  | [] => []
  | [a] =>
      let n := group3 a "000"%byte "000"%byte in
      [sextet_at n 18; sextet_at n 12; "="%char; "="%char]
  | [a; b] =>
      let n := group3 a b "000"%byte in
      [sextet_at n 18; sextet_at n 12; sextet_at n 6; "="%char]
  | a :: b :: c :: rest =>
      let n := group3 a b c in
      [sextet_at n 18; sextet_at n 12; sextet_at n 6; sextet_at n 0]
        ++ base64_encode rest
  end.

(** Decoding, as the receiver of a chunk does it. *)
Fixpoint index_in (c : ascii) (l : list ascii) (i : N) : option N :=
  match l with
  | [] => None
  | a :: l' => if Ascii.eqb a c then Some i else index_in c l' (i + 1)%N
  end.

Definition unsextet (c : ascii) : option N := index_in c alphabet 0.

Definition byte_at (n : N) (shift : N) : option byte :=
  Byte.of_N (N.land (N.shiftr n shift) 255).

Fixpoint base64_decode_groups (fuel : nat) (l : list ascii)
  : option (list byte) :=
  match fuel with
  | O => match l with [] => Some [] | _ => None end
  | S fuel' =>
      match l with
      | [] => Some []
      | [c1; c2; c3; c4] =>
          if Ascii.eqb c4 "=" then
            if Ascii.eqb c3 "=" then
              n1 ← unsextet c1; n2 ← unsextet c2;
              a ← byte_at (N.lor (N.shiftl n1 18) (N.shiftl n2 12)) 16;
              Some [a]
            else
              n1 ← unsextet c1; n2 ← unsextet c2; n3 ← unsextet c3;
              let n := N.lor (N.shiftl n1 18)
                         (N.lor (N.shiftl n2 12) (N.shiftl n3 6)) in
              a ← byte_at n 16; b ← byte_at n 8;
              Some [a; b]
          else
            n1 ← unsextet c1; n2 ← unsextet c2; n3 ← unsextet c3;
            n4 ← unsextet c4;
            let n := N.lor (N.shiftl n1 18)
                       (N.lor (N.shiftl n2 12) (N.lor (N.shiftl n3 6) n4)) in
            a ← byte_at n 16; b ← byte_at n 8; c ← byte_at n 0;
            Some [a; b; c]
      | c1 :: c2 :: c3 :: c4 :: rest =>
          n1 ← unsextet c1; n2 ← unsextet c2; n3 ← unsextet c3;
          n4 ← unsextet c4;
          let n := N.lor (N.shiftl n1 18)
                     (N.lor (N.shiftl n2 12) (N.lor (N.shiftl n3 6) n4)) in
          a ← byte_at n 16; b ← byte_at n 8; c ← byte_at n 0;
          tl ← base64_decode_groups fuel' rest;
          Some (a :: b :: c :: tl)
      | _ => None
      end
  end.

Definition base64_decode (l : list ascii) : option (list byte) :=
  base64_decode_groups (length l) l.

(** [Math.ceil(n / 3)] for a byte count [n]. *)
Definition ceil_div3 (n : nat) : nat := (n + 2) / 3.

(** The refs of the hook that [sendAudioChunk] reads and writes, and the
    calls of [wsService.sendCallAudio(chunk, isFirstChunk)] made so far. *)
Record Session := mkSession {
  isInCall : bool;
  lastAudioPosition : nat;
  isFirstChunk : bool;
  sent : list (list ascii * bool)
}.

(** The refs as [startCall] leaves them. *)
Definition started : Session :=
  {| isInCall := true; lastAudioPosition := 0; isFirstChunk := true;
     sent := [] |}.

(** The recording as one call of [sendAudioChunk] sees it:
    [fileInfo.exists], [fileInfo.size], and the bytes read afterwards by
    [readAsStringAsync]. *)
Record FileView := mkFileView {
  file_exists : bool;
  file_size : nat;
  file_data : list byte
}.

(** The recording holding [data], unchanged between the two reads. *)
Definition file_of (data : list byte) : FileView :=
  {| file_exists := true; file_size := length data; file_data := data |}.

(** [base64Start] and [newChunk]. *)
Definition base64Start (s : Session) : nat :=
  (ceil_div3 (lastAudioPosition s) * 4)%nat.

Definition newChunk (s : Session) (f : FileView) : list ascii :=
  drop (base64Start s) (base64_encode (file_data f)).

(** [sendAudioChunk()]; [uri] is [None] when [audioRecorder.uri] is
    null. *)
Definition sendAudioChunk (uri : option FileView) (s : Session) : Session :=
  match uri with
  | None => s
  | Some f =>
      if negb (isInCall s) then s
      else if negb (file_exists f) || (file_size f =? 0)%nat then s
      else
        let currentSize := file_size f in
        if (currentSize <=? lastAudioPosition s)%nat then s
        else
          let chunk := newChunk s f in
          if (0 <? length chunk)%nat then
            {| isInCall := isInCall s;
               lastAudioPosition := currentSize;
               isFirstChunk := false;
               sent := sent s ++ [(chunk, isFirstChunk s)] |}
          else s
  end.

(** The timer of the call ticks once per element of [views]. *)
Definition ticks (views : list (option FileView)) (s : Session) : Session :=
  foldl (fun s v => sendAudioChunk v s) s views.

(** A chunk covers the bytes [[a, b)] of [data] when it decodes to bytes
    that end with them. *)
Definition covers (chunk : list ascii) (data : list byte) (a b : nat) : Prop :=
  exists pre, base64_decode chunk = Some (pre ++ drop a (take b data)).

(** The first-chunk markers of [n] sends in a row, the first one being
    the first of the session. *)
Definition first_flags (n : nat) : list bool :=
  match n with
  | O => []
  | S m => true :: repeat false m
  end.

(** A recording of 22 bytes (the start of a WAV header and some samples),
    numbered so that byte [i] can be told from the others. *)
Definition recording22 : list byte :=
  list_byte_of_string "RIFF0123456789abcdefgh".

(** The session after two ticks: the recording has 10 bytes at the first
    tick and 22 at the second. *)
Definition two_ticks (data : list byte) : Session :=
  ticks [Some (file_of (take 10 data)); Some (file_of data)] started.

End VoiceCall.

(** ** A run of the executor that nothing interrupts *)

Module ExecutorRun.

Import CommandExecutor.

Section WithHost.

Context {H : Type}.

(** The callback returns normally, whatever the host state. *)
Definition never_throws (f : Callback H) : Prop :=
  forall h, snd (f h) = None.

(** [getPosition] returns a position, whatever the host state. *)
Definition getPosition_total (cbs : ExecutorCallbacks H) : Prop :=
  forall h, exists p, getPosition cbs h = inr p.

(** The timer awaited by the run fires, [n] times in a row. *)
Fixpoint drive (n : nat) (r : St H * option (Task H))
  : St H * option (Task H) :=
  match n with
  | O => r
  | S n' =>
      match r with
      | (s, Some t) => drive n' (resume t s)
      | (_, None) => r
      end
  end.

(** The machine that has the run [r] in flight and no other. *)
Definition machine_of (r : St H * option (Task H)) : Machine H :=
  {| st := fst r;
     tasks := match snd r with
              | Some t => [t]
              | None => []
              end |}.

(** The executor's fields as the [finally] block leaves them. *)
Definition cleared (e : Executor) : Executor :=
  {| config := config e; isExecuting := false; abortController := None |}.

(** What [executeQueue] amounts to when no callback throws and nothing
    else happens while it waits: the statements of the source in their
    order, the delays left out.  [animate] is [n] iterations of the
    animation loop from iteration [i] on. *)
Fixpoint animate (cbs : ExecutorCallbacks H) (fr : Frame) (i n : nat)
  (s : St H) : St H :=
  match n with
  | O => s
  | S n' =>
      let p := interpolated fr i in
      animate cbs fr (S i) n'
        (fst (invoke (EvPositionUpdate p) (onPositionUpdate cbs p) s))
  end.

Definition executeCommand_sync (c : Command) (cbs : ExecutorCallbacks H)
  (s : St H) : St H :=
  match getPosition cbs (host s) with
  | inl _ => s
  | inr cur =>
      let tgt := calculateTargetPosition c cur in
      if position_eqb cur tgt then s
      else
        let fr := new_frame (config (exec s)) cur tgt in
        let s' := animate cbs fr 1 (steps fr) s in
        fst (invoke (EvPositionUpdate tgt) (onPositionUpdate cbs tgt) s')
  end.

Definition after_loop_sync (cbs : ExecutorCallbacks H) (s : St H) : St H :=
  let s1 :=
    fst (invoke_opt (EvStatusChange Idle)
                    ((fun f => f Idle) <$> onStatusChange cbs) s) in
  let s2 :=
    fst (invoke_opt (EvActionChange None)
                    ((fun f => f None) <$> onActionChange cbs) s1) in
  finally_block s2.

Fixpoint queue_sync (cbs : ExecutorCallbacks H) (hooks : QueueHooks H)
  (rest : list Command) (i : nat) (s : St H) : St H :=
  match rest with
  | [] => after_loop_sync cbs s
  | c :: later =>
      let s1 :=
        fst (invoke_opt (EvCommandStart c i)
                        ((fun f => f c i) <$> onCommandStart hooks) s) in
      let s2 :=
        fst (invoke_opt (EvActionChange (Some (description c)))
                        ((fun f => f (Some (description c)))
                           <$> onActionChange cbs) s1) in
      let s3 := executeCommand_sync c cbs s2 in
      let s4 :=
        fst (invoke_opt (EvCommandComplete c i)
                        ((fun f => f c i) <$> onCommandComplete hooks) s3) in
      queue_sync cbs hooks later (S i) s4
  end.

Definition executeQueue_sync (commands : list Command)
  (cbs : ExecutorCallbacks H) (hooks : QueueHooks H) (s : St H) : St H :=
  if isExecuting (exec s) then s
  else if (length commands =? 0)%nat then s
  else
    let s0 :=
      with_exec {| config := config (exec s); isExecuting := true;
                   abortController := Some {| aborted := false |} |} s in
    let s1 :=
      fst (invoke_opt (EvStatusChange Busy)
                      ((fun f => f Busy) <$> onStatusChange cbs) s0) in
    queue_sync cbs hooks commands 0 s1.

(** The callback invocations of a whole run other than the position
    updates, in their order; an optional callback that is not given is
    not invoked. *)
Definition opt_event {B} (h : option B) (ev : Event) : list Event :=
  match h with
  | Some _ => [ev]
  | None => []
  end.

Fixpoint lifecycle_from (cbs : ExecutorCallbacks H) (hooks : QueueHooks H)
  (rest : list Command) (i : nat) : list Event :=
  match rest with
  | [] => []
  | c :: later =>
      opt_event (onCommandStart hooks) (EvCommandStart c i)
        ++ opt_event (onActionChange cbs)
                     (EvActionChange (Some (description c)))
        ++ opt_event (onCommandComplete hooks) (EvCommandComplete c i)
        ++ lifecycle_from cbs hooks later (S i)
  end.

Definition lifecycle (cbs : ExecutorCallbacks H) (hooks : QueueHooks H)
  (commands : list Command) : list Event :=
  opt_event (onStatusChange cbs) (EvStatusChange Busy)
    ++ lifecycle_from cbs hooks commands 0
    ++ opt_event (onStatusChange cbs) (EvStatusChange Idle)
    ++ opt_event (onActionChange cbs) (EvActionChange None).

End WithHost.

Definition not_position_update (e : Event) : bool :=
  match e with
  | EvPositionUpdate _ => false
  | _ => true
  end.

(** The six commands of [calculateTargetPosition] that move the robot. *)
Definition is_directional (c : Command) : bool :=
  String.eqb (command c) "forward" || String.eqb (command c) "backward"
  || String.eqb (command c) "left" || String.eqb (command c) "right"
  || String.eqb (command c) "up" || String.eqb (command c) "down".

End ExecutorRun.

(** ** A run started by the command store *)

Module AppRun.

Import CommandExecutor.

(** The outcome of a stretch of [executeQueue]: if the run is over, the
    busy flag is cleared and the abort handle released. *)
Definition over_and_cleared {H : Type} (res : St H * option (Task H)) : Prop :=
  forall s', res = (s', None) ->
    isExecuting (exec s') = false /\ abortController (exec s') = None.

(** A record as [onCommandComplete] leaves it when its id is among [ids],
    untouched otherwise. *)
Definition mark_completed (ids : list string) (r : CommandWithStatus)
  : CommandWithStatus :=
  if existsb (String.eqb (command_id (cmd r))) ids
  then mkCommandWithStatus (cmd r) completed None (progress r)
  else r.

(** Where the robot is after the commands [cs] have been executed one
    after the other, when every target is computed from [start]: a
    command whose target is [start] itself makes no position update. *)
Definition position_after (start : Position) (cs : list Command)
  (now : Position) : Position :=
  foldl (fun p c =>
           let tgt := calculateTargetPosition c start in
           if position_eqb start tgt then p else tgt)
        now cs.

(** A command that moves nothing. *)
Definition stop_command : Command :=
  mkCommand "stop" ∅ "stop" "cmd-stop" "2025-01-01T00:00:03.000Z" None.

(** Callbacks like those of the store, except that reporting the status
    fails. *)
Definition status_error : Exn :=
  {| is_Error := true; message := "status update failed" |}.

Definition failing_status_callbacks (robot : RobotStore.State)
  : ExecutorCallbacks App.Stores :=
  {| onPositionUpdate := onPositionUpdate (App.store_callbacks robot);
     getPosition := getPosition (App.store_callbacks robot);
     onStatusChange := Some (fun _ h => (h, Some status_error));
     onActionChange := onActionChange (App.store_callbacks robot) |}.

End AppRun.

(** ** The command list over the life of the application *)

Module StoreQueue.

Import CommandExecutor.

(** A callback that leaves the commands of the list, and their order,
    alone (it may change their status). *)
Definition keeps_queue (f : Callback App.Stores) : Prop :=
  forall h,
    map cmd (CommandStore.commands (App.commandStore (fst (f h))))
    = map cmd (CommandStore.commands (App.commandStore h)).

Definition same_queue (a b : St App.Stores) : Prop :=
  map cmd (CommandStore.commands (App.commandStore (host b)))
  = map cmd (CommandStore.commands (App.commandStore (host a))).

(** The commands enqueued since the last [clearCommands()], in the order
    of the calls. *)
Definition queued (acts : list App.Action) : list Command :=
  foldl (fun q a =>
           match a with
           | App.ClearCommands => []
           | _ => q ++ App.enqueued a
           end) [] acts.

(** The cursor after the commands [rest] have been started one after the
    other by the hooks of [executeCommands]. *)
Definition cursor_after (state : CommandStore.State) (rest : list Command)
  (cursor : Z) : Z :=
  foldl (fun _ c =>
           CommandStore.findIndex
             (fun r => String.eqb (command_id (cmd r)) (command_id c))
             (CommandStore.commands state))
        cursor rest.

End StoreQueue.

(** ** The WebSocket service over its life *)

Module WebSocketRun.

Import WebSocketService.

(** [new WebSocket(wsUrl)] does not throw in this event. *)
Definition constructor_returns (e : Event) : bool :=
  match e with
  | Connect t | ReconnectTimerFires _ t => negb t
  | _ => true
  end.

(** The event is not the opening of a socket. *)
Definition not_an_open (e : Event) : bool :=
  match e with
  | SocketOpens _ => false
  | _ => true
  end.

(** Every promise returned by [connect] is pending, and no socket is
    open. *)
Definition all_pending (s : State) : Prop :=
  Forall (fun p => p = Pending) (promises s) /\
  Forall (fun sock => readyState sock <> OPEN) (sockets s).

(** No promise returned by [connect] has been rejected. *)
Definition none_rejected (s : State) : Prop :=
  Forall (fun p => p <> Rejected) (promises s).

(** The counter of [reconnect] is within its bound, and every delay it
    has passed to [setTimeout] is one of the configured ones. *)
Definition reconnect_bounded (s : State) : Prop :=
  (reconnectAttempts s <= maxReconnectAttempts)%nat /\
  Forall (fun d => d ∈ APP_CONFIG.WS_RECONNECT_DELAY) (scheduled s).

(** The connection was open, the socket has closed, and [reconnect] has
    set its first timer. *)
Definition closed_once : State :=
  run [Connect false; SocketOpens 0; SocketCloses 0] initial.




End WebSocketRun.

(** ** The message listeners of the WebSocket service  ([on], [off], [handleMessage]) *)

Module Listeners.

(** A [MessageHandler] is known by its identity: [indexOf] compares
    function references. *)
Definition Handler := nat.

(** [private listeners: Map<string, MessageHandler[]> = new Map()]. *)
Definition no_listeners : gmap string (list Handler) := ∅.

(** [this.listeners.get(type)], with [undefined] read as no handlers. *)
Definition handlers_of (ty : string) (reg : gmap string (list Handler)) : list Handler :=
  default [] (reg !! ty).

(** [on(type, callback)]. *)
Definition on (ty : string) (callback : Handler) (reg : gmap string (list Handler)) : gmap string (list Handler) :=
  let reg1 :=
    match reg !! ty with
    | None => <[ty := []]> reg
    | Some _ => reg
    end in
  match reg1 !! ty with
  | Some handlers => <[ty := handlers ++ [callback]]> reg1
  | None => reg1
  end.

(** [handlers.indexOf(callback)]: the first index, [-1] when there is
    none. *)
Fixpoint indexOf_from (callback : Handler) (handlers : list Handler) (i : Z)
  : Z :=
  match handlers with
  | [] => (-1)%Z
  | h :: rest =>
      if Nat.eqb h callback then i else indexOf_from callback rest (i + 1)%Z
  end.

Definition indexOf (callback : Handler) (handlers : list Handler) : Z :=
  indexOf_from callback handlers 0%Z.

(** [off(type, callback)]; [handlers.splice(index, 1)] removes the
    element at [index]. *)
Definition off (ty : string) (callback : Handler) (reg : gmap string (list Handler))
  : gmap string (list Handler) :=
  match reg !! ty with
  | None => reg
  | Some handlers =>
      let index := indexOf callback handlers in
      if (-1 <? index)%Z then <[ty := delete (Z.to_nat index) handlers]> reg
      else reg
  end.

(** [handlers.forEach((handler) => handler(message))]: the handlers
    invoked, in order, and whether one of them threw (which ends the
    iteration).  [throws] tells which handlers throw on the message.
    Handlers do not call [on] or [off] while a message is dispatched. *)
Fixpoint forEach (throws : Handler -> bool) (handlers : list Handler)
  : list Handler * bool :=
  match handlers with
  | [] => ([], false)
  | h :: rest =>
      if throws h then ([h], true)
      else
        let '(invoked, thrown) := forEach throws rest in
        (h :: invoked, thrown)
  end.

(** [handleMessage(message)] for a message of type [ty], as called from
    [onmessage] inside its [try]: the handlers invoked, in order. *)
Definition handleMessage (throws : Handler -> bool) (ty : string)
  (reg : gmap string (list Handler)) : list Handler :=
  let '(invoked, thrown) :=
    match reg !! ty with
    | Some handlers => forEach throws handlers
    | None => ([], false)
    end in
  if thrown then invoked
  else
    match reg !! "*"%string with
    | Some allHandlers => invoked ++ fst (forEach throws allHandlers)
    | None => invoked
    end.

(** A list without the first occurrence of [callback]. *)
Fixpoint without_first (callback : Handler) (handlers : list Handler)
  : list Handler :=
  match handlers with
  | [] => []
  | h :: rest =>
      if Nat.eqb h callback then rest else h :: without_first callback rest
  end.

(** Calls of [on], one after the other. *)
Definition register_all (regs : list (string * Handler))
  (reg : gmap string (list Handler)) : gmap string (list Handler) :=
  foldl (fun reg r => on (fst r) (snd r) reg) reg regs.

(** The handlers that [regs] registers for [ty], in the order of the
    calls. *)
Definition registered_for (ty : string) (regs : list (string * Handler))
  : list Handler :=
  map snd (List.filter (fun r => String.eqb (fst r) ty) regs).

End Listeners.

(** ** The chunks of a whole voice call *)

Module VoiceCallRun.

Import VoiceCall.

(** The recording [data] is being written: at each tick the file holds
    its first [n] bytes, for the [n] of [sizes] in turn. *)
Definition growing (data : list byte) (sizes : list nat)
  : list (option FileView) :=
  map (fun n => Some (file_of (take n data))) sizes.

(** What a tick sees of the recording [data] while it is being written:
    the bytes read are the first [file_size] bytes of [data], that is, the
    file only grows and has not grown between the call that reports its
    size and the call that reads it; and that size is a multiple of 3.
    Nothing is asked of a tick that finds no [uri]. *)
Definition on_group_boundary (data : list byte) (v : option FileView)
  : Prop :=
  match v with
  | None => True
  | Some f =>
      file_data f = take (file_size f) data /\
      (file_size f <= length data)%nat /\
      (file_size f mod 3 = 0)%nat
  end.

(** All the characters sent so far, in order. *)
Definition stream (s : Session) : list ascii := concat (map fst (sent s)).

(** Nothing of the recording [data] is lost or sent twice: the sent-offset
    is on an encoding-group boundary, the chunks sent are the encodings of
    consecutive pieces of the bytes before the sent-offset, and put
    together they are the encoding of these bytes. *)
Definition lossless (data : list byte) (s : Session) : Prop :=
  (lastAudioPosition s mod 3 = 0)%nat /\
  (lastAudioPosition s <= length data)%nat /\
  exists pieces : list (list byte),
    map fst (sent s) = map base64_encode pieces /\
    concat pieces = take (lastAudioPosition s) data /\
    stream s = base64_encode (take (lastAudioPosition s) data).

End VoiceCallRun.

(** ** A run in flight *)

Module RunInFlight.

Import CommandExecutor ExecutorRun.

Section WithHost.

Context {H : Type}.

(** The rest of [executeCommand] from where it waits, the delays left
    out, when no callback throws. *)
Definition phase_sync (ph : Phase) (cbs : ExecutorCallbacks H) (s : St H)
  : St H :=
  match ph with
  | SleepUnchanged => s
  | SleepStep fr i =>
      let s' := animate cbs fr i (S (steps fr - i)) s in
      fst (invoke (EvPositionUpdate (targetPos fr))
                  (onPositionUpdate cbs (targetPos fr)) s')
  end.

(** The rest of the run [t], likewise. *)
Definition task_sync (t : Task H) (s : St H) : St H :=
  let c := t_current t in
  let i := t_index t in
  let s3 := phase_sync (t_phase t) (t_callbacks t) s in
  let s4 :=
    fst (invoke_opt (EvCommandComplete c i)
                    ((fun f => f c i) <$> onCommandComplete (t_hooks t)) s3) in
  queue_sync (t_callbacks t) (t_hooks t) (t_later t) (S i) s4.

End WithHost.

(** The animation loop waits inside its range [1 .. animationSteps]. *)
Definition phase_in_loop (ph : Phase) : bool :=
  match ph with
  | SleepUnchanged => true
  | SleepStep fr i => (i <=? steps fr)%nat
  end.

(** The commands that the run [t] has still to complete. *)
Definition remaining {H} (t : Task H) : list Command :=
  t_current t :: t_later t.

(** The run was started by [executeCommands]. *)
Definition started_by_store (t : Task App.Stores) : Prop :=
  exists robot state,
    t_callbacks t = App.store_callbacks robot /\
    t_hooks t = App.store_hooks state.

(** [forward3] has been enqueued and its run has started. *)
Definition forward3_running : App.State :=
  App.run [App.AddCommand App.forward3; App.AutostartFires] App.initial.

End RunInFlight.

(** ** Changing the configuration *)

Module Reconfigure.

Import CommandExecutor.

(** The state after [setConfig(cfg)]. *)
Definition reconfigured {H} (cfg : ExecutorConfig) (s : St H) : St H :=
  with_exec (setConfig cfg (exec s)) s.

End Reconfigure.

(** ** Messages passed to the socket  ([send], [sendCallAudio]) *)

Module Wire.

(** The [data] of the messages that the client sends. *)
Inductive Data :=
| NoData
| AudioStart (sample_rate : Z) (encoding : string) (channels : Z)
| AudioChunk (chunk : list ascii)
| CallAudio (chunk : list ascii) (is_first_chunk : bool).

(** A message as passed to [ws.send] (the time stamp is left out). *)
Record Message := mkMessage {
  type : string;
  data : Data
}.

(** [send(message)]: the messages passed to the socket so far are
    [wire].  [message.type || 'status'] also replaces an empty type.
    [send_throws] tells whether [this.ws.send] throws, which is caught. *)
Definition send (ws : WebSocketService.State) (send_throws : bool)
  (ty : option string) (d : option Data) (wire : list Message)
  : list Message :=
  if negb (WebSocketService.isReady ws) then wire
  else
    let fullMessage :=
      {| type := match ty with
                 | Some t => if String.eqb t EmptyString then "status"%string
                             else t
                 | None => "status"%string
                 end;
         data := default NoData d |} in
    if send_throws then wire else wire ++ [fullMessage].

(** [sendCallAudio(base64Chunk, isFirstChunk)]. *)
Definition sendCallAudio (ws : WebSocketService.State) (send_throws : bool)
  (base64Chunk : list ascii) (isFirstChunk : bool) (wire : list Message)
  : list Message :=
  send ws send_throws (Some "call_audio"%string)
       (Some (CallAudio base64Chunk isFirstChunk)) wire.

(** One tick of a call: [sendAudioChunk()] of the hook, whose call of
    [wsService.sendCallAudio], if it makes one, goes through [send]. *)
Definition tick (ws : WebSocketService.State) (send_throws : bool)
  (v : option VoiceCall.FileView)
  (sw : VoiceCall.Session * list Message)
  : VoiceCall.Session * list Message :=
  let s' := VoiceCall.sendAudioChunk v (fst sw) in
  (s',
   foldl (fun wire c => sendCallAudio ws send_throws (fst c) (snd c) wire)
         (snd sw)
         (drop (length (VoiceCall.sent (fst sw))) (VoiceCall.sent s'))).

(** A fresh service: [connect] has not been called. *)
Definition never_connected : WebSocketService.State :=
  WebSocketService.initial.

(** The service with its connection open. *)
Definition connected : WebSocketService.State :=
  WebSocketService.run
    [WebSocketService.Connect false; WebSocketService.SocketOpens 0]
    WebSocketService.initial.

End Wire.

(** * Properties *)

(** ** The executor: what a stretch of code can change *)

Section ExecutorFrame.

Import CommandExecutor.

Context {H : Type}.

(** [R] relates the state before a stretch of executor code to the state
    after it, provided the callbacks called satisfy [ok]. *)
Variable ok : Callback H -> Prop.
Variable R : St H -> St H -> Prop.
Hypothesis R_refl : forall s, R s s.
Hypothesis R_trans : forall a b c, R a b -> R b c -> R a c.
Hypothesis R_invoke : forall ev f s, ok f -> R s (fst (invoke ev f s)).
Hypothesis R_finally : forall s, R s (finally_block s).
Hypothesis R_begin : forall s,
  R s (with_exec {| config := config (exec s); isExecuting := true;
                    abortController := Some {| aborted := false |} |} s).

Lemma R_invoke_opt {B} ev (h : option B) (app : B -> Callback H) s :
  (forall f, h = Some f -> ok (app f)) ->
  R s (fst (invoke_opt ev (app <$> h) s)).
Proof.
  intros Hok. destruct h as [f|]; simpl; [apply R_invoke; auto | apply R_refl].
Qed.

(** The next optional callback of the goal is invoked: name the state
    [s1] and the thrown value [t1] it leaves, and record [R s s1]. *)
Ltac invoke_next s1 t1 H1 :=
  match goal with
  | |- context [invoke_opt ?ev (?app <$> ?h) ?s] =>
      let HR := fresh "HR" in
      pose proof (R_invoke_opt ev h app s) as HR;
      destruct (invoke_opt ev (app <$> h) s) as [s1 t1];
      simpl in HR;
      assert (R s s1) as H1 by (apply HR; intros; cbv beta; eauto);
      clear HR
  end.

Lemma R_outer_catch cbs s :
  callbacks_satisfy ok cbs -> R s (outer_catch cbs s).
Proof.
  intros (Hp & Hs & Ha). unfold outer_catch.
  invoke_next s1 t1 H1.
  eapply R_trans; [exact H1 | apply R_finally].
Qed.

Lemma R_after_loop cbs s :
  callbacks_satisfy ok cbs -> R s (after_loop cbs s).
Proof.
  intros Hc. pose proof Hc as (Hp & Hs & Ha). unfold after_loop.
  invoke_next s1 t1 H1.
  destruct t1.
  { eapply R_trans; [exact H1 | by apply R_outer_catch]. }
  invoke_next s2 t2 H2.
  destruct t2; eapply R_trans; [exact H1 | | exact H1 |];
    (eapply R_trans; [exact H2 |]); [by apply R_outer_catch | apply R_finally].
Qed.

Lemma R_loop_head cbs fr i s :
  callbacks_satisfy ok cbs -> R s (fst (loop_head cbs fr i s)).
Proof.
  intros (Hp & _). unfold loop_head.
  destruct (i <=? steps fr)%nat.
  - destruct (signal_aborted (exec s)); apply R_refl.
  - pose proof (R_invoke (EvPositionUpdate (targetPos fr))
                  (onPositionUpdate cbs (targetPos fr)) s (Hp _)) as HR.
    destruct (invoke _ _ s) as [s' [e|]]; exact HR.
Qed.

Lemma R_executeCommand_start c cbs s :
  callbacks_satisfy ok cbs -> R s (fst (executeCommand_start c cbs s)).
Proof.
  intros Hc. unfold executeCommand_start.
  destruct (getPosition cbs (host s)) as [e|cur]; [apply R_refl |].
  destruct (position_eqb _ _); [apply R_refl | by apply R_loop_head].
Qed.

Lemma R_executeCommand_resume ph cbs s :
  callbacks_satisfy ok cbs -> R s (fst (executeCommand_resume ph cbs s)).
Proof.
  intros Hc. pose proof Hc as (Hp & _). destruct ph as [|fr i]; simpl.
  { apply R_refl. }
  pose proof (R_invoke (EvPositionUpdate (interpolated fr i))
                (onPositionUpdate cbs (interpolated fr i)) s (Hp _)) as HR.
  destruct (invoke _ _ s) as [s' [e|]]; simpl in *; [exact HR |].
  eapply R_trans; [exact HR | by apply R_loop_head].
Qed.

Lemma R_inner_catch cbs hooks c i k e s :
  callbacks_satisfy ok cbs -> hooks_satisfy ok hooks ->
  (forall s', R s' (fst (k s'))) ->
  R s (fst (inner_catch cbs hooks c i k e s)).
Proof.
  intros Hc (Hst & Hco & Her) Hk. unfold inner_catch.
  destruct (is_abort_error e); simpl; [by apply R_after_loop |].
  invoke_next s1 t1 H1.
  destruct t1; simpl; (eapply R_trans; [exact H1 |]);
    [by apply R_outer_catch | apply Hk].
Qed.

Lemma R_settle_command cbs hooks c i later k r s :
  callbacks_satisfy ok cbs -> hooks_satisfy ok hooks ->
  (forall s', R s' (fst (k s'))) ->
  R s (fst (settle_command cbs hooks c i later k r s)).
Proof.
  intros Hc Hh Hk. pose proof Hh as (Hst & Hco & Her).
  destruct r as [|e|ph]; simpl.
  - invoke_next s1 t1 H1.
    destruct t1; (eapply R_trans; [exact H1 |]);
      [by apply R_inner_catch | apply Hk].
  - by apply R_inner_catch.
  - apply R_refl.
Qed.

Lemma R_queue_loop cbs hooks rest :
  callbacks_satisfy ok cbs -> hooks_satisfy ok hooks ->
  forall i s, R s (fst (queue_loop cbs hooks rest i s)).
Proof.
  intros Hc Hh. pose proof Hc as (Hp & Hs & Ha).
  pose proof Hh as (Hst & Hco & Her).
  induction rest as [|c later IH]; intros i s; simpl.
  { by apply R_after_loop. }
  destruct (abortController (exec s)) as [ac|]; simpl;
    [| by apply R_outer_catch].
  destruct (aborted ac); simpl; [by apply R_after_loop |].
  invoke_next s1 t1 H1.
  destruct t1; simpl.
  { eapply R_trans; [exact H1 | by apply R_outer_catch]. }
  invoke_next s2 t2 H2.
  destruct t2; simpl.
  { eapply R_trans; [exact H1 |].
    eapply R_trans; [exact H2 | by apply R_outer_catch]. }
  pose proof (R_executeCommand_start c cbs s2 Hc) as H3.
  destruct (executeCommand_start c cbs s2) as [s3 r]. simpl in H3.
  eapply R_trans; [exact H1 |]. eapply R_trans; [exact H2 |].
  eapply R_trans; [exact H3 |].
  apply R_settle_command; auto.
Qed.

Lemma R_executeQueue commands cbs hooks s :
  callbacks_satisfy ok cbs -> hooks_satisfy ok hooks ->
  R s (fst (executeQueue commands cbs hooks s)).
Proof.
  intros Hc Hh. pose proof Hc as (Hp & Hs & Ha). unfold executeQueue.
  destruct (isExecuting (exec s)); [apply R_refl |].
  destruct (length commands =? 0)%nat; [apply R_refl |].
  invoke_next s1 t1 H1.
  destruct t1; simpl; (eapply R_trans; [apply R_begin |]);
    [exact H1 |].
  eapply R_trans; [exact H1 | by apply R_queue_loop].
Qed.

Lemma R_resume t s :
  task_satisfies ok t -> R s (fst (resume t s)).
Proof.
  intros [Hc Hh]. unfold resume.
  pose proof (R_executeCommand_resume (t_phase t) (t_callbacks t) s Hc) as H1.
  destruct (executeCommand_resume _ _ s) as [s1 r]. simpl in H1.
  eapply R_trans; [exact H1 |].
  apply R_settle_command; auto. intros s'. by apply R_queue_loop.
Qed.

End ExecutorFrame.

(** ** The executor: a suspended run has left the executor's fields alone *)

Section ExecutorSuspended.

Import CommandExecutor.

Context {H : Type}.

Implicit Types (s : St H) (cbs : ExecutorCallbacks H) (hooks : QueueHooks H).

Lemma invoke_exec ev (f : Callback H) s : exec (fst (invoke ev f s)) = exec s.
Proof. unfold invoke. by destruct (f (host s)). Qed.

Lemma invoke_opt_exec ev (f : option (Callback H)) s :
  exec (fst (invoke_opt ev f s)) = exec s.
Proof. destruct f; simpl; [apply invoke_exec | done]. Qed.

Lemma invoke_trace ev (f : Callback H) s :
  trace (fst (invoke ev f s)) = trace s ++ [ev].
Proof. unfold invoke. by destruct (f (host s)). Qed.

Lemma executeCommand_start_exec c cbs s :
  exec (fst (executeCommand_start c cbs s)) = exec s.
Proof.
  apply (R_executeCommand_start (fun _ => True)
           (fun a b => exec b = exec a)).
  all: try (intros; congruence).
  - intros ev f s0 _. apply invoke_exec.
  - by repeat split.
Qed.

Lemma executeCommand_resume_exec ph cbs s :
  exec (fst (executeCommand_resume ph cbs s)) = exec s.
Proof.
  apply (R_executeCommand_resume (fun _ => True)
           (fun a b => exec b = exec a)).
  all: try (intros; congruence).
  - intros ev f s0 _. apply invoke_exec.
  - by repeat split.
Qed.

Lemma suspended_ok_exec cbs hooks s s0 res :
  exec s0 = exec s -> suspended_ok cbs hooks s0 res ->
  suspended_ok cbs hooks s res.
Proof. intros He Hs s' t Hr. rewrite <- He. by apply Hs. Qed.

Lemma inner_catch_suspended cbs hooks c i k e s :
  (forall s0, suspended_ok cbs hooks s0 (k s0)) ->
  suspended_ok cbs hooks s (inner_catch cbs hooks c i k e s).
Proof.
  intros Hk. unfold inner_catch.
  destruct (is_abort_error e); [by intros ? ? [=] |].
  pose proof (invoke_opt_exec (EvCommandError c i e)
                ((fun f => f c i e) <$> onCommandError hooks) s) as He.
  destruct (invoke_opt _ _ s) as [s1 [t1|]]; simpl in He.
  - by intros ? ? [=].
  - eapply suspended_ok_exec; [exact He | apply Hk].
Qed.

Lemma settle_command_suspended cbs hooks c i later k r s :
  (forall s0, suspended_ok cbs hooks s0 (k s0)) ->
  suspended_ok cbs hooks s (settle_command cbs hooks c i later k r s).
Proof.
  intros Hk. destruct r as [|e|ph]; simpl.
  - pose proof (invoke_opt_exec (EvCommandComplete c i)
                  ((fun f => f c i) <$> onCommandComplete hooks) s) as He.
    destruct (invoke_opt _ _ s) as [s1 [t1|]]; simpl in He.
    + eapply suspended_ok_exec; [exact He | by apply inner_catch_suspended].
    + eapply suspended_ok_exec; [exact He | apply Hk].
  - by apply inner_catch_suspended.
  - intros s' t [= <- <-]. done.
Qed.

Lemma queue_loop_suspended cbs hooks rest :
  forall i s, suspended_ok cbs hooks s (queue_loop cbs hooks rest i s).
Proof.
  induction rest as [|c later IH]; intros i s; simpl.
  { by intros ? ? [=]. }
  destruct (abortController (exec s)) as [ac|]; [| by intros ? ? [=]].
  destruct (aborted ac); [by intros ? ? [=] |].
  pose proof (invoke_opt_exec (EvCommandStart c i)
                ((fun f => f c i) <$> onCommandStart hooks) s) as He1.
  destruct (invoke_opt _ _ s) as [s1 [t1|]]; simpl in He1;
    [by intros ? ? [=] |].
  pose proof (invoke_opt_exec (EvActionChange (Some (description c)))
                ((fun f => f (Some (description c))) <$> onActionChange cbs)
                s1) as He2.
  destruct (invoke_opt _ _ s1) as [s2 [t2|]]; simpl in He2;
    [by intros ? ? [=] |].
  pose proof (executeCommand_start_exec c cbs s2) as He3.
  destruct (executeCommand_start c cbs s2) as [s3 r]; simpl in He3.
  eapply suspended_ok_exec; [| apply settle_command_suspended; auto].
  congruence.
Qed.

Lemma resume_suspended (t : Task H) s :
  suspended_ok (t_callbacks t) (t_hooks t) s (resume t s).
Proof.
  unfold resume.
  pose proof (executeCommand_resume_exec (t_phase t) (t_callbacks t) s) as He.
  destruct (executeCommand_resume _ _ s) as [s1 r]; simpl in He.
  eapply suspended_ok_exec; [exact He |].
  apply settle_command_suspended. intros s0. apply queue_loop_suspended.
Qed.

Lemma executeQueue_suspended commands cbs hooks s s' t :
  executeQueue commands cbs hooks s = (s', Some t) ->
  isExecuting (exec s) = false /\ isExecuting (exec s') = true /\
  t_callbacks t = cbs /\ t_hooks t = hooks.
Proof.
  unfold executeQueue.
  destruct (isExecuting (exec s)) eqn:Hb; [by intros [=] |].
  destruct (length commands =? 0)%nat; [by intros [=] |].
  match goal with |- context [invoke_opt ?ev ?f ?s0] =>
    pose proof (invoke_opt_exec ev f s0) as He;
    destruct (invoke_opt ev f s0) as [s1 [t1|]] end; simpl in He;
    [by intros [=] |].
  intros Hq. apply queue_loop_suspended in Hq as (He' & ? & ?).
  rewrite He', He. done.
Qed.

End ExecutorSuspended.

(** ** The busy flag *)

Section SingleRun.

Import CommandExecutor.

Context {H : Type}.

Lemma executeQueue_busy commands (cbs : ExecutorCallbacks H) hooks s :
  isExecuting (exec s) = true ->
  executeQueue commands cbs hooks s = (s, None).
Proof. intros Hb. unfold executeQueue. by rewrite Hb. Qed.

Lemma step_executeQueue_busy commands (cbs : ExecutorCallbacks H) hooks m :
  isExecuting (exec (st m)) = true ->
  step (CallExecuteQueue commands cbs hooks) m = m.
Proof.
  intros Hb. unfold step. rewrite executeQueue_busy by done. by destruct m.
Qed.

Lemma step_single_run (a : Action H) m :
  not_abort a = true -> single_run m -> single_run (step a m).
Proof.
  intros Hna Hm. destruct m as [s ts]. unfold single_run in *. simpl in *.
  destruct a as [commands cbs hooks| |cfg|k]; simpl in *; try done.
  - destruct (executeQueue commands cbs hooks s) as [s' [t|]] eqn:E; simpl.
    + apply executeQueue_suspended in E as (Hb & Hb' & _).
      destruct ts as [|t0 [|t1 ts]]; simpl; try done. congruence.
    + destruct ts as [|t0 [|t1 ts]]; try done.
      rewrite executeQueue_busy in E by done. by simplify_eq.
  - destruct (ts !! k) as [t|] eqn:Hk; simpl; [| done].
    destruct ts as [|t0 [|t1 ts]]; try done.
    destruct k as [|k]; simplify_eq/=.
    pose proof (resume_suspended t s) as Hs.
    destruct (resume t s) as [s' [t'|]]; simpl; [| done].
    destruct (Hs s' t' eq_refl) as (He & _). by rewrite He.
Qed.

Lemma run_single_run (acts : list (Action H)) :
  forall m, forallb not_abort acts = true -> single_run m ->
    single_run (run acts m).
Proof.
  induction acts as [|a acts IH]; intros m Hna Hm; simpl in *; [done |].
  apply andb_prop in Hna as [Ha Hacts].
  apply IH; [done |]. by apply step_single_run.
Qed.

Lemma single_run_length (m : Machine H) :
  single_run m -> (length (tasks m) <= 1)%nat.
Proof.
  unfold single_run. destruct (tasks m) as [|t0 [|t1 ts]]; simpl; try done; lia.
Qed.

End SingleRun.

Lemma executeCommands_busy (m : CommandExecutor.Machine App.Stores) :
  CommandExecutor.getIsExecuting (CommandExecutor.exec (CommandExecutor.st m))
    = true ->
  App.executeCommands m = m.
Proof. intros Hb. unfold App.executeCommands. by rewrite Hb. Qed.

(** C1 (as amended).  A call of [executeQueue] while the busy flag
    [isExecuting] is set returns without changing anything: the executor's
    fields (busy flag, abort handle), the stores the callbacks act on
    (command list, cursor), the trace of callback invocations and the runs
    in flight are as before; the same holds for [executeCommands] of the
    command store.  As long as [abort()] is not called, this keeps at most
    one run in flight: from a state with at most one run, every sequence
    of calls and timer events without [abort()] leads to a state with at
    most one run. *)
Theorem C1_busy_call_is_noop_and_single_run_without_abort :
  forall (H : Type) (m : CommandExecutor.Machine H)
    (commands : list Command) (cbs : CommandExecutor.ExecutorCallbacks H)
    (hooks : CommandExecutor.QueueHooks H)
    (ma : CommandExecutor.Machine App.Stores)
    (acts : list (CommandExecutor.Action H)),
    (CommandExecutor.isExecuting (CommandExecutor.exec (CommandExecutor.st m))
       = true ->
     CommandExecutor.step
       (CommandExecutor.CallExecuteQueue commands cbs hooks) m = m) /\
    (CommandExecutor.isExecuting
       (CommandExecutor.exec (CommandExecutor.st ma)) = true ->
     App.executeCommands ma = ma) /\
    (CommandExecutor.single_run m ->
     forallb CommandExecutor.not_abort acts = true ->
     CommandExecutor.single_run (CommandExecutor.run acts m) /\
     (length (CommandExecutor.tasks (CommandExecutor.run acts m)) <= 1)%nat).
Proof.
  intros H m commands cbs hooks ma acts. split; [| split].
  - apply step_executeQueue_busy.
  - apply executeCommands_busy.
  - intros Hm Hna. pose proof (run_single_run acts m Hna Hm) as Hr.
    split; [done | by apply single_run_length].
Qed.

(** C1 at a concrete state: a run of [forward3] is in flight. *)
Lemma C1_busy_call_is_noop_witness :
  let m := App.machine
             (App.run [App.AddCommand App.forward3; App.AutostartFires]
                      App.initial) in
  CommandExecutor.step
    (CommandExecutor.CallExecuteQueue [App.right2]
       (App.store_callbacks RobotStore.initial)
       (App.store_hooks CommandStore.initial)) m = m /\
  App.executeCommands m = m /\
  (length (CommandExecutor.tasks
             (CommandExecutor.run
                [CommandExecutor.TimerFires 0;
                 CommandExecutor.CallExecuteQueue [App.right2]
                   (App.store_callbacks RobotStore.initial)
                   (App.store_hooks CommandStore.initial);
                 CommandExecutor.TimerFires 0] m)) <= 1)%nat.
Proof.
  intros m.
  destruct (C1_busy_call_is_noop_and_single_run_without_abort
              App.Stores m [App.right2]
              (App.store_callbacks RobotStore.initial)
              (App.store_hooks CommandStore.initial) m
              [CommandExecutor.TimerFires 0;
               CommandExecutor.CallExecuteQueue [App.right2]
                 (App.store_callbacks RobotStore.initial)
                 (App.store_hooks CommandStore.initial);
               CommandExecutor.TimerFires 0]) as (Hnoop & Hstore & Hsingle).
  split; [apply Hnoop; reflexivity |].
  split; [apply Hstore; reflexivity |].
  apply Hsingle; reflexivity.
Defined.

(** C1, the claim as stated fails: after [stopExecution()] (which calls
    [abort()]) the interrupted run is still in flight, and the next call
    of [executeCommands] starts a second run next to it. *)
Lemma C1_counterexample_two_runs_in_flight :
  length (CommandExecutor.tasks
            (App.machine (App.run App.stopped_mid_run App.initial))) = 1%nat /\
  App.executeCommands
    (App.machine
       (App.run (App.stopped_mid_run ++ [App.AddCommand App.up1]) App.initial))
  <> App.machine
       (App.run (App.stopped_mid_run ++ [App.AddCommand App.up1]) App.initial)
  /\
  length (CommandExecutor.tasks
            (App.machine (App.run App.stopped_then_enqueued App.initial)))
    = 2%nat.
Proof.
  split; [reflexivity |]. split; [| reflexivity].
  intros Heq. apply (f_equal (fun m => length (CommandExecutor.tasks m))) in Heq.
  vm_compute in Heq. discriminate.
Qed.

(** ** The trace only grows *)

Section TraceGrows.

Import CommandExecutor.

Context {H : Type}.

Lemma always_ok_callbacks (cbs : ExecutorCallbacks H) :
  callbacks_satisfy (fun _ => True) cbs.
Proof. by repeat split. Qed.

Lemma always_ok_hooks (hooks : QueueHooks H) :
  hooks_satisfy (fun _ => True) hooks.
Proof. by repeat split. Qed.

Lemma queue_loop_trace (cbs : ExecutorCallbacks H) hooks rest i s :
  exists l, trace (fst (queue_loop cbs hooks rest i s)) = trace s ++ l.
Proof.
  apply (R_queue_loop (fun _ => True)
           (fun a b => exists l, trace b = trace a ++ l)).
  - intros a. exists []. by rewrite app_nil_r.
  - intros a b c [l1 H1] [l2 H2]. exists (l1 ++ l2).
    by rewrite H2, H1, app_assoc.
  - intros ev f s0 _. exists [ev]. apply invoke_trace.
  - intros s0. exists []. simpl. by rewrite app_nil_r.
  - apply always_ok_callbacks.
  - apply always_ok_hooks.
Qed.

End TraceGrows.

(** ** An empty queue *)

(** C10.  [executeQueue] with an empty command list changes nothing,
    whatever the state: the busy flag and the abort handle are as before,
    no callback is invoked (the trace and the stores are as before), no
    run is started; so does [executeCommands] when no command is pending.
    A call with a non-empty list on an idle executor sets the busy flag
    and first of all reports [busy] through [onStatusChange]. *)
Theorem C10_empty_queue_has_no_effect :
  forall (H : Type) (m : CommandExecutor.Machine H)
    (cbs : CommandExecutor.ExecutorCallbacks H)
    (hooks : CommandExecutor.QueueHooks H)
    (ma : CommandExecutor.Machine App.Stores)
    (c : Command) (later : list Command)
    (f : RobotStatus -> CommandExecutor.Callback H),
    CommandExecutor.step (CommandExecutor.CallExecuteQueue [] cbs hooks) m = m
    /\
    (CommandStore.getPendingCommands
       (App.commandStore (CommandExecutor.host (CommandExecutor.st ma))) = [] ->
     App.executeCommands ma = ma) /\
    (CommandExecutor.isExecuting (CommandExecutor.exec (CommandExecutor.st m))
       = false ->
     CommandExecutor.onStatusChange cbs = Some f ->
     exists rest,
       CommandExecutor.trace
         (CommandExecutor.st
            (CommandExecutor.step
               (CommandExecutor.CallExecuteQueue (c :: later) cbs hooks) m))
       = CommandExecutor.trace (CommandExecutor.st m)
           ++ CommandExecutor.EvStatusChange Busy :: rest).
Proof.
  intros H m cbs hooks ma c later f. split; [| split].
  - unfold CommandExecutor.step, CommandExecutor.executeQueue. simpl.
    destruct m as [s ts]. simpl. by destruct (CommandExecutor.isExecuting _).
  - intros Hp. unfold App.executeCommands. rewrite Hp. simpl.
    by destruct (CommandExecutor.getIsExecuting _).
  - intros Hidle Hf. unfold CommandExecutor.step, CommandExecutor.executeQueue.
    rewrite Hidle, Hf.
    set (k := CommandExecutor.queue_loop cbs hooks (c :: later) 0).
    simpl. unfold CommandExecutor.invoke. simpl.
    destruct (f Busy (CommandExecutor.host (CommandExecutor.st m)))
      as [h' [e|]]; simpl.
    + exists []. done.
    + match goal with |- context [k ?s0] =>
        destruct (queue_loop_trace cbs hooks (c :: later) 0 s0) as [l Hl];
        fold k in Hl; destruct (k s0) as [s' t] end.
      simpl in *. exists l. rewrite Hl. by rewrite <- app_assoc.
Qed.

(** C10 at a concrete state: the application at start-up, and the call
    that [executeCommands] makes for [forward3]. *)
Lemma C10_empty_queue_has_no_effect_witness :
  App.executeCommands (App.machine App.initial) = App.machine App.initial /\
  exists rest,
    CommandExecutor.trace
      (CommandExecutor.st
         (CommandExecutor.step
            (CommandExecutor.CallExecuteQueue [App.forward3]
               (App.store_callbacks RobotStore.initial)
               (App.store_hooks CommandStore.initial))
            (App.machine App.initial)))
    = CommandExecutor.trace (CommandExecutor.st (App.machine App.initial))
        ++ CommandExecutor.EvStatusChange Busy :: rest.
Proof.
  destruct (C10_empty_queue_has_no_effect App.Stores (App.machine App.initial)
              (App.store_callbacks RobotStore.initial)
              (App.store_hooks CommandStore.initial)
              (App.machine App.initial) App.forward3 []
              (fun r => App.on_robot (RobotStore.setRobotStatus r)))
    as (_ & Hstore & Hbusy).
  split; [apply Hstore; reflexivity |].
  apply Hbusy; reflexivity.
Defined.

(** ** Target position and interpolation *)

(** C3 (as amended).  [calculateTargetPosition] applies the directional
    vocabulary: [forward] subtracts the distance from [z], [backward] adds
    it to [z], [left] subtracts it from [x], [right] adds it to [x], [up]
    adds it to [y], [down] subtracts it from [y]; [turn_left],
    [turn_right] and [stop] leave the position as it is.  The distance is
    the parameter [distance] when it is present and not [0], and [1] when
    it is absent or [0].  From (0,0,0), [forward] with distance 3 gives
    (0,0,-3) and [right] with distance 2 gives (2,0,0), and executing them
    from the initial state of the application moves the robot there. *)
Theorem C3_directional_vocabulary :
  forall (ps : gmap string Q) (d i t : string) (o : option Q) (p : Position)
    (name : string) (q : Q),
    let dist := CommandExecutor.distance_or_default (mkCommand name ps d i t o) in
    CommandExecutor.calculateTargetPosition (mkCommand "forward" ps d i t o) p
      = {| x := x p; y := y p; z := (z p - dist)%Q |} /\
    CommandExecutor.calculateTargetPosition (mkCommand "backward" ps d i t o) p
      = {| x := x p; y := y p; z := (z p + dist)%Q |} /\
    CommandExecutor.calculateTargetPosition (mkCommand "left" ps d i t o) p
      = {| x := (x p - dist)%Q; y := y p; z := z p |} /\
    CommandExecutor.calculateTargetPosition (mkCommand "right" ps d i t o) p
      = {| x := (x p + dist)%Q; y := y p; z := z p |} /\
    CommandExecutor.calculateTargetPosition (mkCommand "up" ps d i t o) p
      = {| x := x p; y := (y p + dist)%Q; z := z p |} /\
    CommandExecutor.calculateTargetPosition (mkCommand "down" ps d i t o) p
      = {| x := x p; y := (y p - dist)%Q; z := z p |} /\
    CommandExecutor.calculateTargetPosition (mkCommand "turn_left" ps d i t o) p
      = p /\
    CommandExecutor.calculateTargetPosition (mkCommand "turn_right" ps d i t o) p
      = p /\
    CommandExecutor.calculateTargetPosition (mkCommand "stop" ps d i t o) p
      = p /\
    CommandExecutor.distance_or_default
      (mkCommand name (delete "distance"%string ps) d i t o) = 1%Q /\
    CommandExecutor.distance_or_default
      (mkCommand name (<["distance"%string := q]> ps) d i t o)
      = (if Qeq_bool q 0 then 1%Q else q) /\
    CommandExecutor.calculateTargetPosition App.forward3
      {| x := 0; y := 0; z := 0 |} = {| x := 0; y := 0; z := (-3)%Q |} /\
    CommandExecutor.calculateTargetPosition App.right2
      {| x := 0; y := 0; z := 0 |} = {| x := 2; y := 0; z := 0 |} /\
    RobotStore.position
      (App.robotStore
         (CommandExecutor.host
            (CommandExecutor.st
               (App.machine
                  (App.run
                     ([App.AddCommand App.forward3; App.AutostartFires]
                        ++ repeat (App.DelayElapsed 0) 20) App.initial)))))
      = {| x := 0; y := 0; z := (-3)%Q |} /\
    RobotStore.position
      (App.robotStore
         (CommandExecutor.host
            (CommandExecutor.st
               (App.machine
                  (App.run
                     ([App.AddCommand App.right2; App.AutostartFires]
                        ++ repeat (App.DelayElapsed 0) 20) App.initial)))))
      = {| x := 2; y := 0; z := 0 |}.
Proof.
  intros ps d i t o p name q dist. destruct p as [px py pz].
  repeat split; try reflexivity.
  - unfold CommandExecutor.distance_or_default. simpl.
    by rewrite lookup_delete_eq.
  - unfold CommandExecutor.distance_or_default. simpl.
    by rewrite lookup_insert_eq.
Qed.

(** C3, the claim as stated fails for a distance of [0]: the parameter is
    present, and [forward] subtracts [1] from [z], not [0]. *)
Lemma C3_counterexample_zero_distance :
  let origin := {| x := 0; y := 0; z := 0 |} in
  command App.forward0 = "forward"%string /\
  params App.forward0 !! "distance"%string = Some 0%Q /\
  CommandExecutor.calculateTargetPosition App.forward0 origin
  = {| x := 0; y := 0; z := (-1)%Q |} /\
  ~ (z (CommandExecutor.calculateTargetPosition App.forward0 origin)
     == z origin - 0)%Q.
Proof.
  intros origin. split; [reflexivity |]. split; [reflexivity |].
  split; [reflexivity |]. intros Heq. vm_compute in Heq. discriminate.
Qed.

Section Interpolation.

Import CommandExecutor.

Context {H : Type}.

Lemma invoke_never_throws ev (f : Callback H) (s : St H) :
  snd (f (host s)) = None ->
  invoke ev f s
  = ({| exec := exec s; host := fst (f (host s)); trace := trace s ++ [ev] |},
     None).
Proof. unfold invoke. destruct (f (host s)) as [h' t]. simpl. by intros ->. Qed.


End Interpolation.



(** ** Failing commands and cancellation *)

Section ErrorPolicy.

Import CommandExecutor.

Context {H : Type}.

(** A command that throws anything but the cancellation error: the error
    is passed to [onCommandError] together with the command and its index
    in the list given to [executeQueue], and the loop goes on with the
    next index. *)
Lemma command_error_reported_and_run_continues
  (cbs : ExecutorCallbacks H) hooks c i later k (e : Exn) (s : St H) f :
  is_abort_error e = false ->
  onCommandError hooks = Some f ->
  snd (f c i e (host s)) = None ->
  settle_command cbs hooks c i later k (Threw e) s
  = k {| exec := exec s; host := fst (f c i e (host s));
         trace := trace s ++ [EvCommandError c i e] |}.
Proof.
  intros Hna Hf Hnothrow. simpl. unfold inner_catch. rewrite Hna, Hf. simpl.
  by rewrite invoke_never_throws.
Qed.

(** A command that throws the cancellation error ends the run: no hook is
    called any more, only the end of [executeQueue] is run. *)
Lemma cancellation_error_ends_run
  (cbs : ExecutorCallbacks H) hooks c i later k (e : Exn) (s : St H) :
  is_abort_error e = true ->
  settle_command cbs hooks c i later k (Threw e) s = (after_loop cbs s, None).
Proof. intros Ha. simpl. unfold inner_catch. by rewrite Ha. Qed.

(** The cancellation error is thrown only where the abort signal is seen
    set; after [abort()] it never is, because the controller is gone. *)
Lemma signal_not_aborted_after_abort (e : Executor) :
  signal_aborted (abort e) = false /\ abortController (abort e) = None.
Proof. destruct e as [cfg b [ac|]]; split; reflexivity. Qed.

End ErrorPolicy.

(** The [onCommandError] of the command store marks the records of the
    command as failed, with the message of the error. *)
Lemma store_onCommandError_marks_failed
  (state : CommandStore.State) (c : Command) (i : nat) (e : Exn)
  (h : App.Stores) :
  exists f,
    CommandExecutor.onCommandError (App.store_hooks state) = Some f /\
    snd (f c i e h) = None /\
    CommandStore.commands (App.commandStore (fst (f c i e h)))
    = map (fun r => if String.eqb (command_id (cmd r)) (command_id c)
                    then mkCommandWithStatus (cmd r) failed (Some (message e))
                                             (progress r)
                    else r)
          (CommandStore.commands (App.commandStore h)) /\
    CommandStore.error (App.commandStore (fst (f c i e h)))
    = Some (message e).
Proof.
  eexists. split; [reflexivity |]. split; [reflexivity |].
  split; reflexivity.
Qed.

(** A run in which the first command fails: the error is reported with
    the command and its index, the record is marked failed, and the run
    has gone on to the second command. *)
Example failing_command_is_reported_and_skipped :
  CommandExecutor.trace (CommandExecutor.st App.failing_run)
  = [CommandExecutor.EvStatusChange Busy;
     CommandExecutor.EvCommandStart App.forward3 0;
     CommandExecutor.EvActionChange (Some "forward 3");
     CommandExecutor.EvPositionUpdate
       {| x := (0 + (0 - 0) / 20 * 1)%Q; y := (0 + (0 - 0) / 20 * 1)%Q;
          z := (0 + (0 - 3 - 0) / 20 * 1)%Q |};
     CommandExecutor.EvCommandError App.forward3 0 App.render_error;
     CommandExecutor.EvCommandStart App.right2 1;
     CommandExecutor.EvActionChange (Some "right 2")] /\
  map (fun r => (status r, error r))
      (CommandStore.commands
         (App.commandStore
            (CommandExecutor.host (CommandExecutor.st App.failing_run))))
  = [(failed, Some "position update failed"); (executing, None)] /\
  map CommandExecutor.t_index (CommandExecutor.tasks App.failing_run) = [1%nat].
Proof. repeat split; reflexivity. Qed.

(** C4, the code at the failing input.  A run of [forward3; right2] is
    stopped by [stopExecution()] (hence [abort()]) after the first of the
    twenty animation steps of [forward3].  (1) At that moment one position
    update has been made.  (2) The run is not cancelled: as its delays
    elapse it makes the twenty remaining position updates of [forward3],
    reports the command as completed, and ends only at the head of the
    next iteration, with status [Err]. (3) If a new run has been started in
    the meantime, the stopped run does not end at all: it goes on and
    starts [right2], its command of index 1. *)
Theorem C4_abort_does_not_cancel_the_run :
  let at_abort := App.run App.stopped_mid_run App.initial in
  let later :=
    App.run (App.stopped_mid_run ++ repeat (App.DelayElapsed 0) 19)
            App.initial in
  let with_new_run :=
    App.run (App.stopped_then_enqueued ++ repeat (App.DelayElapsed 0) 19)
            App.initial in
  let trace_of s :=
    CommandExecutor.trace (CommandExecutor.st (App.machine s)) in
  let statuses s :=
    map status
        (CommandStore.commands
           (App.commandStore
              (CommandExecutor.host (CommandExecutor.st (App.machine s))))) in
  (length (List.filter App.is_position_update (trace_of at_abort)) = 1%nat /\
   CommandExecutor.abortController
     (CommandExecutor.exec (CommandExecutor.st (App.machine at_abort))) = None /\
   length (CommandExecutor.tasks (App.machine at_abort)) = 1%nat) /\
  (length (List.filter App.is_position_update (trace_of later)) = 21%nat /\
   drop 24 (trace_of later)
   = [CommandExecutor.EvCommandComplete App.forward3 0;
      CommandExecutor.EvStatusChange Err] /\
   statuses later = [completed; pending]) /\
  (List.filter App.is_start (trace_of with_new_run)
   = [CommandExecutor.EvCommandStart App.forward3 0;
      CommandExecutor.EvCommandStart App.right2 0;
      CommandExecutor.EvCommandStart App.right2 1] /\
   statuses with_new_run = [completed; executing; pending] /\
   length (CommandExecutor.tasks (App.machine with_new_run)) = 2%nat).
Proof. vm_compute. repeat split; reflexivity. Qed.

(** ** The abort signal is never seen set *)

Section AbortSignal.

Import CommandExecutor.

Context {H : Type}.

Lemma unset_invoke ev (f : Callback H) (s : St H) :
  unset s (fst (invoke ev f s)).
Proof. unfold unset. by rewrite invoke_exec. Qed.

Lemma unset_refl (s : St H) : unset s s.
Proof. by unfold unset. Qed.

Lemma unset_trans (a b c : St H) : unset a b -> unset b c -> unset a c.
Proof. unfold unset. auto. Qed.

Lemma unset_finally (s : St H) : unset s (finally_block s).
Proof. by unfold unset. Qed.

Lemma unset_begin (s : St H) :
  unset s (with_exec {| config := config (exec s); isExecuting := true;
                        abortController := Some {| aborted := false |} |} s).
Proof. by unfold unset. Qed.

Lemma step_signal_unset (a : Action H) (m : Machine H) :
  signal_aborted (exec (st m)) = false ->
  signal_aborted (exec (st (step a m))) = false.
Proof.
  destruct a as [commands cbs hooks| |cfg|k]; simpl.
  - pose proof (R_executeQueue (fun _ => True) unset unset_refl unset_trans
                  (fun ev f s _ => unset_invoke ev f s)
                  unset_finally unset_begin
                  commands cbs hooks (st m)
                  (always_ok_callbacks cbs) (always_ok_hooks hooks)) as HR.
    destruct (executeQueue commands cbs hooks (st m)) as [s' t]. exact HR.
  - intros _. apply signal_not_aborted_after_abort.
  - done.
  - destruct (tasks m !! k) as [t|]; [| done].
    pose proof (R_resume (fun _ => True) unset unset_refl unset_trans
                  (fun ev f s _ => unset_invoke ev f s)
                  unset_finally t (st m)
                  (conj (always_ok_callbacks _) (always_ok_hooks _))) as HR.
    destruct (resume t (st m)) as [s' t']. exact HR.
Qed.

(** Whatever is called and whichever timers fire, no stretch of executor
    code ever finds [signal.aborted] set: the only statement that sets it,
    in [abort()], is followed by [this.abortController = null]. *)
Lemma abort_signal_never_set (acts : list (Action H)) :
  forall m, signal_aborted (exec (st m)) = false ->
    signal_aborted (exec (st (run acts m))) = false.
Proof.
  induction acts as [|a acts IH]; intros m Hm; simpl; [done |].
  apply IH. by apply step_signal_unset.
Qed.

End AbortSignal.

(** ** Reconnection of the WebSocket service *)

Section Reconnect.

Import WebSocketService.

Lemma stopHeartbeat_frame s :
  sockets (stopHeartbeat s) = sockets s /\
  promises (stopHeartbeat s) = promises s /\
  manualDisconnect (stopHeartbeat s) = manualDisconnect s.
Proof. unfold stopHeartbeat. by destruct (heartbeatInterval s). Qed.


Lemma connect_keeps_counter t s :
  manualDisconnect (fst (connect t s)) = false /\
  reconnectAttempts (fst (connect t s)) = reconnectAttempts s /\
  scheduled (fst (connect t s)) = scheduled s.
Proof.
  unfold connect. cbv zeta.
  destruct (isReady _); [done |]. destruct (isConnecting _); [done |].
  by destruct t.
Qed.




Lemma onclose_manual k s :
  manualDisconnect s = true ->
  scheduled (onclose k s) = scheduled s /\ timers (onclose k s) = timers s /\
  reconnectAttempts (onclose k s) = reconnectAttempts s.
Proof.
  intros Hm. unfold onclose. destruct (sockets s !! k); [| done].
  destruct s as [w a hb c m so pr ti sc]. simpl in *. subst m.
  unfold stopHeartbeat. by destruct hb.
Qed.


End Reconnect.

(** ** The timers of the reconnection *)

Section ReconnectTimers.

Import WebSocketService WebSocketRun.










End ReconnectTimers.




(** The same history, step by step. *)
Example reconnect_three_then_four_closes :
  let opened :=
    WebSocketService.run
      [WebSocketService.Connect false; WebSocketService.SocketOpens 0]
      WebSocketService.initial in
  let closed1 := WebSocketService.run [WebSocketService.SocketCloses 0] opened in
  let closed2 :=
    WebSocketService.run
      [WebSocketService.ReconnectTimerFires 0 false;
       WebSocketService.SocketCloses 1] closed1 in
  let closed3 :=
    WebSocketService.run
      [WebSocketService.ReconnectTimerFires 0 false;
       WebSocketService.SocketCloses 2] closed2 in
  let closed4 :=
    WebSocketService.run
      [WebSocketService.ReconnectTimerFires 0 false;
       WebSocketService.SocketCloses 3] closed3 in
  WebSocketService.timers closed1 = [1000%Z] /\
  WebSocketService.timers closed2 = [2000%Z] /\
  WebSocketService.timers closed3 = [5000%Z] /\
  WebSocketService.timers closed4 = [] /\
  WebSocketService.reconnectAttempts closed4 = 3%nat /\
  WebSocketService.scheduled closed4 = [1000; 2000; 5000]%Z.
Proof. repeat split; reflexivity. Qed.

(** ** A second [connect] while connecting *)

Section Connecting.

Import WebSocketService.

Lemma settle_length p v ps : length (settle p v ps) = length ps.
Proof.
  unfold settle. destruct (ps !! p) as [[| |]|]; try done.
  apply length_insert.
Qed.

Lemma settle_other p q v ps : p <> q -> settle q v ps !! p = ps !! p.
Proof.
  intros Hne. unfold settle. destruct (ps !! q) as [[| |]|]; try done.
  by apply list_lookup_insert_ne.
Qed.

Lemma set_readyState_Forall (P : nat -> Prop) k r l :
  Forall (fun sock => P (resolves sock)) l ->
  Forall (fun sock => P (resolves sock)) (set_readyState k r l).
Proof.
  intros Hl. unfold set_readyState. destruct (l !! k) as [sock|] eqn:Hk; [| done].
  apply Forall_insert; [done |]. simpl.
  by apply (Forall_lookup_1 _ _ _ _ Hl Hk).
Qed.

Lemma close_socket_Forall (P : nat -> Prop) k l :
  Forall (fun sock => P (resolves sock)) l ->
  Forall (fun sock => P (resolves sock)) (close_socket k l).
Proof.
  intros Hl. unfold close_socket.
  destruct (l !! k) as [[[| | |] ?]|]; try done;
    by apply set_readyState_Forall.
Qed.

Lemma reconnect_frame s :
  sockets (reconnect s) = sockets s /\ promises (reconnect s) = promises s.
Proof.
  unfold reconnect.
  by destruct (maxReconnectAttempts <=? reconnectAttempts s)%nat.
Qed.

Lemma onclose_frame k s :
  promises (onclose k s) = promises s /\
  sockets (onclose k s)
  = match sockets s !! k with
    | Some _ => set_readyState k CLOSED (sockets s)
    | None => sockets s
    end.
Proof.
  unfold onclose. destruct (sockets s !! k); [| done]. cbv zeta.
  match goal with |- context [stopHeartbeat ?s'] =>
    destruct (stopHeartbeat_frame s') as (Hs & Hp & _);
    destruct (negb (manualDisconnect (stopHeartbeat s')));
    [destruct (reconnect_frame (stopHeartbeat s')) as [-> ->] |];
    by rewrite Hs, Hp
  end.
Qed.

Lemma connect_cases t s :
  let p := length (promises s) in
  snd (connect t s) = p /\
  (length (promises (fst (connect t s))) = S p) /\
  (forall q, q <> p ->
     promises (fst (connect t s)) !! q = (promises s ++ [Pending]) !! q) /\
  (sockets (fst (connect t s)) = sockets s \/
   sockets (fst (connect t s))
   = sockets s ++ [{| readyState := CONNECTING; resolves := p |}]).
Proof.
  intros p. unfold connect. cbv zeta.
  destruct (isReady _); [| destruct (isConnecting _); [| destruct t]]; simpl;
    rewrite ?settle_length, ?length_app; simpl; fold p.
  - repeat split; [lia | | by left]. intros q Hq. by apply settle_other.
  - repeat split; [lia | by left].
  - repeat split; [lia | | by left]. intros q Hq. by apply settle_other.
  - repeat split; [lia | by right].
Qed.

Lemma connect_well_formed t s :
  well_formed s -> well_formed (fst (connect t s)).
Proof.
  unfold well_formed. intros Hwf.
  destruct (connect_cases t s) as (_ & -> & _ & [-> | ->]).
  - eapply Forall_impl; [exact Hwf | simpl; intros; lia].
  - apply Forall_app. split.
    + eapply Forall_impl; [exact Hwf | simpl; intros; lia].
    + apply Forall_singleton. simpl. lia.
Qed.

Lemma step_well_formed e s : well_formed s -> well_formed (step e s).
Proof.
  intros Hwf. destruct e as [t| |k|k|k|j t]; simpl.
  - by apply connect_well_formed.
  - unfold well_formed, disconnect. cbv zeta.
    match goal with |- context [stopHeartbeat ?s'] =>
      destruct (stopHeartbeat_frame s') as (-> & -> & _) end.
    simpl. destruct (ws s); [| done].
    by apply (close_socket_Forall (fun r => (r < length (promises s))%nat)).
  - unfold onopen. destruct (sockets s !! k); [| done].
    unfold well_formed, resolve, startHeartbeat. cbv zeta. simpl.
    rewrite settle_length.
    match goal with |- context [stopHeartbeat ?s'] =>
      destruct (stopHeartbeat_frame s') as (-> & -> & _) end.
    by apply (set_readyState_Forall (fun r => (r < length (promises s))%nat)).
  - unfold onerror. by destruct (sockets s !! k).
  - unfold well_formed. destruct (onclose_frame k s) as [-> ->].
    destruct (sockets s !! k); [| done].
    by apply (set_readyState_Forall (fun r => (r < length (promises s))%nat)).
  - unfold timer_fires. destruct (timers s !! j); [| done].
    by apply connect_well_formed.
Qed.

Lemma run_well_formed evs : forall s, well_formed s -> well_formed (run evs s).
Proof.
  induction evs as [|e evs IH]; intros s Hwf; [done |].
  apply IH. by apply step_well_formed.
Qed.

Lemma connect_orphaned p t s :
  well_formed s -> (p < length (promises s))%nat ->
  orphaned p s -> orphaned p (fst (connect t s)).
Proof.
  unfold orphaned. intros Hwf Hlt [Hp Hs].
  destruct (connect_cases t s) as (_ & _ & Hq & Hsock).
  rewrite Hq by lia. rewrite lookup_app_l by done. split; [done |].
  destruct Hsock as [-> | ->]; [done |].
  apply Forall_app. split; [done |].
  apply Forall_singleton. simpl. lia.
Qed.

Lemma step_orphaned p e s :
  well_formed s -> (p < length (promises s))%nat ->
  orphaned p s ->
  orphaned p (step e s) /\ (p < length (promises (step e s)))%nat.
Proof.
  intros Hwf Hlt Ho. pose proof Ho as [Hp Hs].
  destruct e as [t| |k|k|k|j t]; simpl.
  - split; [by apply connect_orphaned |].
    destruct (connect_cases t s) as (_ & -> & _). lia.
  - unfold orphaned, disconnect. cbv zeta.
    match goal with |- context [stopHeartbeat ?s'] =>
      destruct (stopHeartbeat_frame s') as (-> & -> & _) end.
    simpl. destruct (ws s); simpl; (split; [split; [done |] | done]);
      [| done].
    by apply (close_socket_Forall (fun r => r <> p)).
  - unfold onopen. destruct (sockets s !! k) as [sock|] eqn:Hk; [| done].
    unfold orphaned, resolve, startHeartbeat. cbv zeta. simpl.
    rewrite settle_length.
    match goal with |- context [stopHeartbeat ?s'] =>
      destruct (stopHeartbeat_frame s') as (-> & -> & _) end.
    simpl. split; [| done].
    pose proof (Forall_lookup_1 _ _ _ _ Hs Hk) as Hne. simpl in Hne.
    rewrite settle_other by done. split; [done |].
    by apply (set_readyState_Forall (fun r => r <> p)).
  - unfold onerror. by destruct (sockets s !! k).
  - unfold orphaned. destruct (onclose_frame k s) as [-> ->].
    split; [| done]. split; [done |].
    destruct (sockets s !! k); [| done].
    by apply (set_readyState_Forall (fun r => r <> p)).
  - unfold timer_fires. destruct (timers s !! j); [| done].
    match goal with |- context [connect t ?s'] =>
      split; [apply (connect_orphaned p t s'); done |];
      destruct (connect_cases t s') as (_ & -> & _); simpl; lia
    end.
Qed.

Lemma run_orphaned p evs :
  forall s, well_formed s -> (p < length (promises s))%nat ->
    orphaned p s -> orphaned p (run evs s).
Proof.
  induction evs as [|e evs IH]; intros s Hwf Hlt Ho; [done |].
  destruct (step_orphaned p e s Hwf Hlt Ho) as [Ho' Hlt'].
  apply IH; [by apply step_well_formed | done | done].
Qed.

End Connecting.

(** C9.  In any state the service can reach, if [connect()] is called
    while the connecting flag is set and the socket is not open, the call
    creates no socket and leaves [this.ws] alone, and the promise it
    returns is pending and stays pending whatever happens afterwards:
    it is never resolved and never rejected. *)
Theorem C9_connect_while_connecting_never_settles :
  forall (before after : list WebSocketService.Event) (ctor_throws : bool),
    let s := WebSocketService.run before WebSocketService.initial in
    WebSocketService.isConnecting s = true ->
    WebSocketService.isReady s = false ->
    let s' := fst (WebSocketService.connect ctor_throws s) in
    let p := snd (WebSocketService.connect ctor_throws s) in
    WebSocketService.sockets s' = WebSocketService.sockets s /\
    WebSocketService.ws s' = WebSocketService.ws s /\
    WebSocketService.promises s' !! p = Some WebSocketService.Pending /\
    WebSocketService.promises (WebSocketService.run after s') !! p
    = Some WebSocketService.Pending.
Proof.
  intros before after t s Hc Hr s' p.
  assert (WebSocketService.well_formed s) as Hwf.
  { apply run_well_formed. by apply Forall_nil. }
  assert (s' = WebSocketService.set_manualDisconnect false
                 (WebSocketService.set_promises
                    (WebSocketService.promises s ++ [WebSocketService.Pending])
                    s)) as Hs'.
  { unfold s', WebSocketService.connect. cbv zeta.
    match goal with |- context [WebSocketService.isReady ?x] =>
      change (WebSocketService.isReady x) with (WebSocketService.isReady s);
      change (WebSocketService.isConnecting x)
        with (WebSocketService.isConnecting s) end.
    by rewrite Hr, Hc. }
  assert (p = length (WebSocketService.promises s)) as Hp.
  { unfold p. by destruct (connect_cases t s) as (-> & _). }
  assert (WebSocketService.orphaned p s') as Ho.
  { rewrite Hs', Hp. split; simpl.
    - by rewrite lookup_app_r, Nat.sub_diag by lia.
    - eapply Forall_impl; [exact Hwf | simpl; intros; lia]. }
  split; [by rewrite Hs' |]. split; [by rewrite Hs' |].
  split; [apply Ho |].
  apply run_orphaned; [| | exact Ho].
  - rewrite Hs'. unfold WebSocketService.well_formed. simpl.
    rewrite length_app. simpl.
    eapply Forall_impl; [exact Hwf | simpl; intros; lia].
  - rewrite Hs', Hp. simpl. rewrite length_app. simpl. lia.
Qed.

(** C9 at a concrete input: [connect()] is called twice in a row; the
    first socket then opens, is closed, and the service reconnects. *)
Lemma C9_connect_while_connecting_never_settles_witness :
  let s :=
    WebSocketService.run [WebSocketService.Connect false]
                         WebSocketService.initial in
  let after :=
    [WebSocketService.SocketOpens 0; WebSocketService.SocketCloses 0;
     WebSocketService.ReconnectTimerFires 0 false;
     WebSocketService.SocketOpens 1] in
  WebSocketService.sockets (fst (WebSocketService.connect false s))
  = WebSocketService.sockets s /\
  WebSocketService.promises
    (WebSocketService.run after (fst (WebSocketService.connect false s)))
  !! snd (WebSocketService.connect false s)
  = Some WebSocketService.Pending.
Proof.
  intros s after.
  destruct (C9_connect_while_connecting_never_settles
              [WebSocketService.Connect false] after false)
    as (Hsock & _ & _ & Hpending).
  - reflexivity.
  - reflexivity.
  - split; [exact Hsock | exact Hpending].
Defined.

(** ** The command store: order of the queue and history *)

Section Enqueue.

Import CommandExecutor App.

Lemma store_of_AddCommand c s :
  store_of (App.step (AddCommand c) s) = CommandStore.addCommand c (store_of s).
Proof. reflexivity. Qed.

Lemma store_of_AddCommands cs s :
  store_of (App.step (AddCommands cs) s)
  = CommandStore.addCommands cs (store_of s).
Proof. reflexivity. Qed.

Lemma enqueue_appends (ops : list Enqueue) :
  forall s,
    CommandStore.commands (store_of (App.run (map enqueue_action ops) s))
    = CommandStore.commands (store_of s)
        ++ map CommandStore.with_pending (flat_map commands_of ops).
Proof.
  induction ops as [|op ops IH]; intros s.
  { simpl. by rewrite app_nil_r. }
  change (App.run (map enqueue_action (op :: ops)) s)
    with (App.run (map enqueue_action ops) (App.step (enqueue_action op) s)).
  rewrite IH. destruct op as [c|cs]; simpl enqueue_action.
  - rewrite store_of_AddCommand. simpl. by rewrite <- app_assoc.
  - rewrite store_of_AddCommands. simpl. by rewrite map_app, <- app_assoc.
Qed.

End Enqueue.

(** C7.  For every sequence of enqueue operations ([addCommand] or
    [addCommands], in any mix) applied to any state of the application,
    the command list afterwards is the list before followed by the
    commands enqueued, in the order of the calls (and, within a batch, in
    the order of the batch), and every record appended has status
    [pending]. *)
Theorem C7_enqueue_preserves_call_order :
  forall (ops : list App.Enqueue) (s : App.State),
    let before := CommandStore.commands (App.store_of s) in
    let after :=
      CommandStore.commands
        (App.store_of (App.run (map App.enqueue_action ops) s)) in
    let appended := drop (length before) after in
    after = before ++ appended /\
    map cmd appended = flat_map App.commands_of ops /\
    Forall (fun r => status r = pending) appended.
Proof.
  intros ops s before after appended.
  assert (after = before
            ++ map CommandStore.with_pending (flat_map App.commands_of ops))
    as Hafter by apply enqueue_appends.
  assert (appended
          = map CommandStore.with_pending (flat_map App.commands_of ops))
    as Happ.
  { unfold appended. rewrite Hafter. apply drop_app_length. }
  rewrite Happ. split; [exact Hafter |]. split.
  - rewrite map_map. simpl. apply map_id.
  - apply Forall_map. by apply Forall_true.
Qed.

(** ** History *)

Section History.

Import CommandExecutor App.

Lemma slice_last_app {A} (n : nat) (a b : list A) :
  CommandStore.slice_last n (CommandStore.slice_last n a ++ b)
  = CommandStore.slice_last n (a ++ b).
Proof.
  unfold CommandStore.slice_last.
  rewrite !length_app, length_drop.
  destruct (Nat.le_gt_cases (length a) n) as [Hle|Hgt].
  - replace (length a - n)%nat with 0%nat by lia. simpl.
    by replace (length a - 0)%nat with (length a) by lia.
  - replace (length a - (length a - n) + length b - n)%nat
      with (length b) by lia.
    replace (length a + length b - n)%nat
      with ((length a - n) + length b)%nat by lia.
    rewrite <- drop_drop. f_equal.
    rewrite drop_app_le by lia. done.
Qed.

Lemma slice_last_length {A} (n : nat) (l : list A) :
  (length (CommandStore.slice_last n l) <= n)%nat.
Proof. unfold CommandStore.slice_last. rewrite length_drop. lia. Qed.

Lemma same_history_refl s : same_history s s.
Proof. done. Qed.

Lemma same_history_trans a b c :
  same_history a b -> same_history b c -> same_history a c.
Proof. unfold same_history. congruence. Qed.

Lemma same_history_invoke ev (f : Callback Stores) s :
  keeps_history f -> same_history s (fst (invoke ev f s)).
Proof.
  intros Hf. unfold same_history, invoke. specialize (Hf (host s)).
  by destruct (f (host s)).
Qed.

Lemma store_callbacks_keep_history robot :
  callbacks_satisfy keeps_history (store_callbacks robot).
Proof.
  repeat split; intros; simpl in *; simplify_eq; by intros ?.
Qed.

Lemma store_hooks_keep_history state :
  hooks_satisfy keeps_history (store_hooks state).
Proof.
  repeat split; intros; simpl in *; simplify_eq; by intros ?.
Qed.

(** The runs in flight were all started by [executeCommands]. *)
Lemma executor_step_keeps_history (a : CommandExecutor.Action Stores) m :
  action_satisfies keeps_history a ->
  Forall (task_satisfies keeps_history) (tasks m) ->
  same_history (st m) (st (CommandExecutor.step a m)) /\
  Forall (task_satisfies keeps_history) (tasks (CommandExecutor.step a m)).
Proof.
  intros Ha Hts. destruct a as [commands cbs hooks| |cfg|k]; simpl in *.
  - destruct Ha as [Hc Hh].
    pose proof (R_executeQueue keeps_history same_history same_history_refl
                  same_history_trans same_history_invoke
                  ltac:(done) ltac:(done) commands cbs hooks (st m) Hc Hh)
      as HR.
    destruct (executeQueue commands cbs hooks (st m)) as [s' [t|]] eqn:E;
      simpl in *; [| done].
    split; [done |]. apply Forall_app. split; [done |].
    apply Forall_singleton.
    apply executeQueue_suspended in E as (_ & _ & Hc' & Hh').
    split; by rewrite ?Hc', ?Hh'.
  - done.
  - done.
  - destruct (tasks m !! k) as [t|] eqn:Hk; [| done].
    pose proof (Forall_lookup_1 _ _ _ _ Hts Hk) as Ht.
    pose proof (R_resume keeps_history same_history same_history_refl
                  same_history_trans same_history_invoke
                  ltac:(done) t (st m) Ht) as HR.
    pose proof (resume_suspended t (st m)) as Hs.
    destruct (resume t (st m)) as [s' [t'|]]; simpl in *.
    + split; [done |]. apply Forall_insert; [done |].
      destruct (Hs s' t' eq_refl) as (_ & Hc & Hh).
      destruct Ht as [Htc Hth]. split; by rewrite ?Hc, ?Hh.
    + split; [done |]. by apply Forall_delete.
Qed.

Lemma executeCommands_keeps_history m :
  Forall (task_satisfies keeps_history) (tasks m) ->
  same_history (st m) (st (executeCommands m)) /\
  Forall (task_satisfies keeps_history) (tasks (executeCommands m)).
Proof.
  intros Hts. unfold executeCommands.
  destruct (getIsExecuting (exec (st m))); [done |].
  destruct (length _ =? 0)%nat; [done |].
  apply executor_step_keeps_history; [| done].
  split; [apply store_callbacks_keep_history | apply store_hooks_keep_history].
Qed.

Lemma history_step (a : App.Action) (s : App.State) :
  Forall (task_satisfies keeps_history) (tasks (machine s)) ->
  (CommandStore.history (store_of (App.step a s))
   = CommandStore.history (store_of s) /\ enqueued a = []
   \/
   CommandStore.history (store_of (App.step a s))
   = CommandStore.slice_last 100
       (CommandStore.history (store_of s) ++ enqueued a)) /\
  Forall (task_satisfies keeps_history) (tasks (machine (App.step a s))).
Proof.
  intros Hts. unfold store_of.
  destruct a as [c|cs|id stat err| | |e|b| | | |k]; simpl; auto.
  - destruct (executeCommands_keeps_history (machine s) Hts) as [Hh Ht].
    auto.
  - destruct (autostart s); [auto |]. simpl.
    destruct (executeCommands_keeps_history (machine s) Hts) as [Hh Ht].
    auto.
  - destruct (executor_step_keeps_history (TimerFires k) (machine s) I Hts)
      as [Hh Ht].
    auto.
Qed.

Lemma history_run (acts : list App.Action) :
  forall (s : App.State) (all : list Command),
    Forall (task_satisfies keeps_history) (tasks (machine s)) ->
    CommandStore.history (store_of s) = CommandStore.slice_last 100 all ->
    CommandStore.history (store_of (App.run acts s))
    = CommandStore.slice_last 100 (all ++ flat_map enqueued acts).
Proof.
  induction acts as [|a acts IH]; intros s all Hts Hh.
  { simpl. by rewrite app_nil_r. }
  change (App.run (a :: acts) s) with (App.run acts (App.step a s)).
  destruct (history_step a s Hts) as [Hstep Hts'].
  simpl. rewrite app_assoc. apply IH; [done |].
  destruct Hstep as [[Hsame He]|Hadd].
  - by rewrite Hsame, He, app_nil_r.
  - rewrite Hadd, Hh. apply slice_last_app.
Qed.

End History.

(** C8.  At every moment the history holds the commands enqueued so far,
    oldest first, cut down to the last 100: whatever sequence of store
    operations and timer events the application has gone through since
    start-up, the history is the list of all commands enqueued, in order,
    without its first elements beyond 100.  After 105 single enqueues of
    the commands [c 0 .. c 104] it is exactly [c 5 .. c 104]. *)
Theorem C8_history_keeps_last_hundred :
  forall (acts : list App.Action) (c : nat -> Command),
    let all := flat_map App.enqueued acts in
    let history := CommandStore.history (App.store_of (App.run acts App.initial)) in
    history = drop (length all - 100) all /\
    (length history <= 100)%nat /\
    APP_CONFIG.MAX_HISTORY_SIZE = 100%nat /\
    CommandStore.history
      (App.store_of
         (App.run (map (fun i => App.AddCommand (c i)) (seq 0 105)) App.initial))
    = map c (seq 5 100).
Proof.
  intros acts c all history.
  assert (forall l, CommandStore.history (App.store_of (App.run l App.initial))
                    = CommandStore.slice_last 100 (flat_map App.enqueued l))
    as Hgen.
  { intros l. by apply (history_run l App.initial []). }
  split; [apply Hgen |]. split; [| split; [reflexivity |]].
  - unfold history. rewrite Hgen. apply slice_last_length.
  - rewrite Hgen. reflexivity.
Qed.

(** ** Streaming audio chunks *)

Section AudioChunks.

Import VoiceCall.

Lemma base64_encode_drop (k : nat) :
  forall data : list byte,
    drop (4 * k) (base64_encode data) = base64_encode (drop (3 * k) data).
Proof.
  induction k as [|k IH]; intros data; [done |].
  replace (4 * S k)%nat with (4 + 4 * k)%nat by lia.
  replace (3 * S k)%nat with (3 + 3 * k)%nat by lia.
  destruct data as [|a [|b [|c rest]]].
  - by rewrite !drop_nil.
  - cbn [base64_encode]. rewrite <- !drop_drop. simpl. by rewrite !drop_nil.
  - cbn [base64_encode]. rewrite <- !drop_drop. simpl. by rewrite !drop_nil.
  - cbn [base64_encode]. rewrite <- !drop_drop.
    change (drop 3 (a :: b :: c :: rest)) with rest.
    rewrite <- IH. reflexivity.
Qed.

Lemma sendAudioChunk_cases (s : Session) (f : FileView) :
  let s' := sendAudioChunk (Some f) s in
  let chunk := drop (ceil_div3 (lastAudioPosition s) * 4)
                    (base64_encode (file_data f)) in
  s' = s \/
  (chunk <> [] /\
   (lastAudioPosition s < file_size f)%nat /\
   sent s' = sent s ++ [(chunk, isFirstChunk s)] /\
   lastAudioPosition s' = file_size f /\
   isFirstChunk s' = false /\
   isInCall s' = isInCall s).
Proof.
  intros s' chunk. unfold s', sendAudioChunk.
  destruct (negb (isInCall s)); [by left |].
  destruct (negb (file_exists f) || (file_size f =? 0)%nat); [by left |].
  destruct (Nat.leb_spec (file_size f) (lastAudioPosition s)); [by left |].
  fold (base64Start s). unfold newChunk, base64Start. fold chunk.
  destruct chunk as [|c0 chunk'] eqn:Hc; [by left |].
  right. simpl. repeat split; done.
Qed.

Lemma first_flags_snoc (n : nat) :
  (0 < n)%nat -> first_flags n ++ [false] = first_flags (S n).
Proof.
  destruct n as [|m]; [lia |]. intros _. simpl. f_equal.
  change [false] with (repeat false 1). rewrite <- repeat_app.
  by replace (m + 1)%nat with (S m) by lia.
Qed.

Lemma ticks_flags (views : list (option FileView)) :
  forall s,
    map snd (sent s) = first_flags (length (sent s)) ->
    (isFirstChunk s = true <-> sent s = []) ->
    Forall (fun c => fst c <> []) (sent s) ->
    map snd (sent (ticks views s))
    = first_flags (length (sent (ticks views s))) /\
    Forall (fun c => fst c <> []) (sent (ticks views s)).
Proof.
  induction views as [|v views IH]; intros s Hflags Hfirst Hne; [done |].
  change (ticks (v :: views) s) with (ticks views (sendAudioChunk v s)).
  destruct v as [f|]; [| by apply IH].
  destruct (sendAudioChunk_cases s f)
    as [->|(Hc & _ & Hsent & _ & Hff & _)]; [by apply IH |].
  apply IH.
  - rewrite Hsent, map_app, length_app, Hflags. simpl.
    destruct (sent s) as [|c0 l] eqn:Hs.
    + simpl. f_equal. by apply Hfirst.
    + destruct (isFirstChunk s) eqn:Hb.
      * destruct Hfirst as [Hfirst _]. by specialize (Hfirst eq_refl).
      * rewrite first_flags_snoc by (simpl; lia).
        by replace (length (c0 :: l) + 1)%nat with (S (length (c0 :: l)))
          by lia.
  - rewrite Hff, Hsent. split; [done |]. intros Happ.
    by destruct (sent s).
  - rewrite Hsent. apply Forall_app. split; [done |].
    by apply Forall_singleton.
Qed.

End AudioChunks.

(** ** Decoding what was encoded; when a chunk is sent *)

Section Base64RoundTrip.

Import VoiceCall.

Lemma sextet_table :
  forallb (fun i =>
             match unsextet (sextet (N.of_nat i)) with
             | Some r => N.eqb r (N.of_nat i)
             | None => false
             end && negb (Ascii.eqb (sextet (N.of_nat i)) "="))
          (seq 0 64) = true.
Proof. vm_compute. reflexivity. Qed.

Lemma unsextet_sextet (m : N) :
  (m < 64)%N ->
  unsextet (sextet m) = Some m /\ Ascii.eqb (sextet m) "=" = false.
Proof.
  intros Hm. pose proof sextet_table as Ht.
  rewrite forallb_forall in Ht.
  specialize (Ht (N.to_nat m)). rewrite N2Nat.id in Ht.
  assert (In (N.to_nat m) (seq 0 64)) as Hin by (apply in_seq; lia).
  apply Ht in Hin. apply andb_prop in Hin as [H1 H2].
  apply negb_true_iff in H2. split; [| done].
  destruct (unsextet (sextet m)) as [r|]; [| done].
  apply N.eqb_eq in H1. by subst.
Qed.

Lemma land_63 (x : N) : N.land x 63 = (x mod 64)%N.
Proof. change 63%N with (N.ones 6). by rewrite N.land_ones. Qed.

Lemma land_255 (x : N) : N.land x 255 = (x mod 256)%N.
Proof. change 255%N with (N.ones 8). by rewrite N.land_ones. Qed.

Lemma lor_shiftl_add (x y k : N) :
  (y < 2 ^ k)%N -> N.lor (N.shiftl x k) y = (x * 2 ^ k + y)%N.
Proof.
  intros Hy. rewrite N.shiftl_mul_pow2.
  assert (N.land (x * 2 ^ k) y = 0%N) as Hland; [|
    by rewrite <- (N.lxor_lor _ _ Hland), <- (N.add_nocarry_lxor _ _ Hland)].
  apply N.bits_inj. intros i.
  rewrite N.land_spec, N.bits_0.
  destruct (N.lt_ge_cases i k) as [Hi|Hi].
  - rewrite N.mul_pow2_bits_low by done. done.
  - destruct (N.eq_dec y 0%N) as [->|Hy0];
      [by rewrite N.bits_0, andb_false_r |].
    rewrite (N.bits_above_log2 y i), andb_false_r; [done |].
    apply N.log2_lt_pow2 in Hy; [| lia]. lia.
Qed.

Lemma group3_value (a b c : byte) :
  group3 a b c
  = (Byte.to_N a * 65536 + (Byte.to_N b * 256 + Byte.to_N c))%N.
Proof.
  pose proof (Byte.to_N_bounded a). pose proof (Byte.to_N_bounded b).
  pose proof (Byte.to_N_bounded c).
  unfold group3.
  rewrite (lor_shiftl_add (Byte.to_N b) (Byte.to_N c) 8) by (simpl; lia).
  rewrite (lor_shiftl_add (Byte.to_N a) _ 16) by (simpl; lia).
  reflexivity.
Qed.

Lemma sextet_at_spec (n shift : N) :
  unsextet (sextet_at n shift) = Some ((n / 2 ^ shift) mod 64)%N /\
  Ascii.eqb (sextet_at n shift) "=" = false.
Proof.
  unfold sextet_at. rewrite land_63, N.shiftr_div_pow2.
  apply unsextet_sextet. apply N.mod_lt. lia.
Qed.

Lemma byte_at_value (n shift : N) (a : byte) :
  ((n / 2 ^ shift) mod 256)%N = Byte.to_N a -> byte_at n shift = Some a.
Proof.
  intros Hn. unfold byte_at. rewrite land_255, N.shiftr_div_pow2, Hn.
  apply Byte.of_to_N.
Qed.

Lemma regroup4 (n : N) :
  (n < 16777216)%N ->
  N.lor (N.shiftl ((n / 2 ^ 18) mod 64) 18)
    (N.lor (N.shiftl ((n / 2 ^ 12) mod 64) 12)
       (N.lor (N.shiftl ((n / 2 ^ 6) mod 64) 6) ((n / 2 ^ 0) mod 64)))
  = n.
Proof.
  intros Hn.
  assert (((n / 2 ^ 0) mod 64 < 2 ^ 6)%N) as H0 by (apply N.mod_lt; lia).
  rewrite (lor_shiftl_add _ _ 6) by done.
  rewrite (lor_shiftl_add _ _ 12).
  2: { change (2 ^ 12)%N with 4096%N. change (2 ^ 6)%N with 64%N in *.
       pose proof (N.mod_lt (n / 64) 64 ltac:(lia)).
       pose proof (N.mod_lt (n / 2 ^ 0) 64 ltac:(lia)). lia. }
  rewrite (lor_shiftl_add _ _ 18).
  2: { change (2 ^ 18)%N with 262144%N. change (2 ^ 12)%N with 4096%N.
       change (2 ^ 6)%N with 64%N.
       pose proof (N.mod_lt (n / 4096) 64 ltac:(lia)).
       pose proof (N.mod_lt (n / 64) 64 ltac:(lia)).
       pose proof (N.mod_lt (n / 2 ^ 0) 64 ltac:(lia)). lia. }
  change (2 ^ 18)%N with 262144%N. change (2 ^ 12)%N with 4096%N.
  change (2 ^ 6)%N with 64%N. change (2 ^ 0)%N with 1%N.
  zify. Z.to_euclidean_division_equations. lia.
Qed.

Lemma group3_lt (a b c : byte) : (group3 a b c < 16777216)%N.
Proof.
  pose proof (Byte.to_N_bounded a). pose proof (Byte.to_N_bounded b).
  pose proof (Byte.to_N_bounded c). rewrite group3_value. lia.
Qed.

Lemma group3_bytes (a b c : byte) :
  byte_at (group3 a b c) 16 = Some a /\
  byte_at (group3 a b c) 8 = Some b /\
  byte_at (group3 a b c) 0 = Some c.
Proof.
  pose proof (Byte.to_N_bounded a). pose proof (Byte.to_N_bounded b).
  pose proof (Byte.to_N_bounded c).
  repeat split; apply byte_at_value; rewrite group3_value;
    [change (2 ^ 16)%N with 65536%N | change (2 ^ 8)%N with 256%N
     | change (2 ^ 0)%N with 1%N];
    zify; Z.to_euclidean_division_equations; lia.
Qed.

Lemma regroup3 (n : N) :
  (n < 16777216)%N -> (n mod 64 = 0)%N ->
  N.lor (N.shiftl ((n / 2 ^ 18) mod 64) 18)
    (N.lor (N.shiftl ((n / 2 ^ 12) mod 64) 12)
       (N.shiftl ((n / 2 ^ 6) mod 64) 6))
  = n.
Proof.
  intros Hn H0. rewrite <- (regroup4 n Hn) at 4.
  change (2 ^ 0)%N with 1%N. rewrite N.div_1_r, H0.
  by rewrite N.lor_0_r.
Qed.

Lemma regroup2 (n : N) :
  (n < 16777216)%N -> (n mod 4096 = 0)%N ->
  N.lor (N.shiftl ((n / 2 ^ 18) mod 64) 18)
        (N.shiftl ((n / 2 ^ 12) mod 64) 12)
  = n.
Proof.
  intros Hn H0. rewrite <- (regroup3 n Hn) at 3.
  - assert (((n / 2 ^ 6) mod 64)%N = 0%N) as ->; [| by rewrite N.shiftl_0_l, N.lor_0_r].
    change (2 ^ 6)%N with 64%N.
    zify. Z.to_euclidean_division_equations. lia.
  - zify. Z.to_euclidean_division_equations. lia.
Qed.

Lemma base64_encode_nil (l : list byte) : base64_encode l = [] -> l = [].
Proof. by destruct l as [|a [|b [|c rest]]]. Qed.

Lemma decode_groups_encode (fuel : nat) :
  forall l : list byte,
    (length l <= 3 * fuel)%nat ->
    base64_decode_groups fuel (base64_encode l) = Some l.
Proof.
  induction fuel as [|fuel IH]; intros l Hl.
  { destruct l; [done | simpl in Hl; lia]. }
  destruct l as [|a [|b [|c rest]]]; [done | | |].
  - cbn [base64_encode base64_decode_groups].
    set (n := group3 a "000" "000").
    change (Ascii.eqb "=" "=") with true. cbv iota.
    destruct (sextet_at_spec n 18) as [-> _].
    destruct (sextet_at_spec n 12) as [-> _].
    cbn [mbind option_bind].
    rewrite regroup2.
    + subst n. by destruct (group3_bytes a "000" "000") as (-> & _).
    + apply group3_lt.
    + unfold n. rewrite group3_value. cbn [Byte.to_N].
      zify. Z.to_euclidean_division_equations. lia.
  - cbn [base64_encode base64_decode_groups].
    set (n := group3 a b "000").
    change (Ascii.eqb "=" "=") with true. cbv iota.
    destruct (sextet_at_spec n 18) as [-> _].
    destruct (sextet_at_spec n 12) as [-> _].
    destruct (sextet_at_spec n 6) as [-> ->].
    cbn [mbind option_bind].
    rewrite regroup3.
    + subst n. by destruct (group3_bytes a b "000") as (-> & -> & _).
    + apply group3_lt.
    + unfold n. rewrite group3_value. cbn [Byte.to_N].
      zify. Z.to_euclidean_division_equations. lia.
  - cbn [base64_encode app].
    set (n := group3 a b c).
    destruct (base64_encode rest) as [|c5 tl] eqn:E.
    + apply base64_encode_nil in E as ->.
      cbn [base64_decode_groups].
      destruct (sextet_at_spec n 18) as [-> _].
      destruct (sextet_at_spec n 12) as [-> _].
      destruct (sextet_at_spec n 6) as [-> _].
      destruct (sextet_at_spec n 0) as [-> ->].
      cbn [mbind option_bind].
      rewrite regroup4 by apply group3_lt. subst n.
      by destruct (group3_bytes a b c) as (-> & -> & ->).
    + cbn [base64_decode_groups].
      destruct (sextet_at_spec n 18) as [-> _].
      destruct (sextet_at_spec n 12) as [-> _].
      destruct (sextet_at_spec n 6) as [-> _].
      destruct (sextet_at_spec n 0) as [-> _].
      cbn [mbind option_bind].
      rewrite regroup4 by apply group3_lt. subst n.
      destruct (group3_bytes a b c) as (-> & -> & ->).
      cbn [mbind option_bind].
      rewrite <- E, IH by (simpl in Hl; lia). done.
Qed.

Lemma base64_encode_length (l : list byte) :
  length (base64_encode l) = (4 * ceil_div3 (length l))%nat.
Proof.
  assert (forall k (l : list byte), (length l <= 3 * k)%nat ->
            length (base64_encode l) = (4 * ceil_div3 (length l))%nat) as H.
  { induction k as [|k IH]; intros l0 Hl.
    - destruct l0; [done | simpl in Hl; lia].
    - destruct l0 as [|a [|b [|c rest]]]; try done.
      cbn [base64_encode length app]. rewrite IH by (simpl in Hl; lia).
      unfold ceil_div3.
      replace (S (S (S (length rest))) + 2)%nat
        with (1 * 3 + (length rest + 2))%nat by lia.
      rewrite Nat.div_add_l by lia. lia. }
  apply (H (length l)). lia.
Qed.

Lemma base64_decode_encode (l : list byte) :
  base64_decode (base64_encode l) = Some l.
Proof.
  unfold base64_decode. apply decode_groups_encode.
  rewrite base64_encode_length. unfold ceil_div3.
  pose proof (Nat.div_mod_eq (length l + 2) 3).
  pose proof (Nat.mod_upper_bound (length l + 2) 3). lia.
Qed.

Lemma base64_encode_nonempty (l : list byte) :
  l <> [] -> (0 <? length (base64_encode l))%nat = true.
Proof. by destruct l as [|a [|b [|c rest]]]. Qed.

Lemma newChunk_bytes (s : Session) (f : FileView) :
  newChunk s f
  = base64_encode (drop (3 * ceil_div3 (lastAudioPosition s)) (file_data f)).
Proof.
  unfold newChunk, base64Start. rewrite Nat.mul_comm.
  apply base64_encode_drop.
Qed.

Lemma sendAudioChunk_sends (s : Session) (f : FileView) :
  isInCall s = true ->
  file_exists f = true ->
  (lastAudioPosition s < file_size f)%nat ->
  (3 * ceil_div3 (lastAudioPosition s) < length (file_data f))%nat ->
  sendAudioChunk (Some f) s
  = {| isInCall := true;
       lastAudioPosition := file_size f;
       isFirstChunk := false;
       sent := sent s
                 ++ [(base64_encode
                        (drop (3 * ceil_div3 (lastAudioPosition s))
                              (file_data f)),
                      isFirstChunk s)] |}.
Proof.
  intros Hcall Hex Hlt Hdata. unfold sendAudioChunk.
  rewrite Hcall, Hex. cbn [negb orb].
  destruct (Nat.eqb_spec (file_size f) 0) as [E|_]; [lia |].
  destruct (Nat.leb_spec (file_size f) (lastAudioPosition s)); [lia |].
  rewrite newChunk_bytes, base64_encode_nonempty; [done |].
  intros E. apply (f_equal length) in E. rewrite length_drop in E.
  simpl in E. lia.
Qed.

Lemma sendAudioChunk_skips (s : Session) (f : FileView) :
  isInCall s = false \/ file_exists f = false \/
  (file_size f <= lastAudioPosition s)%nat \/
  (length (file_data f) <= 3 * ceil_div3 (lastAudioPosition s))%nat ->
  sendAudioChunk (Some f) s = s.
Proof.
  intros Hcase. unfold sendAudioChunk.
  destruct (isInCall s); [| done]. cbn [negb].
  destruct (file_exists f); [| done]. cbn [negb orb].
  destruct (Nat.eqb_spec (file_size f) 0); [done |].
  destruct (Nat.leb_spec (file_size f) (lastAudioPosition s)); [done |].
  destruct Hcase as [?|[?|[?|Hdata]]]; try done; try lia.
  rewrite newChunk_bytes, drop_ge by done. done.
Qed.

Lemma ceil_div3_bounds (n : nat) :
  (n <= 3 * ceil_div3 n < n + 3)%nat /\
  ((n mod 3 <> 0)%nat -> (n < 3 * ceil_div3 n)%nat).
Proof.
  unfold ceil_div3.
  pose proof (Nat.div_mod_eq (n + 2) 3).
  pose proof (Nat.mod_upper_bound (n + 2) 3).
  pose proof (Nat.div_mod_eq n 3).
  pose proof (Nat.mod_upper_bound n 3).
  split; [lia |]. intros Hn.
  assert (((n + 2) / 3 = n / 3 + 1)%nat); [| lia].
  symmetry. apply (Nat.div_unique _ 3 _ (n mod 3 - 1)); lia.
Qed.

End Base64RoundTrip.

(** C6.  What a tick sends.  With the call on, the file there and larger
    than the sent-offset [last], a chunk is sent exactly when the file
    holds bytes beyond offset [3 * ceil(last / 3)], the encoding-group
    boundary at or after [last]; in every other case nothing is sent and
    the session is left as it is.  The chunk is the suffix of the full
    base64 encoding of the file from character index [ceil(last / 3) * 4]
    on, and it decodes to the bytes of the file from that boundary on: when
    [last] is not a multiple of 3, the one or two bytes from [last] up to
    the boundary are in no chunk.  After a send the sent-offset is the size
    of the file and the first-chunk marker is off.  Over a session, every
    chunk sent is non-empty and the first-chunk marker is [true] on the
    first of them and [false] on all later ones.  With growth 0 to 10
    then 10 to 22 bytes, whatever the bytes, the first tick sends the
    encoding of bytes [0,10) marked first, and the second tick sends the
    characters of the encoding from index 16 on, which decode to the bytes
    [12,22): the chunk does not cover the bytes [10,22), bytes 10 and 11
    reach no chunk. *)
Theorem C6_chunk_skips_bytes_before_group_boundary :
  forall (s : VoiceCall.Session) (f : VoiceCall.FileView)
    (views : list (option VoiceCall.FileView)) (data : list byte),
    let last := VoiceCall.lastAudioPosition s in
    let start := (3 * VoiceCall.ceil_div3 last)%nat in
    let chunk := VoiceCall.base64_encode (drop start (VoiceCall.file_data f)) in
    (VoiceCall.isInCall s = true ->
     VoiceCall.file_exists f = true ->
     (last < VoiceCall.file_size f)%nat ->
     (start < length (VoiceCall.file_data f))%nat ->
     VoiceCall.sendAudioChunk (Some f) s
     = {| VoiceCall.isInCall := true;
          VoiceCall.lastAudioPosition := VoiceCall.file_size f;
          VoiceCall.isFirstChunk := false;
          VoiceCall.sent :=
            VoiceCall.sent s ++ [(chunk, VoiceCall.isFirstChunk s)] |}) /\
    (VoiceCall.isInCall s = false \/ VoiceCall.file_exists f = false \/
     (VoiceCall.file_size f <= last)%nat \/
     (length (VoiceCall.file_data f) <= start)%nat ->
     VoiceCall.sendAudioChunk (Some f) s = s) /\
    (chunk
     = drop (VoiceCall.ceil_div3 last * 4)
            (VoiceCall.base64_encode (VoiceCall.file_data f)) /\
     VoiceCall.base64_decode chunk
     = Some (drop start (VoiceCall.file_data f))) /\
    ((last <= start < last + 3)%nat /\
     ((last mod 3 <> 0)%nat -> (last < start)%nat)) /\
    (map snd (VoiceCall.sent (VoiceCall.ticks views VoiceCall.started))
     = VoiceCall.first_flags
         (length (VoiceCall.sent (VoiceCall.ticks views VoiceCall.started))) /\
     Forall (fun c => fst c <> [])
            (VoiceCall.sent (VoiceCall.ticks views VoiceCall.started))) /\
    (length data = 22%nat ->
     let s2 := VoiceCall.two_ticks data in
     let chunk2 := VoiceCall.base64_encode (drop 12 data) in
     VoiceCall.sent s2
     = [(VoiceCall.base64_encode (take 10 data), true); (chunk2, false)] /\
     VoiceCall.lastAudioPosition s2 = 22%nat /\
     VoiceCall.base64_decode (VoiceCall.base64_encode (take 10 data))
     = Some (take 10 data) /\
     VoiceCall.base64_decode chunk2 = Some (drop 12 data) /\
     ~ VoiceCall.covers chunk2 data 10 22).
Proof.
  intros s f views data last start chunk.
  split; [apply sendAudioChunk_sends |].
  split; [apply sendAudioChunk_skips |].
  split; [split |].
  - unfold chunk, start, last.
    rewrite (Nat.mul_comm (VoiceCall.ceil_div3 _) 4).
    symmetry. apply base64_encode_drop.
  - apply base64_decode_encode.
  - split; [apply ceil_div3_bounds |]. split; [by apply ticks_flags |].
    intros Hlen s2 chunk2.
    assert (VoiceCall.sent s2
            = [(VoiceCall.base64_encode (take 10 data), true);
               (chunk2, false)] /\
            VoiceCall.lastAudioPosition s2 = 22%nat) as [Hsent Hlast].
    { unfold s2, chunk2.
      do 22 (destruct data as [|? data]; [discriminate Hlen |]).
      destruct data; [| discriminate Hlen].
      split; [| reflexivity].
      cbv [VoiceCall.two_ticks VoiceCall.ticks foldl].
      reflexivity. }
    split; [exact Hsent |]. split; [exact Hlast |].
    split; [apply base64_decode_encode |].
    split; [apply base64_decode_encode |].
    intros [pre Hpre]. unfold chunk2 in Hpre.
    rewrite base64_decode_encode in Hpre. injection Hpre as Hpre.
    apply (f_equal length) in Hpre.
    rewrite length_app, !length_drop, length_take in Hpre. lia.
Qed.

(** C6 at a concrete input: the recording [recording22], of which 10
    bytes are there at the first tick. *)
Lemma C6_chunk_skips_bytes_before_group_boundary_witness :
  let s1 :=
    VoiceCall.ticks
      [Some (VoiceCall.file_of (take 10 VoiceCall.recording22))]
      VoiceCall.started in
  let chunk2 := VoiceCall.base64_encode (drop 12 VoiceCall.recording22) in
  VoiceCall.sendAudioChunk (Some (VoiceCall.file_of VoiceCall.recording22)) s1
  = {| VoiceCall.isInCall := true;
       VoiceCall.lastAudioPosition := 22;
       VoiceCall.isFirstChunk := false;
       VoiceCall.sent := VoiceCall.sent s1 ++ [(chunk2, false)] |} /\
  VoiceCall.base64_decode chunk2 = Some (drop 12 VoiceCall.recording22) /\
  ~ VoiceCall.covers chunk2 VoiceCall.recording22 10 22.
Proof.
  intros s1 chunk2.
  destruct (C6_chunk_skips_bytes_before_group_boundary s1
              (VoiceCall.file_of VoiceCall.recording22) []
              VoiceCall.recording22)
    as (Hsends & _ & _ & _ & _ & Hexample).
  destruct (Hexample eq_refl) as (_ & _ & _ & Hdecode & Hmisses).
  split; [| split; [exact Hdecode | exact Hmisses]].
  apply Hsends.
  - reflexivity.
  - reflexivity.
  - vm_compute. lia.
  - vm_compute. lia.
Defined.

(** * Further properties *)

(** ** A run that nothing interrupts *)

Section RunToCompletion.

Import CommandExecutor ExecutorRun.

Context {H : Type}.

Variable cbs : ExecutorCallbacks H.
Variable hooks : QueueHooks H.
Hypothesis Hcbs : callbacks_satisfy never_throws cbs.
Hypothesis Hhooks : hooks_satisfy never_throws hooks.
Hypothesis Hget : getPosition_total cbs.

Lemma invoke_fst ev (f : Callback H) (s : St H) :
  never_throws f -> invoke ev f s = (fst (invoke ev f s), None).
Proof.
  intros Hf. unfold invoke. specialize (Hf (host s)).
  destruct (f (host s)) as [h' t]. simpl in *. by subst t.
Qed.

Lemma invoke_opt_fst {B} ev (h : option B) (app : B -> Callback H) (s : St H) :
  (forall f, h = Some f -> never_throws (app f)) ->
  invoke_opt ev (app <$> h) s = (fst (invoke_opt ev (app <$> h) s), None).
Proof.
  intros Hf. destruct h as [f|]; simpl; [| done]. apply invoke_fst. auto.
Qed.

Lemma invoke_opt_trace {B} ev (h : option B) (app : B -> Callback H) (s : St H) :
  trace (fst (invoke_opt ev (app <$> h) s)) = trace s ++ opt_event h ev.
Proof.
  destruct h as [f|]; simpl; [apply invoke_trace | by rewrite app_nil_r].
Qed.

Lemma elapse_S n ph (s : St H) :
  elapse (S n) cbs (s, Awaiting ph) = elapse n cbs (executeCommand_resume ph cbs s).
Proof. reflexivity. Qed.

Lemma elapse_returned n (s : St H) : elapse n cbs (s, Returned) = (s, Returned).
Proof. by destruct n. Qed.

Lemma elapse_threw n e (s : St H) : elapse n cbs (s, Threw e) = (s, Threw e).
Proof. by destruct n. Qed.

Lemma elapse_animate (fr : Frame) :
  forall n i (s : St H),
    signal_aborted (exec s) = false ->
    (i + n = steps fr)%nat ->
    elapse (S n) cbs (s, Awaiting (SleepStep fr i))
    = (fst (invoke (EvPositionUpdate (targetPos fr))
                   (onPositionUpdate cbs (targetPos fr))
                   (animate cbs fr i (S n) s)), Returned).
Proof.
  destruct Hcbs as (Hp & _).
  induction n as [|n IH]; intros i s Hsig Hin; rewrite elapse_S;
    cbn [executeCommand_resume]; rewrite invoke_fst by apply Hp;
    unfold loop_head.
  - destruct (Nat.leb_spec (S i) (steps fr)) as [Hle|_]; [lia |].
    rewrite invoke_fst by apply Hp. reflexivity.
  - destruct (Nat.leb_spec (S i) (steps fr)) as [_|Hgt]; [| lia].
    rewrite invoke_exec, Hsig.
    rewrite IH by (rewrite ?invoke_exec; done || lia). reflexivity.
Qed.

Lemma elapse_sync c (s : St H) :
  signal_aborted (exec s) = false ->
  exists n,
    elapse n cbs (executeCommand_start c cbs s)
    = (executeCommand_sync c cbs s, Returned).
Proof.
  intros Hsig. destruct Hcbs as (Hp & _).
  unfold executeCommand_start, executeCommand_sync.
  destruct (Hget (host s)) as [cur ->].
  destruct (position_eqb cur (calculateTargetPosition c cur)).
  { exists 1%nat. reflexivity. }
  set (fr := new_frame (config (exec s)) cur (calculateTargetPosition c cur)).
  change (calculateTargetPosition c cur) with (targetPos fr).
  unfold loop_head. destruct (steps fr) as [|k] eqn:Hk.
  - exists 0%nat. simpl. rewrite invoke_fst by apply Hp. reflexivity.
  - change (1 <=? S k)%nat with true. cbv iota. rewrite Hsig.
    exists (S k). rewrite elapse_animate by (done || lia). reflexivity.
Qed.

Lemma elapse_exec n :
  forall (sr : St H * CmdResult),
    exec (fst (elapse n cbs sr)) = exec (fst sr).
Proof.
  induction n as [|n IH]; intros [s r]; [done |].
  destruct r as [| e | ph]; try done.
  rewrite elapse_S, IH. apply executeCommand_resume_exec.
Qed.

Lemma drive_none n (s : St H) : drive n (s, None) = (s, None).
Proof. by destruct n. Qed.

Lemma drive_add n m (r : St H * option (Task H)) :
  drive (n + m) r = drive m (drive n r).
Proof.
  revert r. induction n as [|n IH]; intros [s [t|]]; simpl; try done.
  by rewrite drive_none.
Qed.

Lemma drive_settle c i later :
  forall n (s : St H) r s',
    elapse n cbs (s, r) = (s', Returned) ->
    exists m,
      drive m (settle_command cbs hooks c i later
                 (queue_loop cbs hooks later (S i)) r s)
      = settle_command cbs hooks c i later
          (queue_loop cbs hooks later (S i)) Returned s'.
Proof.
  induction n as [|n IH]; intros s r s' He.
  - simpl in He. injection He as -> ->. by exists 0%nat.
  - destruct r as [| e | ph].
    + rewrite elapse_returned in He. injection He as ->. by exists 0%nat.
    + rewrite elapse_threw in He. discriminate.
    + rewrite elapse_S in He.
      destruct (executeCommand_resume ph cbs s) as [s1 r1] eqn:Hr.
      destruct (IH s1 r1 s' He) as [m Hm].
      exists (S m). cbn [settle_command drive]. unfold resume.
      cbn [t_phase t_callbacks t_hooks t_current t_index t_later].
      rewrite Hr. exact Hm.
Qed.

Lemma after_loop_is_sync (s : St H) : after_loop cbs s = after_loop_sync cbs s.
Proof.
  destruct Hcbs as (_ & Hs & Ha). unfold after_loop, after_loop_sync.
  rewrite invoke_opt_fst by eauto. cbv iota beta.
  rewrite invoke_opt_fst by eauto. reflexivity.
Qed.

Lemma queue_refines rest :
  forall i (s : St H),
    abortController (exec s) = Some {| aborted := false |} ->
    exists n,
      drive n (queue_loop cbs hooks rest i s)
      = (queue_sync cbs hooks rest i s, None).
Proof.
  pose proof Hcbs as (Hp & Hs & Ha). pose proof Hhooks as (Hst & Hco & Her).
  induction rest as [|c later IH]; intros i s Hac.
  { exists 0%nat. simpl. by rewrite after_loop_is_sync. }
  cbn [queue_loop queue_sync]. rewrite Hac. cbn [aborted].
  rewrite invoke_opt_fst by eauto. cbv iota beta.
  set (s1 := fst (invoke_opt (EvCommandStart c i) _ s)).
  assert (exec s1 = exec s) as He1 by apply invoke_opt_exec.
  rewrite invoke_opt_fst by eauto. cbv iota beta.
  set (s2 := fst (invoke_opt (EvActionChange (Some (description c))) _ s1)).
  assert (exec s2 = exec s) as He2.
  { unfold s2. by rewrite invoke_opt_exec. }
  assert (signal_aborted (exec s2) = false) as Hsig.
  { unfold signal_aborted. by rewrite He2, Hac. }
  destruct (elapse_sync c s2 Hsig) as [n0 Hn0].
  pose proof (elapse_exec n0 (executeCommand_start c cbs s2)) as He3.
  rewrite Hn0, executeCommand_start_exec in He3. simpl in He3.
  destruct (executeCommand_start c cbs s2) as [s3 r].
  destruct (drive_settle c i later n0 s3 r _ Hn0) as [m Hm].
  set (s4 := fst (invoke_opt (EvCommandComplete c i)
                    ((fun f => f c i) <$> onCommandComplete hooks)
                    (executeCommand_sync c cbs s2))).
  destruct (IH (S i) s4) as [n1 Hn1].
  { unfold s4. by rewrite invoke_opt_exec, He3, He2. }
  exists (m + n1)%nat. rewrite drive_add, Hm. cbn [settle_command].
  rewrite invoke_opt_fst by eauto. exact Hn1.
Qed.

Lemma executeQueue_refines commands (s : St H) :
  exists n,
    drive n (executeQueue commands cbs hooks s)
    = (executeQueue_sync commands cbs hooks s, None).
Proof.
  pose proof Hcbs as (Hp & Hs & Ha).
  unfold executeQueue, executeQueue_sync.
  destruct (isExecuting (exec s)); [by exists 0%nat |].
  destruct (length commands =? 0)%nat; [by exists 0%nat |].
  rewrite invoke_opt_fst by eauto. cbv iota beta.
  apply queue_refines. cbn [fst]. by rewrite invoke_opt_exec.
Qed.

End RunToCompletion.

Section SyncFacts.

Import CommandExecutor ExecutorRun.

Context {H : Type}.

Implicit Types (cbs : ExecutorCallbacks H) (hooks : QueueHooks H) (s : St H).

Lemma run_timers n (r : St H * option (Task H)) :
  CommandExecutor.run (repeat (TimerFires 0) n) (machine_of r)
  = machine_of (drive n r).
Proof.
  revert r. induction n as [|n IH]; intros [s [t|]]; try done.
  - change (CommandExecutor.run (repeat (TimerFires 0) (S n))
              (machine_of (s, Some t)))
      with (CommandExecutor.run (repeat (TimerFires 0) n)
              (CommandExecutor.step (TimerFires 0) (machine_of (s, Some t)))).
    cbn [drive]. rewrite <- IH. f_equal.
    unfold CommandExecutor.step, machine_of. simpl.
    by destruct (resume t s) as [s' [t'|]].
  - change (CommandExecutor.run (repeat (TimerFires 0) (S n))
              (machine_of (s, None)))
      with (CommandExecutor.run (repeat (TimerFires 0) n) (machine_of (s, None))).
    rewrite IH. by rewrite !drive_none.
Qed.

Lemma call_on_no_tasks commands cbs hooks (m : Machine H) :
  tasks m = [] ->
  CommandExecutor.step (CallExecuteQueue commands cbs hooks) m
  = machine_of (executeQueue commands cbs hooks (st m)).
Proof.
  intros Ht. unfold CommandExecutor.step, machine_of. rewrite Ht.
  by destruct (executeQueue commands cbs hooks (st m)) as [s' [t|]].
Qed.

Lemma animate_exec cbs fr n : forall i s, exec (animate cbs fr i n s) = exec s.
Proof.
  induction n as [|n IH]; intros i s; [done |].
  cbn [animate]. by rewrite IH, invoke_exec.
Qed.

Lemma animate_lifecycle cbs fr n :
  forall i s,
    List.filter not_position_update (trace (animate cbs fr i n s))
    = List.filter not_position_update (trace s).
Proof.
  induction n as [|n IH]; intros i s; [done |].
  cbn [animate]. rewrite IH, invoke_trace, List.filter_app. simpl.
  by rewrite app_nil_r.
Qed.

Lemma executeCommand_sync_exec c cbs s :
  exec (executeCommand_sync c cbs s) = exec s.
Proof.
  unfold executeCommand_sync. destruct (getPosition cbs (host s)); [done |].
  destruct (position_eqb _ _); [done |].
  by rewrite invoke_exec, animate_exec.
Qed.

Lemma executeCommand_sync_lifecycle c cbs s :
  List.filter not_position_update (trace (executeCommand_sync c cbs s))
  = List.filter not_position_update (trace s).
Proof.
  unfold executeCommand_sync. destruct (getPosition cbs (host s)); [done |].
  destruct (position_eqb _ _); [done |].
  rewrite invoke_trace, List.filter_app, animate_lifecycle. simpl.
  by rewrite app_nil_r.
Qed.

Lemma queue_sync_exec cbs hooks rest :
  forall i s, exec (queue_sync cbs hooks rest i s) = cleared (exec s).
Proof.
  induction rest as [|c later IH]; intros i s; cbn [queue_sync].
  - unfold after_loop_sync, finally_block, cleared. simpl.
    by rewrite !invoke_opt_exec.
  - rewrite IH. by rewrite invoke_opt_exec, executeCommand_sync_exec,
      !invoke_opt_exec.
Qed.

Lemma opt_event_lifecycle {B} (h : option B) ev :
  not_position_update ev = true ->
  List.filter not_position_update (opt_event h ev) = opt_event h ev.
Proof. intros Hev. destruct h; simpl; [by rewrite Hev | done]. Qed.

Lemma queue_sync_lifecycle cbs hooks rest :
  forall i s,
    List.filter not_position_update (trace (queue_sync cbs hooks rest i s))
    = List.filter not_position_update (trace s)
        ++ lifecycle_from cbs hooks rest i
        ++ opt_event (onStatusChange cbs) (EvStatusChange Idle)
        ++ opt_event (onActionChange cbs) (EvActionChange None).
Proof.
  induction rest as [|c later IH]; intros i s; cbn [queue_sync lifecycle_from].
  - unfold after_loop_sync, finally_block. simpl.
    rewrite !invoke_opt_trace, !List.filter_app.
    rewrite !opt_event_lifecycle by done. by rewrite <- app_assoc.
  - rewrite IH, invoke_opt_trace, List.filter_app,
      executeCommand_sync_lifecycle, !invoke_opt_trace, !List.filter_app.
    rewrite !opt_event_lifecycle by done. by rewrite <- !app_assoc.
Qed.

End SyncFacts.

(** X1.  A run that nothing interrupts comes to an end: when
    [executeQueue] is called with a non-empty list on an idle executor with
    no run in flight, and no callback throws, then after enough delays
    have elapsed no run is in flight, the busy flag is cleared and the
    abort handle is released. *)
Theorem X1_run_terminates_and_cleans_up :
  forall (H : Type) (m : CommandExecutor.Machine H)
    (c : Command) (later : list Command)
    (cbs : CommandExecutor.ExecutorCallbacks H)
    (hooks : CommandExecutor.QueueHooks H),
    CommandExecutor.tasks m = [] ->
    CommandExecutor.isExecuting
      (CommandExecutor.exec (CommandExecutor.st m)) = false ->
    CommandExecutor.callbacks_satisfy ExecutorRun.never_throws cbs ->
    CommandExecutor.hooks_satisfy ExecutorRun.never_throws hooks ->
    ExecutorRun.getPosition_total cbs ->
    exists n,
      let m' :=
        CommandExecutor.run
          (CommandExecutor.CallExecuteQueue (c :: later) cbs hooks
             :: repeat (CommandExecutor.TimerFires 0) n) m in
      CommandExecutor.tasks m' = [] /\
      CommandExecutor.isExecuting
        (CommandExecutor.exec (CommandExecutor.st m')) = false /\
      CommandExecutor.abortController
        (CommandExecutor.exec (CommandExecutor.st m')) = None.
Proof.
  intros H m c later cbs hooks Ht Hidle Hc Hh Hg.
  destruct (executeQueue_refines cbs hooks Hc Hh Hg (c :: later)
              (CommandExecutor.st m)) as [n Hn].
  exists n. intros m'.
  assert (m' = ExecutorRun.machine_of
                 (ExecutorRun.executeQueue_sync (c :: later) cbs hooks
                    (CommandExecutor.st m), None)) as ->.
  { unfold m'.
    change (CommandExecutor.run (?a :: ?l) m)
      with (CommandExecutor.run l (CommandExecutor.step a m)).
    by rewrite call_on_no_tasks, run_timers, Hn. }
  split; [done |]. simpl. unfold ExecutorRun.executeQueue_sync.
  rewrite Hidle. simpl. rewrite queue_sync_exec. done.
Qed.

(** X2.  In such a run the callbacks other than the position updates are
    invoked in this order: [onStatusChange('busy')]; then for each command
    in the order of the list, with its index in the list,
    [onCommandStart], [onActionChange(description)] and
    [onCommandComplete]; then [onStatusChange('idle')] and
    [onActionChange(null)].  No command is started before the one before
    it has completed, and [onCommandError] is not invoked. *)
Theorem X2_run_invokes_callbacks_in_order :
  forall (H : Type) (m : CommandExecutor.Machine H)
    (c : Command) (later : list Command)
    (cbs : CommandExecutor.ExecutorCallbacks H)
    (hooks : CommandExecutor.QueueHooks H),
    CommandExecutor.tasks m = [] ->
    CommandExecutor.isExecuting
      (CommandExecutor.exec (CommandExecutor.st m)) = false ->
    CommandExecutor.callbacks_satisfy ExecutorRun.never_throws cbs ->
    CommandExecutor.hooks_satisfy ExecutorRun.never_throws hooks ->
    ExecutorRun.getPosition_total cbs ->
    exists n,
      let m' :=
        CommandExecutor.run
          (CommandExecutor.CallExecuteQueue (c :: later) cbs hooks
             :: repeat (CommandExecutor.TimerFires 0) n) m in
      CommandExecutor.tasks m' = [] /\
      List.filter ExecutorRun.not_position_update
        (CommandExecutor.trace (CommandExecutor.st m'))
      = List.filter ExecutorRun.not_position_update
          (CommandExecutor.trace (CommandExecutor.st m))
          ++ ExecutorRun.lifecycle cbs hooks (c :: later).
Proof.
  intros H m c later cbs hooks Ht Hidle Hc Hh Hg.
  destruct (executeQueue_refines cbs hooks Hc Hh Hg (c :: later)
              (CommandExecutor.st m)) as [n Hn].
  exists n. intros m'.
  assert (m' = ExecutorRun.machine_of
                 (ExecutorRun.executeQueue_sync (c :: later) cbs hooks
                    (CommandExecutor.st m), None)) as ->.
  { unfold m'.
    change (CommandExecutor.run (?a :: ?l) m)
      with (CommandExecutor.run l (CommandExecutor.step a m)).
    by rewrite call_on_no_tasks, run_timers, Hn. }
  split; [done |]. simpl. unfold ExecutorRun.executeQueue_sync.
  rewrite Hidle. simpl length. cbv iota.
  change (S (length later) =? 0)%nat with false. cbv iota.
  rewrite queue_sync_lifecycle, invoke_opt_trace, List.filter_app.
  rewrite opt_event_lifecycle by done. unfold ExecutorRun.lifecycle.
  simpl. by rewrite <- !app_assoc.
Qed.

(** X1 and X2 at a concrete input: the application at start-up, and the
    call that [executeCommands] makes for [forward3] and [right2]. *)
Lemma store_callbacks_never_throw (robot : RobotStore.State) :
  CommandExecutor.callbacks_satisfy ExecutorRun.never_throws
    (App.store_callbacks robot).
Proof. repeat split; intros; simpl in *; simplify_eq; by intros ?. Qed.

Lemma store_hooks_never_throw (state : CommandStore.State) :
  CommandExecutor.hooks_satisfy ExecutorRun.never_throws (App.store_hooks state).
Proof. repeat split; intros; simpl in *; simplify_eq; by intros ?. Qed.

Lemma store_getPosition_total (robot : RobotStore.State) :
  ExecutorRun.getPosition_total (App.store_callbacks robot).
Proof. intros h. by eexists. Qed.

Lemma X1_run_terminates_and_cleans_up_witness :
  exists n,
    let m' :=
      CommandExecutor.run
        (CommandExecutor.CallExecuteQueue [App.forward3; App.right2]
           (App.store_callbacks RobotStore.initial)
           (App.store_hooks CommandStore.initial)
           :: repeat (CommandExecutor.TimerFires 0) n)
        (App.machine App.initial) in
    CommandExecutor.tasks m' = [] /\
    CommandExecutor.isExecuting
      (CommandExecutor.exec (CommandExecutor.st m')) = false /\
    CommandExecutor.abortController
      (CommandExecutor.exec (CommandExecutor.st m')) = None.
Proof.
  apply (X1_run_terminates_and_cleans_up App.Stores (App.machine App.initial)
           App.forward3 [App.right2]).
  - reflexivity.
  - reflexivity.
  - apply store_callbacks_never_throw.
  - apply store_hooks_never_throw.
  - apply store_getPosition_total.
Defined.

Lemma X2_run_invokes_callbacks_in_order_witness :
  exists n,
    let m' :=
      CommandExecutor.run
        (CommandExecutor.CallExecuteQueue [App.forward3; App.right2]
           (App.store_callbacks RobotStore.initial)
           (App.store_hooks CommandStore.initial)
           :: repeat (CommandExecutor.TimerFires 0) n)
        (App.machine App.initial) in
    CommandExecutor.tasks m' = [] /\
    List.filter ExecutorRun.not_position_update
      (CommandExecutor.trace (CommandExecutor.st m'))
    = List.filter ExecutorRun.not_position_update
        (CommandExecutor.trace (CommandExecutor.st (App.machine App.initial)))
        ++ ExecutorRun.lifecycle (App.store_callbacks RobotStore.initial)
             (App.store_hooks CommandStore.initial)
             [App.forward3; App.right2].
Proof.
  apply (X2_run_invokes_callbacks_in_order App.Stores
           (App.machine App.initial) App.forward3 [App.right2]).
  - reflexivity.
  - reflexivity.
  - apply store_callbacks_never_throw.
  - apply store_hooks_never_throw.
  - apply store_getPosition_total.
Defined.

(** ** However a run ends, the executor is released *)

Section RunOver.

Import CommandExecutor AppRun.

Context {H : Type}.

Implicit Types (cbs : ExecutorCallbacks H) (hooks : QueueHooks H) (s : St H).

Lemma outer_catch_cleared cbs s :
  isExecuting (exec (outer_catch cbs s)) = false /\
  abortController (exec (outer_catch cbs s)) = None.
Proof. unfold outer_catch. by destruct (invoke_opt _ _ s). Qed.

Lemma after_loop_cleared cbs s :
  isExecuting (exec (after_loop cbs s)) = false /\
  abortController (exec (after_loop cbs s)) = None.
Proof.
  unfold after_loop. destruct (invoke_opt _ _ s) as [s1 [e1|]];
    [apply outer_catch_cleared |].
  destruct (invoke_opt _ _ s1) as [s2 [e2|]];
    [apply outer_catch_cleared | done].
Qed.

Lemma inner_catch_over cbs hooks c i k e s :
  (forall s0, over_and_cleared (k s0)) ->
  over_and_cleared (inner_catch cbs hooks c i k e s).
Proof.
  intros Hk. unfold inner_catch.
  destruct (is_abort_error e).
  { intros s' [= <-]. apply after_loop_cleared. }
  destruct (invoke_opt _ _ s) as [s1 [e1|]]; [| apply Hk].
  intros s' [= <-]. apply outer_catch_cleared.
Qed.

Lemma settle_command_over cbs hooks c i later k r s :
  (forall s0, over_and_cleared (k s0)) ->
  over_and_cleared (settle_command cbs hooks c i later k r s).
Proof.
  intros Hk. destruct r as [|e|ph]; simpl.
  - destruct (invoke_opt _ _ s) as [s1 [e1|]];
      [by apply inner_catch_over | apply Hk].
  - by apply inner_catch_over.
  - by intros s' [=].
Qed.

Lemma queue_loop_over cbs hooks rest :
  forall i s, over_and_cleared (queue_loop cbs hooks rest i s).
Proof.
  induction rest as [|c later IH]; intros i s; simpl.
  { intros s' [= <-]. apply after_loop_cleared. }
  destruct (abortController (exec s)) as [ac|].
  2: { intros s' [= <-]. apply outer_catch_cleared. }
  destruct (aborted ac).
  { intros s' [= <-]. apply after_loop_cleared. }
  destruct (invoke_opt _ _ s) as [s1 [e1|]].
  { intros s' [= <-]. apply outer_catch_cleared. }
  destruct (invoke_opt _ _ s1) as [s2 [e2|]].
  { intros s' [= <-]. apply outer_catch_cleared. }
  destruct (executeCommand_start c cbs s2) as [s3 r].
  by apply settle_command_over.
Qed.

Lemma resume_over (t : Task H) s : over_and_cleared (resume t s).
Proof.
  unfold resume. destruct (executeCommand_resume _ _ s) as [s1 r].
  apply settle_command_over. intros s0. apply queue_loop_over.
Qed.

End RunOver.

(** X3.  Whenever a delay elapses and the run that awaited it ends there,
    however it ends (the list is exhausted, a callback has thrown, the
    abort handle is found missing), the [finally] block has run: the busy
    flag is cleared and the abort handle is [null], also when they belong
    to another run by then. *)
Theorem X3_a_run_that_ends_releases_the_executor :
  forall (H : Type) (m : CommandExecutor.Machine H) (k : nat),
    let m' := CommandExecutor.step (CommandExecutor.TimerFires k) m in
    (length (CommandExecutor.tasks m') < length (CommandExecutor.tasks m))%nat ->
    CommandExecutor.isExecuting
      (CommandExecutor.exec (CommandExecutor.st m')) = false /\
    CommandExecutor.abortController
      (CommandExecutor.exec (CommandExecutor.st m')) = None.
Proof.
  intros H m k m'. unfold m', CommandExecutor.step.
  destruct (CommandExecutor.tasks m !! k) as [t|] eqn:Hk; [| lia].
  pose proof (resume_over t (CommandExecutor.st m)) as Hover.
  destruct (CommandExecutor.resume t (CommandExecutor.st m)) as [s' [t'|]];
    simpl.
  - rewrite length_insert. lia.
  - intros _. by apply Hover.
Qed.

(** X3 at a concrete input: the last delay of a run of [stop_command]. *)
Lemma X3_a_run_that_ends_releases_the_executor_witness :
  let m :=
    App.machine
      (App.run [App.AddCommand AppRun.stop_command; App.AutostartFires]
               App.initial) in
  let m' := CommandExecutor.step (CommandExecutor.TimerFires 0) m in
  CommandExecutor.isExecuting
    (CommandExecutor.exec (CommandExecutor.st m')) = false /\
  CommandExecutor.abortController
    (CommandExecutor.exec (CommandExecutor.st m')) = None.
Proof.
  intros m m'.
  apply (X3_a_run_that_ends_releases_the_executor App.Stores m 0).
  vm_compute. lia.
Defined.

(** X4.  The first [onStatusChange('busy')] is called before the [try]:
    if it throws, [executeQueue] is left with the busy flag set and no run
    in flight, so that every later call of [executeQueue] returns at once
    without doing anything; only [abort()] clears the flag. *)
Theorem X4_throwing_busy_callback_wedges_the_executor :
  forall (H : Type) (s : CommandExecutor.St H)
    (c : Command) (later : list Command)
    (cbs : CommandExecutor.ExecutorCallbacks H)
    (hooks : CommandExecutor.QueueHooks H)
    (f : RobotStatus -> CommandExecutor.Callback H) (e : Exn)
    (commands' : list Command)
    (cbs' : CommandExecutor.ExecutorCallbacks H)
    (hooks' : CommandExecutor.QueueHooks H),
    CommandExecutor.isExecuting (CommandExecutor.exec s) = false ->
    CommandExecutor.onStatusChange cbs = Some f ->
    snd (f Busy (CommandExecutor.host s)) = Some e ->
    let r := CommandExecutor.executeQueue (c :: later) cbs hooks s in
    snd r = None /\
    CommandExecutor.isExecuting (CommandExecutor.exec (fst r)) = true /\
    CommandExecutor.trace (fst r)
    = CommandExecutor.trace s ++ [CommandExecutor.EvStatusChange Busy] /\
    CommandExecutor.executeQueue commands' cbs' hooks' (fst r) = (fst r, None) /\
    CommandExecutor.isExecuting
      (CommandExecutor.abort (CommandExecutor.exec (fst r))) = false.
Proof.
  intros H s c later cbs hooks f e commands' cbs' hooks' Hidle Hf Hthrow r.
  unfold r, CommandExecutor.executeQueue. rewrite Hidle, Hf. simpl.
  unfold CommandExecutor.invoke. simpl.
  destruct (f Busy (CommandExecutor.host s)) as [h' t]. simpl in Hthrow.
  subst t. simpl. repeat split; reflexivity.
Qed.

(** X4 at a concrete input. *)
Lemma X4_throwing_busy_callback_wedges_the_executor_witness :
  let s := CommandExecutor.st (App.machine App.initial) in
  let cbs := AppRun.failing_status_callbacks RobotStore.initial in
  let hooks := App.store_hooks CommandStore.initial in
  let r := CommandExecutor.executeQueue [App.forward3] cbs hooks s in
  snd r = None /\
  CommandExecutor.isExecuting (CommandExecutor.exec (fst r)) = true /\
  CommandExecutor.executeQueue [App.right2]
    (App.store_callbacks RobotStore.initial) hooks (fst r) = (fst r, None).
Proof.
  intros s cbs hooks r.
  destruct (X4_throwing_busy_callback_wedges_the_executor App.Stores s
              App.forward3 [] cbs hooks
              (fun _ h => (h, Some AppRun.status_error)) AppRun.status_error
              [App.right2] (App.store_callbacks RobotStore.initial) hooks)
    as (Hnone & Hbusy & _ & Hnoop & _).
  - reflexivity.
  - reflexivity.
  - reflexivity.
  - split; [exact Hnone |]. split; [exact Hbusy | exact Hnoop].
Defined.

(** ** Commands that do not move the robot *)

Section NotDirectional.

Import CommandExecutor ExecutorRun.

Lemma Qeq_bool_same (a : Q) : Qeq_bool a a = true.
Proof. apply Qeq_bool_iff. reflexivity. Qed.

Lemma position_eqb_same (p : Position) : position_eqb p p = true.
Proof. unfold position_eqb. by rewrite !Qeq_bool_same. Qed.

Lemma not_directional_target (c : Command) (cur : Position) :
  is_directional c = false -> calculateTargetPosition c cur = cur.
Proof.
  unfold is_directional, calculateTargetPosition. intros Hc.
  repeat (destruct (String.eqb (command c) _); [discriminate Hc |]).
  by destruct cur.
Qed.

End NotDirectional.

(** X5.  A command whose name is not one of forward, backward, left,
    right, up and down (so [turn_left], [turn_right], [stop] and every
    unknown name) does not move the robot: its target is the current
    position, [executeCommand] waits 300 ms once and returns, and meanwhile
    it invokes no callback and changes nothing. *)
Theorem X5_command_that_is_not_directional_pauses_once :
  forall (H : Type) (c : Command)
    (cbs : CommandExecutor.ExecutorCallbacks H) (s : CommandExecutor.St H)
    (cur : Position),
    CommandExecutor.getPosition cbs (CommandExecutor.host s) = inr cur ->
    ExecutorRun.is_directional c = false ->
    CommandExecutor.calculateTargetPosition c cur = cur /\
    CommandExecutor.executeCommand_start c cbs s
    = (s, CommandExecutor.Awaiting CommandExecutor.SleepUnchanged) /\
    CommandExecutor.sleep_ms CommandExecutor.SleepUnchanged = 300%Q /\
    CommandExecutor.elapse 1 cbs (CommandExecutor.executeCommand_start c cbs s)
    = (s, CommandExecutor.Returned).
Proof.
  intros H c cbs s cur Hget Hc.
  assert (CommandExecutor.executeCommand_start c cbs s
          = (s, CommandExecutor.Awaiting CommandExecutor.SleepUnchanged))
    as Hstart.
  { unfold CommandExecutor.executeCommand_start. rewrite Hget.
    by rewrite not_directional_target, position_eqb_same. }
  split; [by apply not_directional_target |]. split; [exact Hstart |].
  split; [reflexivity |]. by rewrite Hstart.
Qed.

(** X5 at a concrete input: [stop_command] with the store's callbacks. *)
Lemma X5_command_that_is_not_directional_pauses_once_witness :
  let s := CommandExecutor.st (App.machine App.initial) in
  let cbs := App.store_callbacks RobotStore.initial in
  CommandExecutor.executeCommand_start AppRun.stop_command cbs s
  = (s, CommandExecutor.Awaiting CommandExecutor.SleepUnchanged) /\
  CommandExecutor.elapse 1 cbs
    (CommandExecutor.executeCommand_start AppRun.stop_command cbs s)
  = (s, CommandExecutor.Returned).
Proof.
  intros s cbs.
  destruct (X5_command_that_is_not_directional_pauses_once App.Stores
              AppRun.stop_command cbs s
              (RobotStore.position RobotStore.initial))
    as (_ & Hstart & _ & Hend).
  - reflexivity.
  - reflexivity.
  - split; [exact Hstart | exact Hend].
Defined.

(** ** A run started by [executeCommands] *)

Section StoreRun.

Import CommandExecutor ExecutorRun AppRun.

Implicit Types (robot : RobotStore.State) (state : CommandStore.State)
  (s : St App.Stores).

Lemma app_delays n (a : App.State) :
  App.machine (App.run (repeat (App.DelayElapsed 0) n) a)
  = CommandExecutor.run (repeat (TimerFires 0) n) (App.machine a).
Proof.
  revert a. induction n as [|n IH]; intros a; [done |].
  change (App.run (repeat (App.DelayElapsed 0) (S n)) a)
    with (App.run (repeat (App.DelayElapsed 0) n)
            (App.step (App.DelayElapsed 0) a)).
  by rewrite IH.
Qed.

Lemma executeCommands_completes (a : App.State) :
  tasks (App.machine a) = [] ->
  isExecuting (exec (st (App.machine a))) = false ->
  CommandStore.getPendingCommands (App.store_of a) <> [] ->
  exists n,
    App.machine
      (App.run (App.ExecuteCommands :: repeat (App.DelayElapsed 0) n) a)
    = machine_of
        (executeQueue_sync
           (map cmd (CommandStore.getPendingCommands (App.store_of a)))
           (App.store_callbacks (App.robotStore (host (st (App.machine a)))))
           (App.store_hooks (App.store_of a))
           (st (App.machine a)), None).
Proof.
  intros Ht Hidle Hpending.
  set (cs := map cmd (CommandStore.getPendingCommands (App.store_of a))).
  set (cbs := App.store_callbacks _). set (hooks := App.store_hooks _).
  destruct (executeQueue_refines cbs hooks
              (store_callbacks_never_throw _) (store_hooks_never_throw _)
              (store_getPosition_total _) cs (st (App.machine a))) as [n Hn].
  exists n.
  change (App.run (?x :: ?l) a) with (App.run l (App.step x a)).
  rewrite app_delays. cbn [App.step App.machine].
  unfold App.executeCommands, getIsExecuting. rewrite Hidle.
  fold (App.store_of a).
  destruct (CommandStore.getPendingCommands (App.store_of a)) eqn:E; [done |].
  cbn [length Nat.eqb]. fold cs cbs hooks.
  by rewrite call_on_no_tasks, run_timers, Hn.
Qed.

(** The stores after the steps of a run. *)
Lemma animate_commandStore robot fr n :
  forall i s,
    App.commandStore (host (animate (App.store_callbacks robot) fr i n s))
    = App.commandStore (host s).
Proof. induction n as [|n IH]; intros i s; [done |]. cbn [animate]. by rewrite IH. Qed.

Lemma executeCommand_sync_commandStore robot c s :
  App.commandStore (host (executeCommand_sync c (App.store_callbacks robot) s))
  = App.commandStore (host s).
Proof.
  unfold executeCommand_sync. cbn [getPosition App.store_callbacks].
  destruct (position_eqb _ _); [done |].
  cbn. by rewrite animate_commandStore.
Qed.

Lemma mark_completed_step (c : Command) (ids : list string)
  (r : CommandWithStatus) :
  let upd stat r :=
    if String.eqb (command_id (cmd r)) (command_id c)
    then mkCommandWithStatus (cmd r) stat None (progress r) else r in
  mark_completed ids (upd completed (upd executing r))
  = mark_completed (command_id c :: ids) r.
Proof.
  unfold mark_completed. cbn [existsb].
  destruct (String.eqb (command_id (cmd r)) (command_id c)) eqn:E; cbn.
  - rewrite E. cbn. by destruct (existsb _ ids).
  - by rewrite E.
Qed.

Lemma queue_sync_commands robot state rest :
  forall i s,
    CommandStore.commands
      (App.commandStore
         (host (queue_sync (App.store_callbacks robot) (App.store_hooks state)
                           rest i s)))
    = map (mark_completed (map command_id rest))
          (CommandStore.commands (App.commandStore (host s))).
Proof.
  induction rest as [|c later IH]; intros i s.
  - cbn. induction (CommandStore.commands _) as [|r l IHl]; [done |].
    cbn. by rewrite <- IHl.
  - cbn [queue_sync]. rewrite IH. cbn [invoke_opt fmap option_fmap option_map
      App.store_hooks onCommandComplete onCommandStart onActionChange
      App.store_callbacks].
    cbn [invoke App.on_commands App.on_robot fst host App.commandStore].
    rewrite executeCommand_sync_commandStore.
    cbn. rewrite !map_map. apply map_ext. intros r.
    apply (mark_completed_step c).
Qed.

Lemma queue_sync_robot robot hooks rest :
  forall i s,
    let r := App.robotStore
               (host (queue_sync (App.store_callbacks robot) hooks rest i s)) in
    RobotStore.robotStatus r = Idle /\ RobotStore.currentAction r = None.
Proof.
  induction rest as [|c later IH]; intros i s; [done |].
  cbn [queue_sync]. apply IH.
Qed.

Lemma queue_sync_position robot state rest :
  forall i s,
    RobotStore.position
      (App.robotStore
         (host (queue_sync (App.store_callbacks robot) (App.store_hooks state)
                           rest i s)))
    = position_after (RobotStore.position robot) rest
        (RobotStore.position (App.robotStore (host s))).
Proof.
  induction rest as [|c later IH]; intros i s; [done |].
  cbn [queue_sync]. rewrite IH. unfold position_after. cbn [foldl].
  f_equal. unfold executeCommand_sync.
  cbn [getPosition App.store_callbacks].
  by destruct (position_eqb _ _).
Qed.

Lemma pending_all_marked (l : list CommandWithStatus) :
  List.filter CommandStore.is_pending
    (map (mark_completed
            (map command_id (map cmd (List.filter CommandStore.is_pending l))))
         l) = [].
Proof.
  set (ids := map command_id _).
  assert (Hin : forall r, In r l -> CommandStore.is_pending r = true ->
                  existsb (String.eqb (command_id (cmd r))) ids = true).
  { intros r Hr Hp. apply existsb_exists. exists (command_id (cmd r)).
    split; [| apply String.eqb_refl].
    unfold ids. rewrite map_map. apply in_map_iff. exists r.
    split; [done |]. by apply filter_In. }
  clearbody ids. induction l as [|r l IH]; [done |].
  cbn [map List.filter].
  rewrite IH by (intros; apply Hin; [by right | done]).
  unfold mark_completed.
  destruct (existsb _ ids) eqn:E; [done |].
  destruct (CommandStore.is_pending r) eqn:Hp; [| done].
  rewrite Hin in E; [done | by left | done].
Qed.

End StoreRun.

(** X6.  [executeCommands()] on an idle executor with pending commands,
    left alone until its delays have elapsed, leaves no command pending:
    every record whose id is the id of a command that was pending is
    [completed] with its error cleared, every other record is as it was,
    and the robot store shows status [idle] and no current action. *)
Theorem X6_executeCommands_completes_every_pending_command :
  forall (a : App.State),
    CommandExecutor.tasks (App.machine a) = [] ->
    CommandExecutor.isExecuting
      (CommandExecutor.exec (CommandExecutor.st (App.machine a))) = false ->
    CommandStore.getPendingCommands (App.store_of a) <> [] ->
    exists n,
      let a' :=
        App.run (App.ExecuteCommands :: repeat (App.DelayElapsed 0) n) a in
      let robot' :=
        App.robotStore (CommandExecutor.host (CommandExecutor.st (App.machine a'))) in
      CommandExecutor.tasks (App.machine a') = [] /\
      CommandStore.getPendingCommands (App.store_of a') = [] /\
      CommandStore.commands (App.store_of a')
      = map (AppRun.mark_completed
               (map command_id
                    (map cmd (CommandStore.getPendingCommands (App.store_of a)))))
            (CommandStore.commands (App.store_of a)) /\
      RobotStore.robotStatus robot' = Idle /\
      RobotStore.currentAction robot' = None.
Proof.
  intros a Ht Hidle Hpending.
  destruct (executeCommands_completes a Ht Hidle Hpending) as [n Hn].
  exists n. intros a' robot'.
  unfold robot', App.store_of. fold a' in Hn. rewrite Hn. clear Hn.
  assert (Hcs : map cmd (CommandStore.getPendingCommands (App.store_of a))
                <> []).
  { by destruct (CommandStore.getPendingCommands (App.store_of a)). }
  unfold ExecutorRun.machine_of, ExecutorRun.executeQueue_sync.
  cbn [fst snd CommandExecutor.st CommandExecutor.tasks]. rewrite Hidle.
  destruct (map cmd (CommandStore.getPendingCommands (App.store_of a)))
    as [|c later] eqn:E; [done |].
  cbn [length Nat.eqb]. rewrite <- E.
  split; [done |].
  unfold CommandStore.getPendingCommands at 1.
  rewrite !queue_sync_commands.
  split; [apply pending_all_marked |]. split; [done |].
  apply queue_sync_robot.
Qed.

(** X6 at a concrete input: [forward3] and [right2] have been enqueued. *)
Lemma X6_executeCommands_completes_every_pending_command_witness :
  exists n,
    let a := App.run [App.AddCommands [App.forward3; App.right2]] App.initial in
    let a' :=
      App.run (App.ExecuteCommands :: repeat (App.DelayElapsed 0) n) a in
    CommandExecutor.tasks (App.machine a') = [] /\
    CommandStore.getPendingCommands (App.store_of a') = [].
Proof.
  destruct (X6_executeCommands_completes_every_pending_command
              (App.run [App.AddCommands [App.forward3; App.right2]] App.initial))
    as [n (Ht & Hp & _)].
  - reflexivity.
  - reflexivity.
  - discriminate.
  - exists n. split; [exact Ht | exact Hp].
Defined.

(** X7.  The callbacks that [executeCommands] passes read the position
    from the robot-store object taken when the run starts, which the
    position updates of the run do not change.  So every command of the
    run is animated from the position the robot had when the run started,
    and when the target of the last pending command, computed from that
    starting position, differs from it, the run ends with the robot at
    that target, wherever the earlier commands moved it. *)
Theorem X7_run_ends_at_last_target_from_start_position :
  forall (a : App.State) (before : list Command) (c : Command),
    CommandExecutor.tasks (App.machine a) = [] ->
    CommandExecutor.isExecuting
      (CommandExecutor.exec (CommandExecutor.st (App.machine a))) = false ->
    map cmd (CommandStore.getPendingCommands (App.store_of a))
    = before ++ [c] ->
    CommandExecutor.position_eqb
      (RobotStore.position
         (App.robotStore (CommandExecutor.host (CommandExecutor.st (App.machine a)))))
      (CommandExecutor.calculateTargetPosition c
         (RobotStore.position
            (App.robotStore
               (CommandExecutor.host (CommandExecutor.st (App.machine a))))))
    = false ->
    exists n,
      let start :=
        RobotStore.position
          (App.robotStore (CommandExecutor.host (CommandExecutor.st (App.machine a)))) in
      let a' :=
        App.run (App.ExecuteCommands :: repeat (App.DelayElapsed 0) n) a in
      CommandExecutor.tasks (App.machine a') = [] /\
      RobotStore.position
        (App.robotStore (CommandExecutor.host (CommandExecutor.st (App.machine a'))))
      = CommandExecutor.calculateTargetPosition c start.
Proof.
  intros a before c Ht Hidle Hpending Hmoves.
  assert (Hne : CommandStore.getPendingCommands (App.store_of a) <> []).
  { intros E. rewrite E in Hpending. by destruct before. }
  destruct (executeCommands_completes a Ht Hidle Hne) as [n Hn].
  exists n. intros start a'. fold start in Hmoves. fold a' in Hn.
  rewrite Hn. clear Hn.
  rewrite Hpending.
  unfold ExecutorRun.machine_of, ExecutorRun.executeQueue_sync.
  cbn [fst snd CommandExecutor.st CommandExecutor.tasks]. rewrite Hidle.
  destruct (before ++ [c]) as [|c0 later] eqn:E; [by destruct before |].
  cbn [length Nat.eqb]. rewrite <- E. split; [done |].
  rewrite queue_sync_position. unfold AppRun.position_after.
  rewrite foldl_app. cbn [foldl]. fold start.
  by rewrite Hmoves.
Qed.

(** X7 at a concrete input: after [forward3] and [right2] the robot is at
    the target of [right2] from the origin; the three units forward are
    lost. *)
Lemma X7_run_ends_at_last_target_from_start_position_witness :
  exists n,
    let a := App.run [App.AddCommands [App.forward3; App.right2]] App.initial in
    let a' :=
      App.run (App.ExecuteCommands :: repeat (App.DelayElapsed 0) n) a in
    CommandExecutor.tasks (App.machine a') = [] /\
    RobotStore.position
      (App.robotStore (CommandExecutor.host (CommandExecutor.st (App.machine a'))))
    = CommandExecutor.calculateTargetPosition App.right2
        {| x := 0; y := 0; z := 0 |}.
Proof.
  apply (X7_run_ends_at_last_target_from_start_position
           (App.run [App.AddCommands [App.forward3; App.right2]] App.initial)
           [App.forward3] App.right2); reflexivity.
Defined.

(** ** The command store *)

(** X8.  [updateCommandStatus] with an id that no record of the list has
    changes nothing in the store; and calling it a second time with the
    same arguments changes nothing more. *)
Theorem X8_updateCommandStatus_unknown_id_and_repeat :
  forall (id : string) (stat : CommandStatus) (err : option string)
    (s : CommandStore.State),
    (Forall (fun r => command_id (cmd r) <> id) (CommandStore.commands s) ->
     CommandStore.updateCommandStatus id stat err s = s) /\
    CommandStore.updateCommandStatus id stat err
      (CommandStore.updateCommandStatus id stat err s)
    = CommandStore.updateCommandStatus id stat err s.
Proof.
  intros id stat err [l cur hist proc e]. split.
  - cbn. intros Hall. unfold CommandStore.updateCommandStatus. cbn. f_equal.
    induction Hall as [|r l Hr Hall IH]; [done |].
    cbn. rewrite IH. apply String.eqb_neq in Hr. by rewrite Hr.
  - unfold CommandStore.updateCommandStatus. cbn. f_equal.
    rewrite map_map. apply map_ext. intros r.
    destruct (String.eqb (command_id (cmd r)) id) eqn:E; cbn; by rewrite E.
Qed.

Lemma X8_updateCommandStatus_unknown_id_and_repeat_witness :
  CommandStore.updateCommandStatus "cmd-9" completed None
    (CommandStore.addCommand App.forward3 CommandStore.initial)
  = CommandStore.addCommand App.forward3 CommandStore.initial.
Proof.
  destruct (X8_updateCommandStatus_unknown_id_and_repeat "cmd-9" completed
              None (CommandStore.addCommand App.forward3 CommandStore.initial))
    as [Hunknown _].
  apply Hunknown. repeat constructor. vm_compute. discriminate.
Defined.

(** X9.  [moveToNext] never changes the list.  A cursor that points into
    the list advances by one and stays on the last record once it is
    there, so it still points into the list; but on an empty list a
    cursor that is not negative is set to -1. *)
Theorem X9_moveToNext_saturates_at_last_record :
  forall (s : CommandStore.State),
    let s' := CommandStore.moveToNext s in
    let n := Z.of_nat (length (CommandStore.commands s)) in
    let cursor := CommandStore.currentCommandIndex s in
    let cursor' := CommandStore.currentCommandIndex s' in
    CommandStore.commands s' = CommandStore.commands s /\
    ((0 <= cursor < n)%Z ->
     (0 <= cursor' < n)%Z /\
     ((cursor + 1 < n)%Z -> cursor' = (cursor + 1)%Z) /\
     (cursor = (n - 1)%Z -> cursor' = cursor)) /\
    (CommandStore.commands s = [] -> (0 <= cursor)%Z -> cursor' = (-1)%Z).
Proof.
  intros s s' n cursor cursor'.
  unfold cursor', s', CommandStore.moveToNext. cbn. fold n cursor.
  split; [done |]. split.
  - intros Hrange. repeat split; lia.
  - intros Hnil Hcur. unfold n. rewrite Hnil. cbn. lia.
Qed.

Lemma X9_moveToNext_saturates_at_last_record_witness :
  CommandStore.currentCommandIndex
    (CommandStore.moveToNext
       (CommandStore.addCommands [App.forward3; App.right2]
          CommandStore.initial)) = 1%Z /\
  CommandStore.currentCommandIndex
    (CommandStore.moveToNext CommandStore.initial) = (-1)%Z.
Proof.
  split.
  - destruct (X9_moveToNext_saturates_at_last_record
                (CommandStore.addCommands [App.forward3; App.right2]
                   CommandStore.initial)) as (_ & Hin & _).
    apply Hin; vm_compute; split; congruence || reflexivity.
  - destruct (X9_moveToNext_saturates_at_last_record CommandStore.initial)
      as (_ & _ & Hempty).
    apply Hempty; [reflexivity | vm_compute; congruence].
Defined.

(** ** The command list over the life of the application *)


Section Queue.

Import CommandExecutor App StoreQueue.

Lemma same_queue_refl s : same_queue s s.
Proof. done. Qed.

Lemma same_queue_trans a b c :
  same_queue a b -> same_queue b c -> same_queue a c.
Proof. unfold same_queue. congruence. Qed.

Lemma same_queue_invoke ev (f : Callback Stores) s :
  keeps_queue f -> same_queue s (fst (invoke ev f s)).
Proof.
  intros Hf. unfold same_queue, invoke. specialize (Hf (host s)).
  by destruct (f (host s)).
Qed.

Lemma store_callbacks_keep_queue robot :
  callbacks_satisfy keeps_queue (store_callbacks robot).
Proof.
  repeat split; intros; simpl in *; simplify_eq; intros ?; reflexivity.
Qed.

Lemma store_hooks_keep_queue state :
  hooks_satisfy keeps_queue (store_hooks state).
Proof.
  repeat split; intros; simpl in *; simplify_eq; intros ?; cbn;
    rewrite map_map; apply map_ext; intros r;
    by destruct (String.eqb _ _).
Qed.

Lemma executor_step_keeps_queue (a : CommandExecutor.Action Stores) m :
  action_satisfies keeps_queue a ->
  Forall (task_satisfies keeps_queue) (tasks m) ->
  same_queue (st m) (st (CommandExecutor.step a m)) /\
  Forall (task_satisfies keeps_queue) (tasks (CommandExecutor.step a m)).
Proof.
  intros Ha Hts. destruct a as [commands cbs hooks| |cfg|k]; simpl in *.
  - destruct Ha as [Hc Hh].
    pose proof (R_executeQueue keeps_queue same_queue same_queue_refl
                  same_queue_trans same_queue_invoke
                  ltac:(done) ltac:(done) commands cbs hooks (st m) Hc Hh)
      as HR.
    destruct (executeQueue commands cbs hooks (st m)) as [s' [t|]] eqn:E;
      simpl in *; [| done].
    split; [done |]. apply Forall_app. split; [done |].
    apply Forall_singleton.
    apply executeQueue_suspended in E as (_ & _ & Hc' & Hh').
    split; by rewrite ?Hc', ?Hh'.
  - done.
  - done.
  - destruct (tasks m !! k) as [t|] eqn:Hk; [| done].
    pose proof (Forall_lookup_1 _ _ _ _ Hts Hk) as Ht.
    pose proof (R_resume keeps_queue same_queue same_queue_refl
                  same_queue_trans same_queue_invoke
                  ltac:(done) t (st m) Ht) as HR.
    pose proof (resume_suspended t (st m)) as Hs.
    destruct (resume t (st m)) as [s' [t'|]]; simpl in *.
    + split; [done |]. apply Forall_insert; [done |].
      destruct (Hs s' t' eq_refl) as (_ & Hc & Hh).
      destruct Ht as [Htc Hth]. split; by rewrite ?Hc, ?Hh.
    + split; [done |]. by apply Forall_delete.
Qed.

Lemma executeCommands_keeps_queue m :
  Forall (task_satisfies keeps_queue) (tasks m) ->
  same_queue (st m) (st (executeCommands m)) /\
  Forall (task_satisfies keeps_queue) (tasks (executeCommands m)).
Proof.
  intros Hts. unfold executeCommands.
  destruct (getIsExecuting (exec (st m))); [done |].
  destruct (length _ =? 0)%nat; [done |].
  apply executor_step_keeps_queue; [| done].
  split; [apply store_callbacks_keep_queue | apply store_hooks_keep_queue].
Qed.

Lemma queue_step (a : App.Action) (s : App.State) :
  Forall (task_satisfies keeps_queue) (tasks (machine s)) ->
  map cmd (CommandStore.commands (store_of (App.step a s)))
  = match a with
    | ClearCommands => []
    | _ => map cmd (CommandStore.commands (store_of s)) ++ enqueued a
    end /\
  Forall (task_satisfies keeps_queue) (tasks (machine (App.step a s))).
Proof.
  intros Hts. unfold store_of.
  destruct a as [c|cs|id stat err| | |e|b| | | |k]; simpl;
    rewrite ?app_nil_r; auto.
  - by rewrite map_app.
  - rewrite map_app, map_map. cbn. by rewrite map_id.
  - split; [| done]. rewrite map_map. apply map_ext. intros r.
    by destruct (String.eqb _ _).
  - destruct (executeCommands_keeps_queue (machine s) Hts) as [Hh Ht].
    auto.
  - destruct (autostart s); [auto |]. simpl.
    destruct (executeCommands_keeps_queue (machine s) Hts) as [Hh Ht].
    auto.
  - destruct (executor_step_keeps_queue (TimerFires k) (machine s) I Hts)
      as [Hh Ht].
    auto.
Qed.

Lemma queue_run (acts : list App.Action) :
  forall (s : App.State),
    Forall (task_satisfies keeps_queue) (tasks (machine s)) ->
    map cmd (CommandStore.commands (store_of (App.run acts s)))
    = foldl (fun q a =>
               match a with
               | ClearCommands => []
               | _ => q ++ enqueued a
               end)
        (map cmd (CommandStore.commands (store_of s))) acts.
Proof.
  induction acts as [|a acts IH]; intros s Hts; [done |].
  change (App.run (a :: acts) s) with (App.run acts (App.step a s)).
  destruct (queue_step a s Hts) as [Hstep Hts'].
  rewrite IH by done. cbn [foldl]. by rewrite Hstep.
Qed.

End Queue.

(** X10.  Whatever sequence of store operations and timer events the
    application has gone through since start-up, the command list holds
    the commands enqueued since the last [clearCommands()], in the order
    of the calls: running them changes their status but never removes,
    adds or reorders a record, so commands that have completed or failed
    stay in the list until it is cleared. *)
Theorem X10_queue_holds_commands_enqueued_since_last_clear :
  forall (acts : list App.Action),
    map cmd (CommandStore.commands (App.store_of (App.run acts App.initial)))
    = StoreQueue.queued acts.
Proof. intros acts. by apply (queue_run acts App.initial). Qed.


Section Cursor.

Import CommandExecutor ExecutorRun AppRun StoreQueue.

Lemma findIndex_from_found {A} (p : A -> bool) (l : list A) :
  forall (i : Z) (a : A),
    In a l -> p a = true ->
    exists r,
      (i <= CommandStore.findIndex_from p l i < i + Z.of_nat (length l))%Z /\
      l !! Z.to_nat (CommandStore.findIndex_from p l i - i) = Some r /\
      p r = true.
Proof.
  induction l as [|b l IH]; intros i a Hin Hp; [done |].
  cbn [CommandStore.findIndex_from]. destruct (p b) eqn:Hb.
  - exists b. rewrite Z.sub_diag. cbn [length]. split; [lia | done].
  - destruct Hin as [->|Hin]; [congruence |].
    destruct (IH (i + 1)%Z a Hin Hp) as (r & Hrange & Hr & Hpr).
    exists r. cbn [length]. split; [lia |]. split; [| done].
    replace (Z.to_nat (CommandStore.findIndex_from p l (i + 1) - i))
      with (S (Z.to_nat (CommandStore.findIndex_from p l (i + 1) - (i + 1))))
      by lia.
    done.
Qed.

Lemma queue_sync_cursor robot state rest :
  forall i s,
    CommandStore.currentCommandIndex
      (App.commandStore
         (host (queue_sync (App.store_callbacks robot) (App.store_hooks state)
                           rest i s)))
    = cursor_after state rest
        (CommandStore.currentCommandIndex (App.commandStore (host s))).
Proof.
  induction rest as [|c later IH]; intros i s; [done |].
  cbn [queue_sync]. rewrite IH. unfold cursor_after. cbn [foldl].
  f_equal.
  cbn [invoke_opt fmap option_fmap option_map
      App.store_hooks onCommandComplete onCommandStart onActionChange
      App.store_callbacks].
  cbn [invoke App.on_commands App.on_robot fst host App.commandStore].
  rewrite executeCommand_sync_commandStore. reflexivity.
Qed.

End Cursor.

(** X11.  When [executeCommands()] has run to its end undisturbed, the
    cursor is the index of the first record with the id of the last
    pending command; it points into the list, at a record with that id
    whose status is [completed]. *)
Theorem X11_cursor_ends_on_last_executed_command :
  forall (a : App.State) (before : list Command) (c : Command),
    CommandExecutor.tasks (App.machine a) = [] ->
    CommandExecutor.isExecuting
      (CommandExecutor.exec (CommandExecutor.st (App.machine a))) = false ->
    map cmd (CommandStore.getPendingCommands (App.store_of a))
    = before ++ [c] ->
    exists n r,
      let a' :=
        App.run (App.ExecuteCommands :: repeat (App.DelayElapsed 0) n) a in
      let cursor := CommandStore.currentCommandIndex (App.store_of a') in
      CommandExecutor.tasks (App.machine a') = [] /\
      cursor
      = CommandStore.findIndex
          (fun r => String.eqb (command_id (cmd r)) (command_id c))
          (CommandStore.commands (App.store_of a)) /\
      (0 <= cursor < Z.of_nat (length (CommandStore.commands (App.store_of a'))))%Z /\
      CommandStore.commands (App.store_of a') !! Z.to_nat cursor = Some r /\
      command_id (cmd r) = command_id c /\
      status r = completed.
Proof.
  intros a before c Ht Hidle Hpending.
  assert (Hne : CommandStore.getPendingCommands (App.store_of a) <> []).
  { intros E. rewrite E in Hpending. by destruct before. }
  destruct (executeCommands_completes a Ht Hidle Hne) as [n Hn].
  assert (Hin : exists r0, In r0 (CommandStore.commands (App.store_of a)) /\
                           cmd r0 = c).
  { assert (In c (map cmd (CommandStore.getPendingCommands (App.store_of a))))
      as Hc by (rewrite Hpending; apply in_or_app; right; by left).
    apply in_map_iff in Hc as (r0 & Hr0 & Hin).
    apply filter_In in Hin as [Hin _]. by exists r0. }
  destruct Hin as (r0 & Hin & Hr0).
  destruct (findIndex_from_found
              (fun r => String.eqb (command_id (cmd r)) (command_id c))
              (CommandStore.commands (App.store_of a)) 0 r0 Hin)
    as (r & Hrange & Hr & Hpr).
  { rewrite Hr0. apply String.eqb_refl. }
  fold (CommandStore.findIndex
          (fun r => String.eqb (command_id (cmd r)) (command_id c))
          (CommandStore.commands (App.store_of a))) in Hrange, Hr.
  rewrite Z.sub_0_r in Hr.
  exists n, (AppRun.mark_completed (map command_id (before ++ [c])) r).
  intros a' cursor. unfold cursor, App.store_of. fold a' in Hn.
  rewrite Hn. clear Hn. rewrite Hpending.
  unfold ExecutorRun.machine_of, ExecutorRun.executeQueue_sync.
  cbn [fst snd CommandExecutor.st CommandExecutor.tasks]. rewrite Hidle.
  destruct (before ++ [c]) as [|c0 later] eqn:E; [by destruct before |].
  cbn [length Nat.eqb]. rewrite <- E. split; [done |].
  rewrite queue_sync_cursor, queue_sync_commands.
  unfold StoreQueue.cursor_after. rewrite foldl_app. cbn [foldl].
  fold (App.store_of a).
  cbn [CommandExecutor.invoke_opt fmap option_fmap option_map
       CommandExecutor.onStatusChange App.store_callbacks
       CommandExecutor.invoke App.on_robot fst
       CommandExecutor.host CommandExecutor.with_exec App.commandStore].
  fold (App.store_of a).
  split; [done |]. rewrite length_map. split; [lia |].
  rewrite list_lookup_fmap, Hr. split; [done |].
  apply String.eqb_eq in Hpr.
  unfold AppRun.mark_completed.
  assert (existsb (String.eqb (command_id (cmd r)))
                  (map command_id (before ++ [c])) = true) as ->.
  { apply existsb_exists. exists (command_id c). split.
    - apply in_map. apply in_or_app. right. by left.
    - by apply String.eqb_eq. }
  done.
Qed.

(** X11 at a concrete input: [forward3] and [right2] have been enqueued. *)
Lemma X11_cursor_ends_on_last_executed_command_witness :
  exists n r,
    let a := App.run [App.AddCommands [App.forward3; App.right2]] App.initial in
    let a' :=
      App.run (App.ExecuteCommands :: repeat (App.DelayElapsed 0) n) a in
    CommandStore.currentCommandIndex (App.store_of a') = 1%Z /\
    CommandStore.commands (App.store_of a')
      !! Z.to_nat (CommandStore.currentCommandIndex (App.store_of a'))
    = Some r /\
    status r = completed.
Proof.
  destruct (X11_cursor_ends_on_last_executed_command
              (App.run [App.AddCommands [App.forward3; App.right2]] App.initial)
              [App.forward3] App.right2)
    as (n & r & _ & Hcursor & _ & Hr & _ & Hstatus).
  - reflexivity.
  - reflexivity.
  - reflexivity.
  - exists n, r. split; [exact Hcursor |]. split; [exact Hr | exact Hstatus].
Defined.

(** ** The WebSocket service: promises, reconnect timers *)

Section Promises.

Import WebSocketService WebSocketRun.

Lemma settle_resolved_none_rejected p ps :
  Forall (fun q => q <> Rejected) ps ->
  Forall (fun q => q <> Rejected) (settle p Resolved ps).
Proof.
  intros Hps. unfold settle. destruct (ps !! p) as [[| |]|]; try done.
  apply Forall_insert; done.
Qed.

Lemma connect_none_rejected s :
  none_rejected s -> none_rejected (fst (connect false s)).
Proof.
  unfold none_rejected, connect. cbv zeta. intros Hs.
  assert (Forall (fun q => q <> Rejected) (promises s ++ [Pending])) as Hs'.
  { apply Forall_app. split; [done |]. by apply Forall_singleton. }
  destruct (isReady _); [| by destruct (isConnecting _)].
  simpl. by apply settle_resolved_none_rejected.
Qed.

Lemma step_none_rejected e s :
  constructor_returns e = true ->
  none_rejected s -> none_rejected (step e s).
Proof.
  intros He Hs. destruct e as [t| |k|k|k|j t]; simpl in *.
  - destruct t; [done |]. by apply connect_none_rejected.
  - destruct s as [w a hb c m so pr ti sc]. unfold none_rejected in *.
    unfold disconnect, stopHeartbeat. simpl in *. by destruct w, hb.
  - unfold onopen. destruct (sockets s !! k) as [sock|]; [| done].
    destruct s as [w a hb c m so pr ti sc]. unfold none_rejected in *.
    unfold startHeartbeat, stopHeartbeat, resolve. simpl in *.
    destruct hb; simpl; by apply settle_resolved_none_rejected.
  - unfold none_rejected, onerror. by destruct (sockets s !! k).
  - unfold none_rejected. by destruct (onclose_frame k s) as [-> _].
  - destruct t; [done |]. unfold timer_fires.
    destruct (timers s !! j); [| done]. by apply connect_none_rejected.
Qed.

Lemma reconnect_delay_configured n :
  (n < maxReconnectAttempts)%nat ->
  reconnect_delay n ∈ APP_CONFIG.WS_RECONNECT_DELAY.
Proof.
  unfold maxReconnectAttempts. intros Hn.
  destruct n as [|[|[|n]]]; [| | | lia]; vm_compute; set_solver.
Qed.

Lemma connect_reconnect_bounded t s :
  reconnect_bounded s -> reconnect_bounded (fst (connect t s)).
Proof.
  unfold reconnect_bounded.
  by destruct (connect_keeps_counter t s) as (_ & -> & ->).
Qed.

Lemma step_reconnect_bounded e s :
  reconnect_bounded s -> reconnect_bounded (step e s).
Proof.
  intros Hs. destruct e as [t| |k|k|k|j t]; simpl.
  - by apply connect_reconnect_bounded.
  - destruct s as [w a hb c m so pr ti sc]. unfold reconnect_bounded in *.
    unfold disconnect, stopHeartbeat. simpl in *. by destruct w, hb.
  - unfold onopen. destruct (sockets s !! k) as [sock|]; [| done].
    destruct s as [w a hb c m so pr ti sc]. unfold reconnect_bounded in *.
    unfold startHeartbeat, stopHeartbeat, resolve. simpl in *.
    destruct hb; simpl; split; (lia || tauto).
  - unfold onerror. by destruct (sockets s !! k).
  - unfold onclose. destruct (sockets s !! k) as [sock|]; [| done].
    destruct s as [w a hb c m so pr ti sc]. unfold reconnect_bounded in *.
    destruct Hs as [Ha Hsc]. simpl in *.
    unfold stopHeartbeat, reconnect, maxReconnectAttempts in *.
    destruct a as [|[|[|[|n]]]]; [| | | | lia];
      destruct hb, m; simpl; try done;
      (split; [lia |]; apply Forall_app; split; [done |];
       apply Forall_singleton; apply reconnect_delay_configured;
       unfold maxReconnectAttempts; lia).
  - unfold timer_fires. destruct (timers s !! j); [| done].
    by apply connect_reconnect_bounded.
Qed.

Lemma not_open_isReady s :
  Forall (fun sock => readyState sock <> OPEN) (sockets s) -> isReady s = false.
Proof.
  intros Hs. unfold isReady, socket_open. destruct (ws s) as [k|]; [| done].
  destruct (sockets s !! k) as [[r p]|] eqn:Hk; [| done].
  pose proof (Forall_lookup_1 _ _ _ _ Hs Hk) as Hr. simpl in Hr.
  by destruct r.
Qed.

Lemma set_readyState_not_open k r l :
  r <> OPEN ->
  Forall (fun sock => readyState sock <> OPEN) l ->
  Forall (fun sock => readyState sock <> OPEN) (set_readyState k r l).
Proof.
  intros Hr Hl. unfold set_readyState. destruct (l !! k); [| done].
  by apply Forall_insert.
Qed.

Lemma close_socket_not_open k l :
  Forall (fun sock => readyState sock <> OPEN) l ->
  Forall (fun sock => readyState sock <> OPEN) (close_socket k l).
Proof.
  intros Hl. unfold close_socket.
  destruct (l !! k) as [[[] p]|]; try done;
    by apply set_readyState_not_open.
Qed.

Lemma close_socket_length k l : length (close_socket k l) = length l.
Proof.
  unfold close_socket, set_readyState.
  destruct (l !! k) as [[[] p]|]; try done; by rewrite length_insert.
Qed.

Lemma connect_all_pending s :
  all_pending s -> all_pending (fst (connect false s)).
Proof.
  intros [Hp Hs]. unfold connect. cbv zeta.
  rewrite (not_open_isReady (set_manualDisconnect false
                               (set_promises (promises s ++ [Pending]) s)))
    by done.
  assert (Forall (fun q => q = Pending) (promises s ++ [Pending])) as Hp'.
  { apply Forall_app. split; [done |]. by apply Forall_singleton. }
  destruct (isConnecting _); [done |]. split; [done |]. simpl.
  apply Forall_app. split; [done |]. by apply Forall_singleton.
Qed.

Lemma step_all_pending e s :
  constructor_returns e = true -> not_an_open e = true ->
  all_pending s -> all_pending (step e s).
Proof.
  intros He Ho Hs. destruct e as [t| |k|k|k|j t]; simpl in *.
  - destruct t; [done |]. by apply connect_all_pending.
  - destruct s as [w a hb c m so pr ti sc]. unfold all_pending in *.
    unfold disconnect, stopHeartbeat. simpl in *. destruct Hs as [Hp Hso].
    destruct w as [k|], hb; simpl; split; try done;
      by apply close_socket_not_open.
  - done.
  - unfold onerror. by destruct (sockets s !! k).
  - unfold all_pending. destruct (onclose_frame k s) as [-> ->].
    destruct Hs as [Hp Hso]. split; [done |].
    destruct (sockets s !! k); [| done].
    by apply set_readyState_not_open.
  - destruct t; [done |]. unfold timer_fires.
    destruct (timers s !! j); [| done]. by apply connect_all_pending.
Qed.

End Promises.

(** X12.  The promise returned by [connect] is rejected only when the
    [WebSocket] constructor throws.  As long as the constructor returns,
    no promise is ever rejected, whatever the sockets do: a connection
    that fails with an error or a close event leaves its promise
    pending. *)
Theorem X12_connect_promise_is_never_rejected_by_a_failed_connection :
  forall (evs : list WebSocketService.Event),
    forallb WebSocketRun.constructor_returns evs = true ->
    Forall (fun p => p <> WebSocketService.Rejected)
           (WebSocketService.promises
              (WebSocketService.run evs WebSocketService.initial)) /\
    (forallb WebSocketRun.not_an_open evs = true ->
     Forall (fun p => p = WebSocketService.Pending)
            (WebSocketService.promises
               (WebSocketService.run evs WebSocketService.initial))).
Proof.
  intros evs Hctor. split.
  - revert Hctor.
    generalize WebSocketService.initial,
      (Forall_nil_2 (fun p => p <> WebSocketService.Rejected)
       : WebSocketRun.none_rejected WebSocketService.initial).
    induction evs as [|e evs IH]; intros s0 Hs0 Hctor; [done |].
    cbn [forallb] in Hctor. apply andb_prop in Hctor as [He Hevs].
    apply IH; [| done]. by apply step_none_rejected.
  - intros Hopen.
    enough (WebSocketRun.all_pending
              (WebSocketService.run evs WebSocketService.initial))
      as [Hp _] by exact Hp.
    revert Hctor Hopen.
    generalize WebSocketService.initial,
      (conj (Forall_nil_2 (fun p => p = WebSocketService.Pending))
            (Forall_nil_2 (fun sock => WebSocketService.readyState sock
                                       <> WebSocketService.OPEN))
       : WebSocketRun.all_pending WebSocketService.initial).
    induction evs as [|e evs IH]; intros s0 Hs0 Hctor Hopen; [done |].
    cbn [forallb] in Hctor, Hopen.
    apply andb_prop in Hctor as [He Hevs].
    apply andb_prop in Hopen as [Ho Hos].
    apply IH; [| done | done]. by apply step_all_pending.
Qed.

(** X12 at a concrete input: the connection attempt fails with an error
    and a close; the retry made by the reconnect timer is closed too. *)
Lemma X12_connect_promise_is_never_rejected_by_a_failed_connection_witness :
  let evs :=
    [WebSocketService.Connect false; WebSocketService.SocketErrors 0;
     WebSocketService.SocketCloses 0;
     WebSocketService.ReconnectTimerFires 0 false;
     WebSocketService.SocketCloses 1] in
  WebSocketService.promises
    (WebSocketService.run evs WebSocketService.initial)
  = [WebSocketService.Pending; WebSocketService.Pending] /\
  Forall (fun p => p = WebSocketService.Pending)
         (WebSocketService.promises
            (WebSocketService.run evs WebSocketService.initial)).
Proof.
  intros evs. split; [reflexivity |].
  destruct (X12_connect_promise_is_never_rejected_by_a_failed_connection evs)
    as [_ Hpending]; [reflexivity |].
  apply Hpending. reflexivity.
Defined.

(** X13.  In every state the service can reach, the counter of
    [reconnect] is at most 3, and every delay that [reconnect] has passed
    to [setTimeout] is 1000, 2000 or 5000 ms. *)
Theorem X13_reconnect_counter_and_delays_are_bounded :
  forall (evs : list WebSocketService.Event),
    let s := WebSocketService.run evs WebSocketService.initial in
    (WebSocketService.reconnectAttempts s <= 3)%nat /\
    Forall (fun d => d = 1000%Z \/ d = 2000%Z \/ d = 5000%Z)
           (WebSocketService.scheduled s).
Proof.
  intros evs s.
  assert (WebSocketRun.reconnect_bounded s) as [Ha Hs].
  { unfold s. generalize WebSocketService.initial,
      (conj (Nat.le_0_l WebSocketService.maxReconnectAttempts)
            (Forall_nil_2 (fun d => d ∈ APP_CONFIG.WS_RECONNECT_DELAY))
       : WebSocketRun.reconnect_bounded WebSocketService.initial).
    induction evs as [|e evs IH]; intros s0 Hs0; [done |].
    apply IH. by apply step_reconnect_bounded. }
  split; [exact Ha |]. eapply Forall_impl; [exact Hs |].
  intros d Hd. cbv [APP_CONFIG.WS_RECONNECT_DELAY] in Hd.
  rewrite !elem_of_cons in Hd. destruct Hd as [?|[?|[?|Hd]]]; auto.
  by apply elem_of_nil in Hd.
Qed.

(** X14.  [disconnect()] does not cancel a reconnect timer that is
    pending.  When the timer fires after the manual disconnect (no
    connection attempt being underway), its [connect()] clears the
    manual-disconnect mark and creates a new socket, which becomes the
    current one: the service reconnects although [disconnect()] was
    called. *)
Theorem X14_disconnect_does_not_cancel_pending_reconnect :
  forall (s : WebSocketService.State) (j : nat) (d : Z),
    WebSocketService.timers s !! j = Some d ->
    WebSocketService.isConnecting s = false ->
    let s1 := WebSocketService.disconnect s in
    let s2 := WebSocketService.timer_fires j false s1 in
    WebSocketService.timers s1 = WebSocketService.timers s /\
    WebSocketService.manualDisconnect s1 = true /\
    WebSocketService.manualDisconnect s2 = false /\
    WebSocketService.isConnecting s2 = true /\
    WebSocketService.ws s2 = Some (length (WebSocketService.sockets s)) /\
    WebSocketService.sockets s2 !! length (WebSocketService.sockets s)
    = Some {| WebSocketService.readyState := WebSocketService.CONNECTING;
              WebSocketService.resolves :=
                length (WebSocketService.promises s) |}.
Proof.
  intros s j d Hj Hc s1 s2. unfold s2, s1.
  destruct s as [w a hb c m so pr ti sc]. simpl in *. subst c.
  unfold WebSocketService.timer_fires, WebSocketService.disconnect,
    WebSocketService.stopHeartbeat.
  destruct w as [k|], hb; simpl; rewrite Hj; simpl;
    unfold WebSocketService.connect, WebSocketService.isReady; simpl;
    repeat split; try done;
    rewrite <- ?(close_socket_length k so); try done;
    by rewrite lookup_app_r, Nat.sub_diag.
Qed.

(** X14 at a concrete input: the open connection has closed, and the
    first reconnect timer is pending when [disconnect()] is called. *)
Lemma X14_disconnect_does_not_cancel_pending_reconnect_witness :
  let s1 := WebSocketService.disconnect WebSocketRun.closed_once in
  let s2 := WebSocketService.timer_fires 0 false s1 in
  WebSocketService.manualDisconnect s1 = true /\
  WebSocketService.manualDisconnect s2 = false /\
  WebSocketService.ws s2 = Some 1%nat.
Proof.
  intros s1 s2.
  destruct (X14_disconnect_does_not_cancel_pending_reconnect
              WebSocketRun.closed_once 0 1000%Z)
    as (_ & Hflag & Hcleared & _ & Hws & _).
  - reflexivity.
  - reflexivity.
  - split; [exact Hflag |]. split; [exact Hcleared | exact Hws].
Defined.

(** ** The message listeners *)

Section ListenerFacts.

Import Listeners.

Lemma indexOf_from_range callback handlers :
  forall i, (0 <= i)%Z ->
    indexOf_from callback handlers i = (-1)%Z \/
    (i <= indexOf_from callback handlers i)%Z.
Proof.
  induction handlers as [|h rest IH]; intros i Hi; [by left |].
  cbn. destruct (Nat.eqb h callback); [right; lia |].
  destruct (IH (i + 1)%Z ltac:(lia)) as [->|Hr]; [by left | right; lia].
Qed.

Lemma splice_indexOf_from callback handlers :
  forall i, (0 <= i)%Z ->
    (if (-1 <? indexOf_from callback handlers i)%Z
     then delete (Z.to_nat (indexOf_from callback handlers i - i)) handlers
     else handlers)
    = without_first callback handlers.
Proof.
  induction handlers as [|h rest IH]; intros i Hi; [done |].
  cbn [indexOf_from without_first]. destruct (Nat.eqb h callback).
  - destruct (Z.ltb_spec (-1) i); [| lia]. by rewrite Z.sub_diag.
  - rewrite <- (IH (i + 1)%Z) by lia.
    destruct (indexOf_from_range callback rest (i + 1)%Z ltac:(lia))
      as [Hr|Hr].
    + by rewrite Hr.
    + destruct (Z.ltb_spec (-1) (indexOf_from callback rest (i + 1)));
        [| lia].
      replace (Z.to_nat (indexOf_from callback rest (i + 1) - i))
        with (S (Z.to_nat (indexOf_from callback rest (i + 1) - (i + 1))))
        by lia.
      done.
Qed.

Lemma handlers_of_on ty callback ty' reg :
  handlers_of ty' (on ty callback reg)
  = if String.eqb ty ty' then handlers_of ty' reg ++ [callback]
    else handlers_of ty' reg.
Proof.
  unfold handlers_of, on.
  destruct (String.eqb_spec ty ty') as [<-|Hne].
  - destruct (reg !! ty) as [hs|] eqn:E.
    + rewrite E. by rewrite lookup_insert_eq.
    + rewrite lookup_insert_eq, insert_insert_eq. by rewrite lookup_insert_eq.
  - destruct (reg !! ty) as [hs|] eqn:E.
    + rewrite E. by rewrite lookup_insert_ne.
    + rewrite lookup_insert_eq. by rewrite !lookup_insert_ne.
Qed.

Lemma handlers_of_off ty callback ty' reg :
  handlers_of ty' (off ty callback reg)
  = if String.eqb ty ty' then without_first callback (handlers_of ty' reg)
    else handlers_of ty' reg.
Proof.
  unfold handlers_of, off, indexOf.
  destruct (String.eqb_spec ty ty') as [<-|Hne].
  - destruct (reg !! ty) as [hs|] eqn:E; [| by rewrite E].
    pose proof (splice_indexOf_from callback hs 0 ltac:(lia)) as Hs.
    rewrite Z.sub_0_r in Hs.
    destruct (-1 <? indexOf_from callback hs 0)%Z.
    + by rewrite lookup_insert_eq.
    + by rewrite E.
  - destruct (reg !! ty) as [hs|] eqn:E; [| done].
    destruct (-1 <? _)%Z; [| done]. by rewrite lookup_insert_ne.
Qed.

Lemma without_first_snoc callback handlers :
  callback ∉ handlers -> without_first callback (handlers ++ [callback]) = handlers.
Proof.
  induction handlers as [|h rest IH]; intros Hn; cbn.
  - by rewrite Nat.eqb_refl.
  - apply not_elem_of_cons in Hn as [Hne Hn].
    destruct (Nat.eqb_spec h callback) as [->|_]; [done |]. by rewrite IH.
Qed.

Lemma forEach_no_throw throws handlers :
  (forall h, h ∈ handlers -> throws h = false) ->
  forEach throws handlers = (handlers, false).
Proof.
  induction handlers as [|h rest IH]; intros Hn; [done |].
  cbn. rewrite Hn by left. rewrite IH; [done |].
  intros h' Hh'. apply Hn. by right.
Qed.

Lemma handlers_of_register_all ty regs :
  forall reg,
    handlers_of ty (register_all regs reg)
    = handlers_of ty reg ++ registered_for ty regs.
Proof.
  induction regs as [|[ty' cb] regs IH]; intros reg.
  { by rewrite app_nil_r. }
  change (register_all ((ty', cb) :: regs) reg)
    with (register_all regs (on ty' cb reg)).
  rewrite IH, handlers_of_on. unfold registered_for. cbn.
  destruct (String.eqb ty' ty); [| done]. by rewrite <- app_assoc.
Qed.

Lemma indexOf_from_absent callback handlers :
  forall i, callback ∉ handlers -> indexOf_from callback handlers i = (-1)%Z.
Proof.
  induction handlers as [|h rest IH]; intros i Hn; [done |].
  cbn. apply not_elem_of_cons in Hn as [Hne Hn].
  destruct (Nat.eqb_spec h callback) as [->|_]; [done |]. by apply IH.
Qed.

Lemma without_first_count callback handlers :
  count_occ Nat.eq_dec (without_first callback handlers) callback
  = pred (count_occ Nat.eq_dec handlers callback).
Proof.
  induction handlers as [|h rest IH]; [done |].
  cbn. destruct (Nat.eqb_spec h callback) as [->|Hne].
  - by destruct (Nat.eq_dec callback callback).
  - cbn. by destruct (Nat.eq_dec h callback).
Qed.

Lemma without_first_others callback handlers :
  List.filter (fun h => negb (Nat.eqb h callback))
              (without_first callback handlers)
  = List.filter (fun h => negb (Nat.eqb h callback)) handlers.
Proof.
  induction handlers as [|h rest IH]; [done |].
  cbn. destruct (Nat.eqb h callback) eqn:E; cbn; [done |].
  by rewrite E, IH.
Qed.

Lemma forEach_throw throws handlers :
  forall h, h ∈ handlers -> throws h = true ->
    exists before thrower after,
      handlers = before ++ thrower :: after /\
      Forall (fun x => throws x = false) before /\
      throws thrower = true /\
      forEach throws handlers = (before ++ [thrower], true).
Proof.
  induction handlers as [|h0 rest IH]; intros h Hin Hh.
  { by apply elem_of_nil in Hin. }
  cbn. destruct (throws h0) eqn:E.
  - by exists [], h0, rest.
  - apply elem_of_cons in Hin as [->|Hin]; [congruence |].
    destruct (IH h Hin Hh) as (before & thrower & after & -> & Hb & Ht & ->).
    exists (h0 :: before), thrower, after. repeat split; try done.
    by constructor.
Qed.

Lemma handleMessage_no_throw throws ty reg :
  (forall h, throws h = false) ->
  handleMessage throws ty reg
  = handlers_of ty reg ++ handlers_of "*" reg.
Proof.
  intros Hn. unfold handleMessage, handlers_of.
  destruct (reg !! ty) as [hs|]; cbn.
  - rewrite forEach_no_throw by done.
    destruct (reg !! "*"%string) as [al|]; cbn.
    + by rewrite forEach_no_throw by done.
    + by rewrite app_nil_r.
  - destruct (reg !! "*"%string) as [al|]; cbn; [| done].
    by rewrite forEach_no_throw by done.
Qed.

End ListenerFacts.

Lemma without_first_split (callback : Listeners.Handler)
  (handlers : list Listeners.Handler) :
  callback ∈ handlers ->
  exists earlier later,
    handlers = earlier ++ callback :: later /\
    (callback ∉ earlier) /\
    Listeners.without_first callback handlers = earlier ++ later.
Proof.
  induction handlers as [|h rest IH]; intros Hin.
  { by apply elem_of_nil in Hin. }
  cbn. destruct (Nat.eqb_spec h callback) as [->|Hne].
  - exists [], rest. split; [done |]. split; [apply not_elem_of_nil | done].
  - apply elem_of_cons in Hin as [->|Hin]; [done |].
    destruct (IH Hin) as (earlier & later & -> & Hn & ->).
    exists (h :: earlier), later. split; [done |]. split; [| done].
    apply not_elem_of_cons. split; [congruence | done].
Qed.

(** X15.  [off(type, callback)] removes one registration of the callback
    for that type, the earliest one, and nothing else: the handlers of the
    type before the first occurrence of the callback and those after it
    stay, in their order (a later registration of the same callback
    included), and the handlers of the other types are untouched.  When
    the callback is not registered for the type (or the type has no
    handlers at all) the call changes nothing.  A callback registered
    with [on] and removed with [off] leaves the handlers of every type as
    they were, provided it was not registered for the type before. *)
Theorem X15_off_removes_one_registration :
  forall (ty : string) (callback : Listeners.Handler)
    (reg : gmap string (list Listeners.Handler)),
    let before := Listeners.handlers_of ty reg in
    let after := Listeners.handlers_of ty (Listeners.off ty callback reg) in
    (callback ∈ before ->
     exists earlier later,
       before = earlier ++ callback :: later /\
       (callback ∉ earlier) /\
       after = earlier ++ later) /\
    count_occ Nat.eq_dec after callback
    = pred (count_occ Nat.eq_dec before callback) /\
    List.filter (fun h => negb (Nat.eqb h callback)) after
    = List.filter (fun h => negb (Nat.eqb h callback)) before /\
    (forall ty', ty' <> ty ->
       Listeners.handlers_of ty' (Listeners.off ty callback reg)
       = Listeners.handlers_of ty' reg) /\
    (callback ∉ before ->
     Listeners.off ty callback reg = reg /\
     forall ty',
       Listeners.handlers_of ty'
         (Listeners.off ty callback (Listeners.on ty callback reg))
       = Listeners.handlers_of ty' reg).
Proof.
  intros ty callback reg before after. unfold after, before.
  rewrite handlers_of_off, String.eqb_refl.
  split; [apply without_first_split |].
  split; [apply without_first_count |].
  split; [apply without_first_others |]. split.
  - intros ty' Hne. rewrite handlers_of_off.
    destruct (String.eqb_spec ty ty'); [congruence | done].
  - intros Hn. split.
    + unfold Listeners.off, Listeners.handlers_of, Listeners.indexOf in *.
      destruct (reg !! ty) as [hs|]; [| done]. cbn in Hn.
      by rewrite indexOf_from_absent.
    + intros ty'. rewrite handlers_of_off, handlers_of_on.
      destruct (String.eqb_spec ty ty') as [<-|]; [| done].
      by apply without_first_snoc.
Qed.

(** X15 at concrete inputs: handler 7 is registered for [call_status]
    twice, around handler 3, and removed once, which leaves the second
    registration; and handler 7 is registered and removed again beside
    handler 3. *)
Lemma X15_off_removes_one_registration_witness :
  (Listeners.handlers_of "call_status"
     (Listeners.off "call_status" 7%nat
        (Listeners.register_all
           [("call_status"%string, 7%nat); ("call_status"%string, 3%nat);
            ("call_status"%string, 7%nat)] Listeners.no_listeners))
   = [3%nat; 7%nat] /\
   exists earlier later,
     [7%nat; 3%nat; 7%nat] = earlier ++ 7%nat :: later /\
     (7%nat ∉ earlier) /\
     Listeners.handlers_of "call_status"
       (Listeners.off "call_status" 7%nat
          (Listeners.register_all
             [("call_status"%string, 7%nat); ("call_status"%string, 3%nat);
              ("call_status"%string, 7%nat)] Listeners.no_listeners))
     = earlier ++ later) /\
  Listeners.handlers_of "call_status"
    (Listeners.off "call_status" 7%nat
       (Listeners.on "call_status" 7%nat
          (Listeners.on "call_status" 3%nat Listeners.no_listeners)))
  = [3%nat].
Proof.
  split; [split; [reflexivity |] |].
  - destruct (X15_off_removes_one_registration "call_status" 7%nat
                (Listeners.register_all
                   [("call_status"%string, 7%nat);
                    ("call_status"%string, 3%nat);
                    ("call_status"%string, 7%nat)] Listeners.no_listeners))
      as (Hearliest & _).
    apply Hearliest. vm_compute. apply list_elem_of_here.
  - destruct (X15_off_removes_one_registration "call_status" 7%nat
                (Listeners.on "call_status" 3%nat Listeners.no_listeners))
      as (_ & _ & _ & _ & Hround).
    destruct Hround as [_ Hround].
    + vm_compute. intros Hin. apply list_elem_of_singleton in Hin. lia.
    + apply (Hround "call_status"%string).
Defined.

(** X16.  After any sequence of registrations, a message is passed first
    to the handlers registered for its type, in the order of their
    registration, then to the handlers registered for ["*"], in the order
    of theirs, when no handler throws.  (A message whose type is ["*"]
    itself is thus passed to every wildcard handler twice.) *)
Theorem X16_dispatch_order :
  forall (regs : list (string * Listeners.Handler))
    (throws : Listeners.Handler -> bool) (ty : string),
    (forall h, throws h = false) ->
    Listeners.handleMessage throws ty
      (Listeners.register_all regs Listeners.no_listeners)
    = Listeners.registered_for ty regs ++ Listeners.registered_for "*" regs.
Proof.
  intros regs throws ty Hn.
  rewrite handleMessage_no_throw by done.
  by rewrite !handlers_of_register_all.
Qed.

(** X16 at a concrete input. *)
Lemma X16_dispatch_order_witness :
  Listeners.handleMessage (fun _ => false) "call_status"
    (Listeners.register_all
       [("*"%string, 1%nat); ("call_status"%string, 2%nat);
        ("call_error"%string, 3%nat); ("call_status"%string, 4%nat)]
       Listeners.no_listeners)
  = [2%nat; 4%nat; 1%nat].
Proof.
  apply (X16_dispatch_order
           [("*"%string, 1%nat); ("call_status"%string, 2%nat);
            ("call_error"%string, 3%nat); ("call_status"%string, 4%nat)]
           (fun _ => false) "call_status").
  reflexivity.
Defined.

(** X17.  A handler that throws ends the dispatch of the message: the
    handlers registered for the type after it are not invoked, and no
    wildcard handler is. *)
Theorem X17_throwing_handler_ends_dispatch :
  forall (throws : Listeners.Handler -> bool) (ty : string)
    (reg : gmap string (list Listeners.Handler)) (h : Listeners.Handler),
    h ∈ Listeners.handlers_of ty reg ->
    throws h = true ->
    exists before thrower after,
      Listeners.handlers_of ty reg = before ++ thrower :: after /\
      Forall (fun x => throws x = false) before /\
      throws thrower = true /\
      Listeners.handleMessage throws ty reg = before ++ [thrower].
Proof.
  intros throws ty reg h Hin Hh.
  unfold Listeners.handleMessage, Listeners.handlers_of in *.
  destruct (reg !! ty) as [hs|]; cbn in Hin; [| by apply elem_of_nil in Hin].
  destruct (forEach_throw throws hs h Hin Hh)
    as (before & thrower & after & -> & Hb & Ht & ->).
  by exists before, thrower, after.
Qed.

(** X17 at a concrete input: handler 2 throws. *)
Lemma X17_throwing_handler_ends_dispatch_witness :
  exists before thrower after,
    Listeners.handlers_of "call_status"
      (Listeners.register_all
         [("*"%string, 1%nat); ("call_status"%string, 2%nat);
          ("call_status"%string, 4%nat)] Listeners.no_listeners)
    = before ++ thrower :: after /\
    Forall (fun x => Nat.eqb x 2 = false) before /\
    Nat.eqb thrower 2 = true /\
    Listeners.handleMessage (fun x => Nat.eqb x 2) "call_status"
      (Listeners.register_all
         [("*"%string, 1%nat); ("call_status"%string, 2%nat);
          ("call_status"%string, 4%nat)] Listeners.no_listeners)
    = before ++ [thrower].
Proof.
  apply (X17_throwing_handler_ends_dispatch (fun x => Nat.eqb x 2)
           "call_status"
           (Listeners.register_all
              [("*"%string, 1%nat); ("call_status"%string, 2%nat);
               ("call_status"%string, 4%nat)] Listeners.no_listeners)
           2%nat).
  - vm_compute. apply list_elem_of_here.
  - reflexivity.
Defined.

(** ** The chunks of a whole voice call *)

Section Stream.

Import VoiceCall VoiceCallRun.

Lemma base64_encode_app (k : nat) :
  forall a b : list byte,
    length a = (3 * k)%nat ->
    base64_encode (a ++ b) = base64_encode a ++ base64_encode b.
Proof.
  induction k as [|k IH]; intros a b Hlen.
  { by destruct a. }
  destruct a as [|x [|y [|z a']]]; try (simpl in Hlen; lia).
  change ((x :: y :: z :: a') ++ b) with (x :: y :: z :: (a' ++ b)).
  cbn [base64_encode]. rewrite (IH a' b) by (simpl in Hlen; lia).
  by rewrite <- !app_assoc.
Qed.

Lemma ceil_div3_multiple (k : nat) : ceil_div3 (3 * k) = k.
Proof.
  unfold ceil_div3. symmetry. apply (Nat.div_unique _ 3 k 2); lia.
Qed.

Lemma sendAudioChunk_grows (v : option FileView) (s : Session) :
  let s' := sendAudioChunk v s in
  (lastAudioPosition s <= lastAudioPosition s')%nat /\
  sent s `prefix_of` sent s' /\
  isInCall s' = isInCall s.
Proof.
  intros s'. destruct v as [f|]; [| done].
  destruct (sendAudioChunk_cases s f)
    as [Hsame|(_ & Hlt & Hsent & Hpos & _ & Hcall)]; fold s' in Hsame || idtac.
  { by rewrite Hsame. }
  fold s' in Hsent, Hpos, Hcall. rewrite Hsent, Hpos, Hcall.
  split; [lia |]. split; [| done]. by apply prefix_app_r.
Qed.

Lemma sendAudioChunk_again (v : option FileView) (s : Session) :
  sendAudioChunk v (sendAudioChunk v s) = sendAudioChunk v s.
Proof.
  destruct v as [f|]; [| done].
  destruct (sendAudioChunk_cases s f)
    as [Hsame|(_ & Hlt & Hsent & Hpos & _ & Hcall)].
  { by rewrite !Hsame. }
  set (s' := sendAudioChunk (Some f) s) in *.
  unfold sendAudioChunk at 1.
  destruct (negb (isInCall s')); [done |].
  destruct (negb (file_exists f) || (file_size f =? 0)%nat); [done |].
  rewrite Hpos, Nat.leb_refl. done.
Qed.

Lemma sendAudioChunk_stream (data : list byte) (v : option FileView)
  (s : Session) :
  on_group_boundary data v ->
  lossless data s ->
  lossless data (sendAudioChunk v s).
Proof.
  intros Hv Hs. destruct v as [f|]; [| done].
  destruct Hv as (Hdata & Hle & Hn).
  destruct Hs as (Hlast & Hlastle & pieces & Hpieces & Hconcat & Hstream).
  set (n := file_size f) in *.
  set (s' := sendAudioChunk (Some f) s).
  destruct (sendAudioChunk_cases s f)
    as [Hsame|(_ & Hlt & Hsent & Hpos & _)]; fold s' in Hsame || idtac.
  { rewrite Hsame. split; [done |]. split; [done |]. by exists pieces. }
  fold s' in Hsent, Hpos. fold n in Hlt, Hpos. rewrite Hdata in Hsent.
  apply Nat.Div0.mod_divides in Hlast as [k Hk].
  rewrite Hk, ceil_div3_multiple, (Nat.mul_comm k 4), base64_encode_drop
    in Hsent.
  assert (take (3 * k) data ++ drop (3 * k) (take n data) = take n data)
    as Hsplit.
  { rewrite <- (take_drop (3 * k) (take n data)) at 2.
    f_equal. rewrite take_take. f_equal. lia. }
  unfold lossless. rewrite Hpos. split; [done |]. split; [done |].
  exists (pieces ++ [drop (3 * k) (take n data)]).
  unfold stream. rewrite Hsent, !map_app, !concat_app. cbn [map fst concat].
  rewrite !app_nil_r. fold (stream s).
  rewrite Hpieces, Hconcat, Hstream, Hk. split; [done |].
  split; [done |].
  rewrite <- (base64_encode_app k) by (rewrite length_take; lia).
  by rewrite Hsplit.
Qed.

Lemma ticks_stream (data : list byte) (views : list (option FileView)) :
  Forall (on_group_boundary data) views ->
  forall s, lossless data s -> lossless data (ticks views s).
Proof.
  induction 1 as [|v views Hv Hviews IH]; intros s Hs; [done |].
  change (ticks (v :: views) s) with (ticks views (sendAudioChunk v s)).
  apply IH. by apply sendAudioChunk_stream.
Qed.

Lemma ticks_grow (views : list (option FileView)) :
  forall s,
    (lastAudioPosition s <= lastAudioPosition (ticks views s))%nat /\
    sent s `prefix_of` sent (ticks views s) /\
    isInCall (ticks views s) = isInCall s.
Proof.
  induction views as [|v views IH]; intros s; [done |].
  change (ticks (v :: views) s) with (ticks views (sendAudioChunk v s)).
  destruct (IH (sendAudioChunk v s)) as (A & B & C).
  destruct (sendAudioChunk_grows v s) as (A' & B' & C').
  split; [lia |]. split; [by etrans | congruence].
Qed.

Lemma ticks_not_in_call (views : list (option FileView)) :
  forall s, isInCall s = false -> ticks views s = s.
Proof.
  induction views as [|v views IH]; intros s Hs; [done |].
  change (ticks (v :: views) s) with (ticks views (sendAudioChunk v s)).
  assert (sendAudioChunk v s = s) as ->; [| by apply IH].
  destruct v as [f|]; [| done]. unfold sendAudioChunk. by rewrite Hs.
Qed.

End Stream.

(** X18.  Suppose that at every tick the bytes read from the file are
    exactly the [size] bytes reported for it (the file has not grown
    between the call that reports the size and the call that reads it),
    that they are the first [size] bytes of the final recording (the
    recording only grows), and that this size is a multiple of 3.  Then
    nothing is lost and nothing is sent twice: the chunks sent are the
    base64 encodings of consecutive pieces of the recording which together
    make up its bytes up to the sent-offset, and the chunks put end to end
    are the base64 encoding of these bytes. *)
Theorem X18_chunks_are_lossless_on_group_boundaries :
  forall (data : list byte) (views : list (option VoiceCall.FileView)),
    Forall (VoiceCallRun.on_group_boundary data) views ->
    let s := VoiceCall.ticks views VoiceCall.started in
    exists pieces : list (list byte),
      map fst (VoiceCall.sent s) = map VoiceCall.base64_encode pieces /\
      concat pieces = take (VoiceCall.lastAudioPosition s) data /\
      VoiceCallRun.stream s
      = VoiceCall.base64_encode (take (VoiceCall.lastAudioPosition s) data).
Proof.
  intros data views Hviews s.
  destruct (ticks_stream data views Hviews VoiceCall.started)
    as (_ & _ & Hpieces); [| exact Hpieces].
  split; [done |]. split; [simpl; lia |]. by exists [].
Qed.

(** X18 at a concrete input: the 21 first bytes of [recording22], of
    which 9 are there at the first tick. *)
Lemma X18_chunks_are_lossless_on_group_boundaries_witness :
  let s := VoiceCall.ticks
             (VoiceCallRun.growing VoiceCall.recording22 [9; 21]%nat)
             VoiceCall.started in
  exists pieces : list (list byte),
    map fst (VoiceCall.sent s) = map VoiceCall.base64_encode pieces /\
    concat pieces
    = take (VoiceCall.lastAudioPosition s) VoiceCall.recording22 /\
    VoiceCallRun.stream s
    = VoiceCall.base64_encode
        (take (VoiceCall.lastAudioPosition s) VoiceCall.recording22).
Proof.
  apply (X18_chunks_are_lossless_on_group_boundaries VoiceCall.recording22
           (VoiceCallRun.growing VoiceCall.recording22 [9; 21]%nat)).
  repeat constructor; vm_compute; lia.
Defined.

(** X19.  A tick never takes anything back: over any sequence of ticks
    the sent-offset does not decrease, the chunks already sent stay as
    they are, and the in-call flag is not touched.  A second tick that
    sees the same file as the one before sends nothing.  While the
    in-call flag is not set, ticks do nothing at all. *)
Theorem X19_ticks_only_append :
  forall (views : list (option VoiceCall.FileView))
    (v : option VoiceCall.FileView) (s : VoiceCall.Session),
    (VoiceCall.lastAudioPosition s
     <= VoiceCall.lastAudioPosition (VoiceCall.ticks views s))%nat /\
    VoiceCall.sent s `prefix_of` VoiceCall.sent (VoiceCall.ticks views s) /\
    VoiceCall.isInCall (VoiceCall.ticks views s) = VoiceCall.isInCall s /\
    VoiceCall.ticks [v; v] s = VoiceCall.ticks [v] s /\
    (VoiceCall.isInCall s = false -> VoiceCall.ticks views s = s).
Proof.
  intros views v s. destruct (ticks_grow views s) as (A & B & C).
  repeat split; try done.
  - apply sendAudioChunk_again.
  - apply ticks_not_in_call.
Qed.

(** X19 at a concrete input: the refs before [startCall]. *)
Lemma X19_ticks_only_append_witness :
  let idle := {| VoiceCall.isInCall := false;
                 VoiceCall.lastAudioPosition := 0;
                 VoiceCall.isFirstChunk := true;
                 VoiceCall.sent := [] |} in
  VoiceCall.ticks [Some (VoiceCall.file_of VoiceCall.recording22)] idle = idle.
Proof.
  intros idle.
  destruct (X19_ticks_only_append
              [Some (VoiceCall.file_of VoiceCall.recording22)] None idle)
    as (_ & _ & _ & _ & Hidle).
  apply Hidle. reflexivity.
Defined.

(** ** Commands enqueued during a run *)

Section Stranded.

Import CommandExecutor ExecutorRun AppRun RunInFlight.

Lemma task_refines {H} (t : Task H) (s : St H) :
  callbacks_satisfy never_throws (t_callbacks t) ->
  hooks_satisfy never_throws (t_hooks t) ->
  getPosition_total (t_callbacks t) ->
  phase_in_loop (t_phase t) = true ->
  abortController (exec s) = Some {| aborted := false |} ->
  exists n, drive n (s, Some t) = (task_sync t s, None).
Proof.
  intros Hcbs Hhooks Hget Hph Hac.
  destruct t as [c i later cbs hooks ph]. cbn in *.
  assert (signal_aborted (exec s) = false) as Hsig.
  { unfold signal_aborted. by rewrite Hac. }
  assert (exists n, elapse n cbs (s, Awaiting ph)
                    = (phase_sync ph cbs s, Returned)) as [n0 Hn0].
  { destruct ph as [|fr j]; [by exists 1%nat |].
    exists (S (steps fr - j)). apply elapse_animate; [done | done |].
    cbn in Hph. apply Nat.leb_le in Hph. lia. }
  destruct (drive_settle cbs hooks c i later n0 s (Awaiting ph) _ Hn0)
    as [m Hm].
  cbn [settle_command] in Hm.
  pose proof Hhooks as (_ & Hco & _).
  rewrite (invoke_opt_fst (EvCommandComplete c i) (onCommandComplete hooks)
             (fun f => f c i)) in Hm by eauto.
  destruct (queue_refines cbs hooks Hcbs Hhooks Hget later (S i)
              (fst (invoke_opt (EvCommandComplete c i)
                      ((fun f => f c i) <$> onCommandComplete hooks)
                      (phase_sync ph cbs s)))) as [n1 Hn1].
  { rewrite invoke_opt_exec.
    destruct ph as [|fr j]; [done |]. cbn [phase_sync].
    by rewrite invoke_exec, animate_exec. }
  exists (m + n1)%nat. rewrite drive_add, Hm. exact Hn1.
Qed.

Lemma mark_completed_current (c : Command) (ids : list string)
  (r : CommandWithStatus) :
  mark_completed ids
    (if String.eqb (command_id (cmd r)) (command_id c)
     then mkCommandWithStatus (cmd r) completed None (progress r) else r)
  = mark_completed (command_id c :: ids) r.
Proof.
  unfold mark_completed. cbn [existsb].
  destruct (String.eqb (command_id (cmd r)) (command_id c)) eqn:E; cbn.
  - by destruct (existsb _ ids).
  - done.
Qed.

Lemma task_sync_commands robot state c i later ph (s : St App.Stores) :
  CommandStore.commands
    (App.commandStore
       (host (task_sync
                (mkTask c i later (App.store_callbacks robot)
                        (App.store_hooks state) ph) s)))
  = map (mark_completed (map command_id (c :: later)))
        (CommandStore.commands (App.commandStore (host s))).
Proof.
  unfold task_sync. cbn [t_current t_index t_later t_callbacks t_hooks t_phase].
  rewrite queue_sync_commands.
  cbn [invoke_opt fmap option_fmap option_map App.store_hooks
       onCommandComplete invoke App.on_commands fst host App.commandStore].
  assert (App.commandStore (host (phase_sync ph (App.store_callbacks robot) s))
          = App.commandStore (host s)) as ->.
  { destruct ph as [|fr j]; [done |]. cbn. by rewrite animate_commandStore. }
  cbn. rewrite map_map. apply map_ext. intros r.
  apply mark_completed_current.
Qed.

Lemma app_delays_autostart n (a : App.State) :
  App.autostart (App.run (repeat (App.DelayElapsed 0) n) a) = App.autostart a.
Proof.
  revert a. induction n as [|n IH]; intros a; [done |].
  change (App.run (repeat (App.DelayElapsed 0) (S n)) a)
    with (App.run (repeat (App.DelayElapsed 0) n)
            (App.step (App.DelayElapsed 0) a)).
  by rewrite IH.
Qed.

End Stranded.

(** X20.  A command enqueued while a run is in flight is not picked up by
    that run, which executes the commands that were pending when it
    started; and the timer that [addCommand] sets, firing while the run
    is still in flight, finds the executor busy and does nothing.  So
    when the run has ended the command is still [pending], with no run in
    flight and no timer left to start one: it stays so until something
    calls [executeCommands()] again. *)
Theorem X20_command_enqueued_during_a_run_is_left_pending :
  forall (a : App.State) (t : CommandExecutor.Task App.Stores) (c : Command),
    CommandExecutor.tasks (App.machine a) = [t] ->
    RunInFlight.started_by_store t ->
    RunInFlight.phase_in_loop (CommandExecutor.t_phase t) = true ->
    CommandExecutor.isExecuting
      (CommandExecutor.exec (CommandExecutor.st (App.machine a))) = true ->
    CommandExecutor.abortController
      (CommandExecutor.exec (CommandExecutor.st (App.machine a)))
    = Some {| CommandExecutor.aborted := false |} ->
    App.autostart a = 0%nat ->
    existsb (String.eqb (command_id c))
            (map command_id (RunInFlight.remaining t)) = false ->
    exists n,
      let a' :=
        App.run (App.AddCommand c :: App.AutostartFires
                   :: repeat (App.DelayElapsed 0) n) a in
      CommandExecutor.tasks (App.machine a') = [] /\
      CommandExecutor.isExecuting
        (CommandExecutor.exec (CommandExecutor.st (App.machine a'))) = false /\
      App.autostart a' = 0%nat /\
      CommandStore.commands (App.store_of a')
      = map (AppRun.mark_completed
               (map command_id (RunInFlight.remaining t)))
            (CommandStore.commands (App.store_of a))
          ++ [CommandStore.with_pending c] /\
      In (CommandStore.with_pending c)
         (CommandStore.getPendingCommands (App.store_of a')).
Proof.
  intros a t c Ht (robot & state & Hcbs & Hhooks) Hph Hbusy Hac Hauto Hid.
  destruct a as [[s ts] au].
  cbn [App.machine App.autostart CommandExecutor.tasks CommandExecutor.st]
    in Ht, Hbusy, Hac, Hauto.
  subst ts au.
  set (s2 := {| CommandExecutor.exec := CommandExecutor.exec s;
                CommandExecutor.host :=
                  {| App.commandStore :=
                       CommandStore.addCommand c
                         (App.commandStore (CommandExecutor.host s));
                     App.robotStore :=
                       App.robotStore (CommandExecutor.host s) |};
                CommandExecutor.trace := CommandExecutor.trace s |}).
  set (a0 := {| App.machine := {| CommandExecutor.st := s;
                                  CommandExecutor.tasks := [t] |};
                App.autostart := 0 |}).
  assert (App.run [App.AddCommand c; App.AutostartFires] a0
          = {| App.machine := ExecutorRun.machine_of (s2, Some t);
               App.autostart := 0 |}) as Ha2.
  { cbn [App.run foldl App.step App.autostart App.machine a0].
    unfold App.executeCommands, CommandExecutor.getIsExecuting.
    cbn [App.set_commands App.on_stores CommandExecutor.st
         CommandExecutor.exec].
    by rewrite Hbusy. }
  destruct (task_refines t s2) as [n Hn].
  { rewrite Hcbs. apply store_callbacks_never_throw. }
  { rewrite Hhooks. apply store_hooks_never_throw. }
  { rewrite Hcbs. apply store_getPosition_total. }
  { done. }
  { exact Hac. }
  exists n. intros a'.
  assert (a' = App.run (repeat (App.DelayElapsed 0) n)
                 (App.run [App.AddCommand c; App.AutostartFires] a0)) as ->.
  { reflexivity. }
  rewrite Ha2, app_delays_autostart. unfold App.store_of.
  rewrite app_delays. cbn [App.machine App.autostart].
  rewrite run_timers, Hn.
  unfold ExecutorRun.machine_of.
  cbn [fst snd CommandExecutor.st CommandExecutor.tasks].
  destruct t as [c0 i later cbs hooks ph]. cbn in Hcbs, Hhooks.
  subst cbs hooks. unfold RunInFlight.remaining in *.
  cbn [CommandExecutor.t_current CommandExecutor.t_later] in *.
  assert (CommandStore.commands
            (App.commandStore
               (CommandExecutor.host
                  (RunInFlight.task_sync
                     (CommandExecutor.mkTask c0 i later
                        (App.store_callbacks robot) (App.store_hooks state) ph)
                     s2)))
          = map (AppRun.mark_completed (map command_id (c0 :: later)))
                (CommandStore.commands
                   (App.commandStore (CommandExecutor.host s)))
              ++ [CommandStore.with_pending c]) as Hcommands.
  { rewrite task_sync_commands. unfold s2.
    cbn [CommandExecutor.host App.commandStore CommandStore.addCommand
         CommandStore.commands].
    rewrite map_app. f_equal.
    cbn [map]. unfold AppRun.mark_completed.
    cbn [cmd CommandStore.with_pending].
    change (command_id c0 :: map command_id later)
      with (map command_id (c0 :: later)).
    by rewrite Hid. }
  split; [done |]. split.
  { unfold RunInFlight.task_sync. by rewrite queue_sync_exec. }
  split; [done |]. split; [exact Hcommands |].
  unfold CommandStore.getPendingCommands. apply filter_In. split; [| done].
  rewrite Hcommands. apply in_or_app. right. by left.
Qed.

(** X20 at a concrete input: [right2] is enqueued while [forward3] is
    being executed. *)
Lemma X20_command_enqueued_during_a_run_is_left_pending_witness :
  exists n,
    let a' :=
      App.run (App.AddCommand App.right2 :: App.AutostartFires
                 :: repeat (App.DelayElapsed 0) n)
              RunInFlight.forward3_running in
    CommandExecutor.tasks (App.machine a') = [] /\
    App.autostart a' = 0%nat /\
    In (CommandStore.with_pending App.right2)
       (CommandStore.getPendingCommands (App.store_of a')).
Proof.
  destruct (X20_command_enqueued_during_a_run_is_left_pending
              RunInFlight.forward3_running
              (CommandExecutor.mkTask App.forward3 0 []
                 (App.store_callbacks RobotStore.initial)
                 (App.store_hooks
                    (CommandStore.addCommand App.forward3 CommandStore.initial))
                 (CommandExecutor.SleepStep
                    (CommandExecutor.new_frame CommandExecutor.DEFAULT_CONFIG
                       (RobotStore.position RobotStore.initial)
                       (CommandExecutor.calculateTargetPosition App.forward3
                          (RobotStore.position RobotStore.initial))) 1))
              App.right2)
    as (n & Ht & _ & Hauto & _ & Hpending).
  - reflexivity.
  - by eexists _, _.
  - reflexivity.
  - reflexivity.
  - reflexivity.
  - reflexivity.
  - reflexivity.
  - exists n. split; [exact Ht |]. split; [exact Hauto | exact Hpending].
Defined.

(** ** Changing the configuration during a run *)

Section SetConfig.

Import CommandExecutor Reconfigure.

Context {H : Type}.

Lemma invoke_reconfigured cfg ev (f : Callback H) (s : St H) :
  invoke ev f (reconfigured cfg s)
  = (reconfigured cfg (fst (invoke ev f s)), snd (invoke ev f s)).
Proof. unfold invoke, reconfigured. cbn. by destruct (f (host s)). Qed.

Lemma loop_head_reconfigured cfg cbs fr i (s : St H) :
  loop_head cbs fr i (reconfigured cfg s)
  = (reconfigured cfg (fst (loop_head cbs fr i s)),
     snd (loop_head cbs fr i s)).
Proof.
  unfold loop_head. destruct (i <=? steps fr)%nat.
  - change (signal_aborted (exec (reconfigured cfg s)))
      with (signal_aborted (exec s)).
    by destruct (signal_aborted (exec s)).
  - rewrite invoke_reconfigured.
    by destruct (invoke _ _ s) as [s' [e|]].
Qed.

Lemma executeCommand_resume_reconfigured cfg ph cbs (s : St H) :
  executeCommand_resume ph cbs (reconfigured cfg s)
  = (reconfigured cfg (fst (executeCommand_resume ph cbs s)),
     snd (executeCommand_resume ph cbs s)).
Proof.
  destruct ph as [|fr i]; [done |]. cbn [executeCommand_resume].
  rewrite invoke_reconfigured.
  destruct (invoke _ _ s) as [s' [e|]]; [done |]. cbn [fst snd].
  apply loop_head_reconfigured.
Qed.

Lemma elapse_reconfigured cfg cbs n :
  forall (s : St H) r,
    elapse n cbs (reconfigured cfg s, r)
    = (reconfigured cfg (fst (elapse n cbs (s, r))),
       snd (elapse n cbs (s, r))).
Proof.
  induction n as [|n IH]; intros s r; [done |].
  destruct r as [|e|ph]; try done.
  cbn [elapse]. rewrite executeCommand_resume_reconfigured.
  destruct (executeCommand_resume ph cbs s) as [s1 r1]. apply IH.
Qed.

End SetConfig.

(** X21.  [setConfig] called while a command is being animated does not
    change the rest of that command: the remaining delays bring the same
    position updates, in the same number, and the same outcome as
    without the call, since the step count and the increments were read
    from the configuration when the command started.  The new
    configuration stays in place for the commands that follow. *)
Theorem X21_setConfig_does_not_affect_the_command_in_progress :
  forall (H : Type) (cfg : CommandExecutor.ExecutorConfig) (n : nat)
    (cbs : CommandExecutor.ExecutorCallbacks H) (ph : CommandExecutor.Phase)
    (s : CommandExecutor.St H),
    let without := CommandExecutor.elapse n cbs (s, CommandExecutor.Awaiting ph) in
    let with_call :=
      CommandExecutor.elapse n cbs
        (Reconfigure.reconfigured cfg s, CommandExecutor.Awaiting ph) in
    snd with_call = snd without /\
    CommandExecutor.trace (fst with_call) = CommandExecutor.trace (fst without) /\
    CommandExecutor.host (fst with_call) = CommandExecutor.host (fst without) /\
    CommandExecutor.config (CommandExecutor.exec (fst with_call)) = cfg.
Proof.
  intros H cfg n cbs ph s without with_call.
  unfold with_call. rewrite elapse_reconfigured. fold without. done.
Qed.

(** ** Audio chunks and the state of the socket *)

(** X22.  A chunk handed to [sendCallAudio] while the socket is not open
    is dropped, not queued, and [sendAudioChunk] advances the sent-offset
    all the same: nothing reaches the socket at that tick, the
    sent-offset becomes the size of the file, and a later tick that sees
    the same file sends nothing, whether the socket is open by then or
    not. *)
Theorem X22_chunk_is_dropped_when_socket_is_not_open :
  forall (ws : WebSocketService.State) (send_throws : bool)
    (f : VoiceCall.FileView) (s : VoiceCall.Session)
    (wire : list Wire.Message),
    WebSocketService.isReady ws = false ->
    VoiceCall.sendAudioChunk (Some f) s <> s ->
    let r := Wire.tick ws send_throws (Some f) (s, wire) in
    snd r = wire /\
    VoiceCall.lastAudioPosition (fst r) = VoiceCall.file_size f /\
    forall ws' send_throws', Wire.tick ws' send_throws' (Some f) r = r.
Proof.
  intros ws thr f s wire Hready Hdue r. unfold r, Wire.tick. cbn [fst snd].
  destruct (sendAudioChunk_cases s f)
    as [Hsame|(_ & _ & Hsent & Hpos & _)]; [done |].
  split; [| split; [exact Hpos |]].
  - rewrite Hsent, drop_app_length. cbn [foldl fst snd].
    unfold Wire.sendCallAudio, Wire.send. by rewrite Hready.
  - intros ws' thr'. rewrite sendAudioChunk_again.
    by rewrite drop_all.
Qed.

(** X22 at a concrete input: the call has started, the service was never
    connected, and the recording has 22 bytes. *)
Lemma X22_chunk_is_dropped_when_socket_is_not_open_witness :
  let r := Wire.tick Wire.never_connected false
             (Some (VoiceCall.file_of VoiceCall.recording22))
             (VoiceCall.started, []) in
  snd r = [] /\
  VoiceCall.lastAudioPosition (fst r) = 22%nat /\
  Wire.tick Wire.connected false
    (Some (VoiceCall.file_of VoiceCall.recording22)) r = r.
Proof.
  intros r.
  destruct (X22_chunk_is_dropped_when_socket_is_not_open
              Wire.never_connected false
              (VoiceCall.file_of VoiceCall.recording22)
              VoiceCall.started [])
    as (Hwire & Hpos & Hlater).
  - reflexivity.
  - vm_compute. discriminate.
  - split; [exact Hwire |]. split; [exact Hpos |].
    apply (Hlater Wire.connected false).
Defined.
